(** * tlRender: the frame-serving pipeline of [tlrCore/Timeline.cpp]

    A shallow embedding of [tlr::timeline::Timeline] (request queue,
    scheduler tick, composition walker, reader registry) and the
    properties of its specification.

    Conventions of the embedding.
    - C++ [double] and [float] values are exact rationals ([Q]); rounding
      is not modelled.  A property whose outcome is discrete (a frame
      number after [floor], an equality test, a strict bound on a
      [float]) is stated for whole values at whole rates within the
      mantissa (53 bits, 24 for a [float]), where the arithmetic of the
      code is exact or rounds without changing the outcome.  Module
      [binary64] is the IEEE 754 evaluation of the rescaling of a time,
      for an input on which the two differ.
    - A [const otio::Clip*] is the address of the clip ([positive])
      together with the immutable clip it points to.
    - [std::future] / [std::promise] pairs are identifiers into a store of
      shared states; a shared state is not ready, holds a value, or holds
      an exception.
    - The scheduler thread and the caller threads are interleaved at the
      granularity of the critical sections of the source: one event is one
      public call, one scheduler tick, or one action of a reader thread. *)

From Stdlib Require Import QArith Qround Ascii String Lqa.
From Stdlib Require SpecFloat.
From stdpp Require Import base option list gmap strings pretty sorting.

(** ** opentime: rational time (external library OpenTimelineIO) *)

Module otime.

Local Open Scope Q_scope.

Definition Qlt_bool (x y : Q) : bool := negb (Qle_bool y x).

Record RationalTime := mkTime { value : Q; rate : Q }.

(** [RationalTime()] *)
Definition zero : RationalTime := mkTime 0 1.

(** [value_rescaled_to]: at the rate of the time the value is returned
    as it is; otherwise the product and the quotient, exact here, each
    rounded to a [double] in the library ([binary64.value_rescaled_to]). *)
Definition value_rescaled_to (t : RationalTime) (new_rate : Q) : Q :=
  if Qeq_bool new_rate (rate t) then value t
  else (value t * new_rate) / rate t.

Definition rescaled_to (t : RationalTime) (new_rate : Q) : RationalTime :=
  mkTime (value_rescaled_to t new_rate) new_rate.

(** [operator +] : the result is at the larger of the two rates. *)
Definition add (lhs rhs : RationalTime) : RationalTime :=
  if Qlt_bool (rate lhs) (rate rhs)
  then mkTime (value_rescaled_to lhs (rate rhs) + value rhs) (rate rhs)
  else mkTime (value_rescaled_to rhs (rate lhs) + value lhs) (rate lhs).

(** [operator -] *)
Definition sub (lhs rhs : RationalTime) : RationalTime :=
  if Qlt_bool (rate lhs) (rate rhs)
  then mkTime (value_rescaled_to lhs (rate rhs) - value rhs) (rate rhs)
  else mkTime (value lhs - value_rescaled_to rhs (rate lhs)) (rate lhs).

Definition to_seconds (t : RationalTime) : Q := value t / rate t.

(** [operator >], [operator <=], [operator <] compare seconds. *)
Definition gt (lhs rhs : RationalTime) : bool :=
  Qlt_bool (to_seconds rhs) (to_seconds lhs).
Definition le (lhs rhs : RationalTime) : bool :=
  Qle_bool (to_seconds lhs) (to_seconds rhs).
Definition lt (lhs rhs : RationalTime) : bool :=
  Qlt_bool (to_seconds lhs) (to_seconds rhs).

(** [RationalTime(floor(t.value()), t.rate())] *)
Definition floor (t : RationalTime) : RationalTime :=
  mkTime (inject_Z (Qfloor (value t))) (rate t).

Record TimeRange := mkRange { start_time : RationalTime; duration : RationalTime }.

Definition end_time_exclusive (r : TimeRange) : RationalTime :=
  add (duration r) (rescaled_to (start_time r) (rate (duration r))).

Definition end_time_inclusive (r : TimeRange) : RationalTime :=
  let et := end_time_exclusive r in
  if Qlt_bool 1 (value (sub et (rescaled_to (start_time r) (rate (duration r)))))
  then
    if Qeq_bool (value (duration r)) (inject_Z (Qfloor (value (duration r))))
    then sub et (mkTime 1 (rate (duration r)))
    else floor et
  else start_time r.

(** [TimeRange::contains(RationalTime)] : half open. *)
Definition contains (r : TimeRange) (t : RationalTime) : bool :=
  le (start_time r) t && lt t (end_time_exclusive r).

(** [TimeRange::intersects(TimeRange)] : the half-open ranges
    [start, start + duration) overlap. *)
Definition intersects (r other : TimeRange) : bool :=
  lt (start_time r) (end_time_exclusive other)
  && lt (start_time other) (end_time_exclusive r).

Definition range_from_start_end_time (s e : RationalTime) : TimeRange :=
  mkRange s (sub e s).

(** [TimeTransform(offset, scale, rate)]; the default rate is [-1]. *)
Record TimeTransform :=
  mkTransform { offset : RationalTime; scale : Q; tt_rate : Q }.

Definition identity : TimeTransform := mkTransform zero 1 (-1).

(** [TimeTransform::applied_to(TimeTransform)] *)
Definition applied_to_transform (t other : TimeTransform) : TimeTransform :=
  mkTransform (add (offset t) (offset other))
              (scale t * scale other)
              (if Qlt_bool 0 (tt_rate t) then tt_rate t else tt_rate other).

(** [TimeTransform::applied_to(RationalTime)] *)
Definition applied_to (t : TimeTransform) (other : RationalTime) : RationalTime :=
  let result := add (mkTime (value other * scale t) (rate other)) (offset t) in
  let target_rate := if Qlt_bool 0 (tt_rate t) then tt_rate t else rate other in
  if Qlt_bool 0 target_rate then rescaled_to result target_rate else result.

(** [operator ==]: the value rescaled to the rate of the other time is
    the value of the other time (exact here, on rounded [double]s in the
    library). *)
Definition equal (lhs rhs : RationalTime) : bool :=
  Qeq_bool (value_rescaled_to lhs (rate rhs)) (value rhs).

(** [RationalTime::duration_from_start_end_time_inclusive] *)
Definition duration_from_start_end_time_inclusive (s e : RationalTime)
  : RationalTime :=
  if Qeq_bool (rate s) (rate e)
  then mkTime (value e - value s + 1) (rate s)
  else mkTime (value_rescaled_to e (rate s) - value s + 1) (rate s).

(** [TimeRange::range_from_start_end_time_inclusive] *)
Definition range_from_start_end_time_inclusive (s e : RationalTime) : TimeRange :=
  mkRange s (duration_from_start_end_time_inclusive s e).

End otime.

(** [tlr::time::invalidTime], declared in Time.h (not among the
    sources) as [RationalTime(-1, -1)]. *)
Definition invalidTime : otime.RationalTime := otime.mkTime (-1) (-1).

(** ** binary64: the arithmetic of [double]

    IEEE 754 double precision as the Standard Library specifies it
    ([SpecFloat]: round to nearest, ties to even), for the two
    expressions of opentime and of [readVideoFrame] whose rounding
    decides a frame number. *)

Module binary64.

Import SpecFloat.

Definition prec : Z := 53.
Definition emax : Z := 1024.

(** The [double] nearest to a whole number. *)
Definition of_Z (z : Z) : spec_float := binary_normalize prec emax z 0 false.

Definition mul (x y : spec_float) : spec_float := SFmul prec emax x y.
Definition div (x y : spec_float) : spec_float := SFdiv prec emax x y.
Definition sub (x y : spec_float) : spec_float := SFsub prec emax x y.

(** [RationalTime::value_rescaled_to]:
    [new_rate == _rate ? _value : (_value * new_rate) / _rate] *)
Definition value_rescaled_to (value rate new_rate : spec_float) : spec_float :=
  if SFeqb new_rate rate then value else div (mul value new_rate) rate.

(** [floor] of a finite [double], as a whole number. *)
Definition floor (x : spec_float) : option Z :=
  match x with
  | S754_zero _ => Some 0%Z
  | S754_finite s m e => Some (Z.shiftl (if s then Z.neg m else Z.pos m) e)
  | _ => None
  end.

(** The rational that a finite [double] is. *)
Definition to_Q (x : spec_float) : Q :=
  match x with
  | S754_finite s m e =>
      (inject_Z (if s then Z.neg m else Z.pos m) * Qpower 2 e)%Q
  | _ => 0%Q
  end.

(** [operator ==] of [RationalTime]:
    [lhs.value_rescaled_to(rhs._rate) == rhs._value] *)
Definition equal (lhs_value lhs_rate rhs_value rhs_rate : spec_float) : bool :=
  SFeqb (value_rescaled_to lhs_value lhs_rate rhs_rate) rhs_value.

(** The conversion of a [double] to [float]: rounded to the 24 bits of
    binary32. *)
Definition to_float (x : spec_float) : spec_float :=
  match x with
  | S754_finite s m e => binary_normalize 24 128 (if s then Z.neg m else Z.pos m) e s
  | _ => x
  end.

(** [Private::transitionValue]: [(frame - in) / (out - in)] in [double],
    returned as a [float]. *)
Definition transitionValue (frame in_ out : spec_float) : spec_float :=
  to_float (div (sub frame in_) (sub out in_)).

End binary64.

(** ** opentimelineio: the composition (external library, read only) *)

Module otio.

Import otime.

Inductive Effect :=
| LinearTimeWarp (time_scalar : Q)
| OtherEffect.

Inductive MediaReference :=
| ExternalReference (target_url : string)
| ImageSequenceReference (target_url_base name_prefix name_suffix : string)
                         (start_frame : Z) (frame_zero_padding : nat)
| OtherReference.

Record Clip := mkClip {
  clip_addr : positive;
  trimmed_range : TimeRange;
  effects : list Effect;
  media_reference : MediaReference }.

Record Transition := mkTransition {
  transition_addr : positive;
  transition_type : string;
  in_offset : RationalTime;
  out_offset : RationalTime }.

(** The children of a track.  [AnItem] is an [otio::Item] that is not a
    clip (a gap or a nested composition); a transition is a composable
    but not an item. *)
Inductive Composable :=
| AClip (c : Clip)
| AnItem (a : positive) (duration : RationalTime)
| ATransition (t : Transition).

Definition addr (c : Composable) : positive :=
  match c with
  | AClip c => clip_addr c
  | AnItem a _ => a
  | ATransition t => transition_addr t
  end.

Record Track := mkTrack {
  track_addr : positive;
  kind : string;
  children : list Composable }.

(** [otio::Track::Kind::video] *)
Definition Kind_video : string := "Video".

(** [otio::Transition::Type::SMPTE_Dissolve] *)
Definition SMPTE_Dissolve : string := "SMPTE_Dissolve".

(** The children of the timeline's stack: tracks, or something else. *)
Inductive StackChild :=
| ATrack (t : Track)
| OtherChild.

(** [Track::neighbors_of(item)] with the default gap policy: the
    composables just before and just after [item], null at the ends
    (and when [item] is not a child). *)
Fixpoint neighbors_from (prev : option Composable) (l : list Composable)
         (a : positive) : option Composable * option Composable :=
  match l with
  | [] => (None, None)
  | c :: l' =>
      if decide (addr c = a) then (prev, head l')
      else neighbors_from (Some c) l' a
  end.

Definition neighbors_of (t : Track) (a : positive)
  : option Composable * option Composable :=
  neighbors_from None (children t) a.

(** The range queries of the library that the timeline calls.  They
    depend on the whole tree (source ranges of the ancestors, nesting),
    so the embedding takes them as an interface. *)
Class Layout := {
  (* [item->trimmed_range_in_parent()] for a child of a track *)
  trimmed_range_in_parent : Track → Composable → option TimeRange;
  (* [track->transformed_time(time, clip)] *)
  transformed_time : Track → RationalTime → Clip → RationalTime;
  (* [clip->transformed_time_range(range, getRoot(clip))] *)
  transformed_time_range : Clip → TimeRange → TimeRange }.

(** The composition as a tree, for the calls that descend into nested
    compositions: a clip, a composition (stack or track) with its
    children, or another composable (a gap, a transition). *)
#[warnings="-register-all"] Inductive Node :=
| NClip (clip : Clip)
| NComposition (children : list Node)
| NOther.

End otio.

(** ** avio: readers (interface only; the readers are collaborators) *)

Module avio.

Import otime.

(** [std::shared_ptr<imaging::Image>]; [None] is the null pointer. *)
Definition Image := option nat.

Record VideoFrame := mkVideoFrame { vf_time : RationalTime; vf_image : Image }.

Record Info := mkInfo {
  video : list nat;              (* one entry per video stream *)
  videoTimeRange : TimeRange }.

Definition Options := gmap string string.

(** The state shared by a [std::promise] and its [std::future]. *)
Inductive SharedState (A : Type) :=
| NotReady
| Value (a : A)
| Exception.
Arguments NotReady {A}.
Arguments Value {A} a.
Arguments Exception {A}.

(** A [std::future]: [None] when default constructed ([!valid()]). *)
Definition Future := option nat.

Record ReadRequest := mkReadRequest {
  rq_future : nat;
  rq_time : RationalTime;
  rq_layer : nat;
  rq_image : Image }.

(** Modelled from the spec: [avio::IRead] is not part of the sources.
    A reader queues the video frames asked of it, counts the calls of
    [cancelVideoFrames], and stops asynchronously. *)
Record IRead := mkIRead {
  r_path : string;
  r_info : Info;
  videoFrameRequests : list ReadRequest;
  cancelled : nat;
  stop_called : bool;
  has_stopped : bool }.

(** Modelled from the spec: [hasVideoFrames()] reports pending frames,
    the requests queued and not yet resolved. *)
Definition hasVideoFrames (r : IRead) : bool :=
  negb (bool_decide (videoFrameRequests r = [])).

(** Modelled from the spec: [hasStopped()] becomes true when the reader
    is safe to drop. *)
Definition hasStopped (r : IRead) : bool := has_stopped r.

(** Modelled from the spec: [stop()] initiates the asynchronous
    shutdown. *)
Definition stop (r : IRead) : IRead :=
  mkIRead (r_path r) (r_info r) (videoFrameRequests r) (cancelled r) true (has_stopped r).

(** Modelled from the spec: [cancelVideoFrames()] asks the reader to
    discard its decode work; the futures it has returned still resolve,
    by a later action of the reader. *)
Definition cancelVideoFrames (r : IRead) : IRead :=
  mkIRead (r_path r) (r_info r) (videoFrameRequests r) (S (cancelled r))
          (stop_called r) (has_stopped r).

(** Modelled from the spec: [readVideoFrame(time, layer, image)] queues
    the request; the future is made by the caller of [enqueue]. *)
Definition enqueue (r : IRead) (q : ReadRequest) : IRead :=
  mkIRead (r_path r) (r_info r) (videoFrameRequests r ++ [q]) (cancelled r)
          (stop_called r) (has_stopped r).

(** [ioSystem->read(path, options)] followed by [read->getInfo().get()]. *)
Inductive ReadResult :=
| ReadNull
| ReadOpened (r : IRead)
| ReadThrows.

(** Modelled from the spec: what the context gives to the timeline, none
    of it among the sources: the I/O system ([read(path, options)] returns
    a reader or fails), and the helpers of [tlrCore] ([string::Format] of
    a double, [file::Path::isAbsolute]). *)
Class System := {
  read : string → Options → ReadResult;
  format_double : Q → string;
  isAbsolute : string → bool }.

End avio.

(** ** tlr::timeline : data *)

Module timeline.

Import otime otio avio.

(** [enum class Transition { None, Dissolve }] *)
Inductive Transition :=
| Transition_None
| Transition_Dissolve.

Definition toTransition (value : string) : Transition :=
  if decide (SMPTE_Dissolve = value) then Transition_Dissolve else Transition_None.

Module FrameLayer.
Record t := mk {
  image : Image;
  imageB : Image;
  transition : Transition;
  transitionValue : Q }.
End FrameLayer.

Module Frame.
Record t := mk {
  time : RationalTime;
  layers : list FrameLayer.t }.
(** [Frame()].  The declaration of [Frame] (Timeline.h) is not among the
    sources; its default time is that of [VideoData], its successor in
    Video.h, and of [Request] in Timeline.cpp: [time::invalidTime]. *)
Definition default : t := mk invalidTime [].
End Frame.

Module LayerData.
Record t := mk {
  image : Future;
  imageB : Future;
  transition : Transition;
  transitionValue : Q }.
(** [LayerData()] *)
Definition default : t := mk None None Transition_None 0%Q.
End LayerData.

Module Request.
Record t := mk {
  time : RationalTime;
  videoLayer : nat;
  image : Image;
  promise : nat;
  layerData : list LayerData.t }.
End Request.

Module Reader.
Record t := mk {
  read : IRead;
  info : Info }.
End Reader.

(** [struct Timeline::Private], with the two stores of shared states:
    [videoFrames] for the futures returned by the readers and [frames]
    for the promises handed to the callers.  The members that no
    operation below reads are left out: [videoInfo], the thread, the
    mutex, the condition variable and the log timer. *)
Record Private := mkPrivate {
  context : bool;                 (* the weak pointer to the context locks *)
  path : string;                  (* [path.getDirectory()] *)
  otioTimeline : list StackChild; (* [otioTimeline->tracks()->children()] *)
  duration : RationalTime;
  globalStartTime : RationalTime;
  activeRanges : list TimeRange;
  requests : list Request.t;
  requestsInProgress : list Request.t;
  requestCount : nat;
  requestTimeout : nat;
  ioOptions : Options;
  readers : gmap positive (Clip * Reader.t);
  stoppedReaders : list IRead;
  stopped : bool;
  running : bool;
  videoFrames : gmap nat (SharedState VideoFrame);
  nextVideoFrame : nat;
  frames : gmap nat (SharedState Frame.t);
  nextFrame : nat }.

Definition set_activeRanges (x : list TimeRange) (p : Private) : Private :=
  mkPrivate (context p) (path p) (otioTimeline p) (duration p)
            (globalStartTime p) x (requests p) (requestsInProgress p)
            (requestCount p) (requestTimeout p) (ioOptions p) (readers p)
            (stoppedReaders p) (stopped p) (running p) (videoFrames p)
            (nextVideoFrame p) (frames p) (nextFrame p).
Definition set_requests (x : list Request.t) (p : Private) : Private :=
  mkPrivate (context p) (path p) (otioTimeline p) (duration p)
            (globalStartTime p) (activeRanges p) x (requestsInProgress p)
            (requestCount p) (requestTimeout p) (ioOptions p) (readers p)
            (stoppedReaders p) (stopped p) (running p) (videoFrames p)
            (nextVideoFrame p) (frames p) (nextFrame p).
Definition set_requestsInProgress (x : list Request.t) (p : Private) : Private :=
  mkPrivate (context p) (path p) (otioTimeline p) (duration p)
            (globalStartTime p) (activeRanges p) (requests p) x
            (requestCount p) (requestTimeout p) (ioOptions p) (readers p)
            (stoppedReaders p) (stopped p) (running p) (videoFrames p)
            (nextVideoFrame p) (frames p) (nextFrame p).
Definition set_requestCount (x : nat) (p : Private) : Private :=
  mkPrivate (context p) (path p) (otioTimeline p) (duration p)
            (globalStartTime p) (activeRanges p) (requests p)
            (requestsInProgress p) x (requestTimeout p) (ioOptions p)
            (readers p) (stoppedReaders p) (stopped p) (running p)
            (videoFrames p) (nextVideoFrame p) (frames p) (nextFrame p).
Definition set_requestTimeout (x : nat) (p : Private) : Private :=
  mkPrivate (context p) (path p) (otioTimeline p) (duration p)
            (globalStartTime p) (activeRanges p) (requests p)
            (requestsInProgress p) (requestCount p) x (ioOptions p)
            (readers p) (stoppedReaders p) (stopped p) (running p)
            (videoFrames p) (nextVideoFrame p) (frames p) (nextFrame p).
Definition set_ioOptions (x : Options) (p : Private) : Private :=
  mkPrivate (context p) (path p) (otioTimeline p) (duration p)
            (globalStartTime p) (activeRanges p) (requests p)
            (requestsInProgress p) (requestCount p) (requestTimeout p) x
            (readers p) (stoppedReaders p) (stopped p) (running p)
            (videoFrames p) (nextVideoFrame p) (frames p) (nextFrame p).
Definition set_readers (x : gmap positive (Clip * Reader.t)) (p : Private) : Private :=
  mkPrivate (context p) (path p) (otioTimeline p) (duration p)
            (globalStartTime p) (activeRanges p) (requests p)
            (requestsInProgress p) (requestCount p) (requestTimeout p)
            (ioOptions p) x (stoppedReaders p) (stopped p) (running p)
            (videoFrames p) (nextVideoFrame p) (frames p) (nextFrame p).
Definition set_stoppedReaders (x : list IRead) (p : Private) : Private :=
  mkPrivate (context p) (path p) (otioTimeline p) (duration p)
            (globalStartTime p) (activeRanges p) (requests p)
            (requestsInProgress p) (requestCount p) (requestTimeout p)
            (ioOptions p) (readers p) x (stopped p) (running p)
            (videoFrames p) (nextVideoFrame p) (frames p) (nextFrame p).
Definition set_stopped (x : bool) (p : Private) : Private :=
  mkPrivate (context p) (path p) (otioTimeline p) (duration p)
            (globalStartTime p) (activeRanges p) (requests p)
            (requestsInProgress p) (requestCount p) (requestTimeout p)
            (ioOptions p) (readers p) (stoppedReaders p) x (running p)
            (videoFrames p) (nextVideoFrame p) (frames p) (nextFrame p).
Definition set_running (x : bool) (p : Private) : Private :=
  mkPrivate (context p) (path p) (otioTimeline p) (duration p)
            (globalStartTime p) (activeRanges p) (requests p)
            (requestsInProgress p) (requestCount p) (requestTimeout p)
            (ioOptions p) (readers p) (stoppedReaders p) (stopped p) x
            (videoFrames p) (nextVideoFrame p) (frames p) (nextFrame p).
Definition set_videoFrames (x : gmap nat (SharedState VideoFrame)) (p : Private) : Private :=
  mkPrivate (context p) (path p) (otioTimeline p) (duration p)
            (globalStartTime p) (activeRanges p) (requests p)
            (requestsInProgress p) (requestCount p) (requestTimeout p)
            (ioOptions p) (readers p) (stoppedReaders p) (stopped p)
            (running p) x (nextVideoFrame p) (frames p) (nextFrame p).
Definition set_nextVideoFrame (x : nat) (p : Private) : Private :=
  mkPrivate (context p) (path p) (otioTimeline p) (duration p)
            (globalStartTime p) (activeRanges p) (requests p)
            (requestsInProgress p) (requestCount p) (requestTimeout p)
            (ioOptions p) (readers p) (stoppedReaders p) (stopped p)
            (running p) (videoFrames p) x (frames p) (nextFrame p).
Definition set_frames (x : gmap nat (SharedState Frame.t)) (p : Private) : Private :=
  mkPrivate (context p) (path p) (otioTimeline p) (duration p)
            (globalStartTime p) (activeRanges p) (requests p)
            (requestsInProgress p) (requestCount p) (requestTimeout p)
            (ioOptions p) (readers p) (stoppedReaders p) (stopped p)
            (running p) (videoFrames p) (nextVideoFrame p) x (nextFrame p).
Definition set_nextFrame (x : nat) (p : Private) : Private :=
  mkPrivate (context p) (path p) (otioTimeline p) (duration p)
            (globalStartTime p) (activeRanges p) (requests p)
            (requestsInProgress p) (requestCount p) (requestTimeout p)
            (ioOptions p) (readers p) (stoppedReaders p) (stopped p)
            (running p) (videoFrames p) (nextVideoFrame p) (frames p) x.

(** The state after [_init]: default member initialisers, thread running. *)
Definition init (context : bool) (path : string) (tracks : list StackChild)
           (duration globalStartTime : RationalTime) : Private :=
  mkPrivate context path tracks duration globalStartTime
            [] [] [] 16 1 ∅ ∅ [] false true ∅ 0 ∅ 0.

(** [promise.set_value(frame)] *)
Definition set_value (id : nat) (frame : Frame.t) (p : Private) : Private :=
  set_frames (<[id := Value frame]> (frames p)) p.

(** The destructor of a [std::promise]: a shared state that is not ready
    receives the [broken_promise] error. *)
Definition abandon (id : nat) (m : gmap nat (SharedState Frame.t))
  : gmap nat (SharedState Frame.t) :=
  match m !! id with
  | Some NotReady => <[id := Exception]> m
  | _ => m
  end.

(** *** The public calls *)

Definition getFrame (time : RationalTime) (videoLayer : nat) (image : Image)
           (p : Private) : nat * Private :=
  let id := nextFrame p in
  let request := Request.mk time videoLayer image id [] in
  let p := set_nextFrame (S id) (set_frames (<[id := NotReady]> (frames p)) p) in
  if negb (stopped p)
  then (id, set_requests (requests p ++ [request]) p)
  else (id, set_value (Request.promise request) Frame.default p).

Definition setActiveRanges (ranges : list TimeRange) (p : Private) : Private :=
  set_activeRanges ranges p.

Definition cancelFrames (p : Private) : Private :=
  let p := set_frames (foldr (λ r m, abandon (Request.promise r) m)
                             (frames p) (requests p))
                      (set_requests [] p) in
  set_readers ((λ i, (i.1, Reader.mk (cancelVideoFrames (Reader.read i.2))
                                     (Reader.info i.2))) <$> readers p) p.

Definition setRequestCount (value : nat) (p : Private) : Private :=
  set_requestCount value p.

Definition setRequestTimeout (value : nat) (p : Private) : Private :=
  set_requestTimeout value p.

Definition setIOOptions (value : Options) (p : Private) : Private :=
  set_ioOptions value p.

(** [Private::transitionValue]: the quotient, exact; the source returns
    it as a [float]. *)
Definition transitionValue (frame in_ out : Q) : Q :=
  ((frame - in_) / (out - in_))%Q.

(** *** Results of calls that may throw or block *)

(** A call inside the [try] of [frameRequests]: it returns, or throws a
    [std::exception]; the state changes made before the throw stay. *)
Inductive Result (A : Type) :=
| Ok (a : A) (p : Private)
| Throw (p : Private).
Arguments Ok {A} a p.
Arguments Throw {A} p.

Definition bind {A B : Type} (m : Private → Result A) (k : A → Private → Result B)
  : Private → Result B :=
  λ p, match m p with
       | Ok a p' => k a p'
       | Throw p' => Throw p'
       end.

Definition ret {A : Type} (a : A) : Private → Result A := λ p, Ok a p.

Notation "x ←: m ;; k" := (bind m (λ x, k))
  (at level 100, m at next level, right associativity).

(** [std::future::get()] *)
Inductive GetResult :=
| Got (frame : VideoFrame)
| Throws
| Blocks.

Section WithCollaborators.

Context `{Layout} `{System}.

(** *** Paths *)

Definition fixPath (p : Private) (value : string) : string :=
  let directory := if negb (isAbsolute value) then path p else EmptyString in
  directory +:+ value.

(** [std::setfill('0') << std::setw(width) << frame] *)
Definition padded (width : nat) (frame : Z) : string :=
  let digits := pretty frame in
  String.string_of_list_ascii (replicate (width - String.length digits) "0"%char)
    +:+ digits.

Definition getPath (p : Private) (ref : MediaReference) : string :=
  let out :=
    match ref with
    | ExternalReference target_url => target_url
    | ImageSequenceReference base prefix suffix start_frame padding =>
        base +:+ prefix +:+ padded padding start_frame +:+ suffix
    | OtherReference => EmptyString
    end in
  fixPath p out.

(** *** [readVideoFrame] *)

(** The clip time transform: only the clip's own linear time warps. *)
Definition clipTimeTransform (clip : Clip) : TimeTransform :=
  fold_left
    (λ timeTransform effect,
       match effect with
       | LinearTimeWarp time_scalar =>
           applied_to_transform (mkTransform zero time_scalar (-1)) timeTransform
       | OtherEffect => timeTransform
       end)
    (effects clip) identity.

(** The clip start time taking transitions into account. *)
Definition clipStartTime (track : Track) (clip : Clip) : RationalTime :=
  let startTime := start_time (trimmed_range clip) in
  match (neighbors_of track (clip_addr clip)).1 with
  | Some (ATransition transition) => sub startTime (in_offset transition)
  | _ => startTime
  end.

Definition frameTime (track : Track) (clip : Clip) (time : RationalTime)
  : RationalTime :=
  let timeTransform := clipTimeTransform clip in
  let startTime := clipStartTime track clip in
  let clipTime := transformed_time track time clip in
  add startTime (applied_to timeTransform (sub clipTime startTime)).

(** [readTime] and [floorTime]: the frame time rescaled to the rate of
    the media, and its value floored.  The floor is that of the exact
    quotient; the source floors the [double] that [rescaled_to] returns
    ([binary64.floor]). *)
Definition floorTime (info : Info) (frameTime : RationalTime) : RationalTime :=
  let readTime := rescaled_to frameTime (rate (otime.duration (videoTimeRange info))) in
  mkTime (inject_Z (Qfloor (value readTime))) (rate readTime).

(** [read->readVideoFrame(time, videoLayer, image)]: the reader queues
    the request and returns the future of a fresh shared state. *)
Definition dispatch (clip : Clip) (reader : Reader.t) (time : RationalTime)
           (videoLayer : nat) (image : Image) (p : Private) : Future * Private :=
  let id := nextVideoFrame p in
  let request := mkReadRequest id time videoLayer image in
  let reader' := Reader.mk (enqueue (Reader.read reader) request)
                           (Reader.info reader) in
  (Some id,
   set_readers (<[clip_addr clip := (clip, reader')]> (readers p))
     (set_nextVideoFrame (S id)
        (set_videoFrames (<[id := NotReady]> (videoFrames p)) p))).

Definition readVideoFrame (track : Track) (clip : Clip) (time : RationalTime)
           (videoLayer : nat) (ioOptions : Options) (image : Image)
  : Private → Result Future :=
  λ p,
    if context p then
      let frameTime := frameTime track clip time in
      match readers p !! clip_addr clip with
      | Some j =>
          let floorTime := floorTime (Reader.info j.2) frameTime in
          let '(out, p') := dispatch clip j.2 floorTime videoLayer image p in
          Ok out p'
      | None =>
          let path := getPath p (media_reference clip) in
          let options :=
            <["SequenceIO/DefaultSpeed" := format_double (rate (duration p))]>
              ioOptions in
          match read path options with
          | ReadThrows => Throw p
          | ReadNull => Ok None p
          | ReadOpened read =>
              let info := r_info read in
              if negb (bool_decide (video info = [])) then
                let floorTime := floorTime info frameTime in
                let '(out, p') :=
                  dispatch clip (Reader.mk read info) floorTime videoLayer image p in
                Ok out p'
              else Ok None p
          end
      end
    else Ok None p.


(** *** [frameRequests], first part: gather the new requests *)

(** The [while] loop under the lock: pending requests move to
    [newRequests] while the requests in progress and the new ones
    together are fewer than [requestCount]. *)
Fixpoint gather (requests newRequests : list Request.t)
         (inProgress requestCount : nat) : list Request.t * list Request.t :=
  match requests with
  | [] => ([], newRequests)
  | front :: rest =>
      if bool_decide (inProgress + length newRequests < requestCount)
      then gather rest (newRequests ++ [front]) inProgress requestCount
      else (requests, newRequests)
  end.

(** *** [frameRequests], second part: traverse the timeline *)

Definition set_image (x : Future) (d : LayerData.t) : LayerData.t :=
  LayerData.mk x (LayerData.imageB d) (LayerData.transition d)
               (LayerData.transitionValue d).
Definition set_imageB (x : Future) (d : LayerData.t) : LayerData.t :=
  LayerData.mk (LayerData.image d) x (LayerData.transition d)
               (LayerData.transitionValue d).
Definition set_transition (k : Transition) (v : Q) (d : LayerData.t) : LayerData.t :=
  LayerData.mk (LayerData.image d) (LayerData.imageB d) k v.
(** [std::swap(data.image, data.imageB)] *)
Definition swap_images (d : LayerData.t) : LayerData.t :=
  LayerData.mk (LayerData.imageB d) (LayerData.image d) (LayerData.transition d)
               (LayerData.transitionValue d).

(** The clip item itself. *)
Definition readItem (request : Request.t) (ioOptions : Options) (otioTrack : Track)
           (otioItem : Composable) (time : RationalTime) (data : LayerData.t)
  : Private → Result LayerData.t :=
  match otioItem with
  | AClip otioClip =>
      image ←: readVideoFrame otioTrack otioClip time (Request.videoLayer request)
                 ioOptions (Request.image request) ;;
      ret (set_image image data)
  | _ => ret data
  end.

(** The neighbor on the right is a transition. *)
Definition transitionOut (request : Request.t) (ioOptions : Options)
           (otioTrack : Track) (second : option Composable)
           (range : TimeRange) (time : RationalTime) (data : LayerData.t)
  : Private → Result LayerData.t :=
  match second with
  | Some (ATransition otioTransition) =>
      if gt time (sub (end_time_inclusive range) (in_offset otioTransition)) then
        let data :=
          set_transition
            (toTransition (transition_type otioTransition))
            (transitionValue
               (value time)
               (value (end_time_inclusive range) - value (in_offset otioTransition))
               (value (end_time_inclusive range) + value (out_offset otioTransition) + 1))
            data in
        match (neighbors_of otioTrack (transition_addr otioTransition)).2 with
        | Some (AClip otioClipB) =>
            imageB ←: readVideoFrame otioTrack otioClipB time
                        (Request.videoLayer request) ioOptions None ;;
            ret (set_imageB imageB data)
        | _ => ret data
        end
      else ret data
  | _ => ret data
  end.

(** The neighbor on the left is a transition. *)
Definition transitionIn (request : Request.t) (ioOptions : Options)
           (otioTrack : Track) (first : option Composable)
           (range : TimeRange) (time : RationalTime) (data : LayerData.t)
  : Private → Result LayerData.t :=
  match first with
  | Some (ATransition otioTransition) =>
      if lt time (add (start_time range) (out_offset otioTransition)) then
        let data := swap_images data in
        let data :=
          set_transition
            (toTransition (transition_type otioTransition))
            (transitionValue
               (value time)
               (value (start_time range) - value (in_offset otioTransition) - 1)
               (value (start_time range) + value (out_offset otioTransition)))
            data in
        match (neighbors_of otioTrack (transition_addr otioTransition)).1 with
        | Some (AClip otioClipB) =>
            image ←: readVideoFrame otioTrack otioClipB time
                       (Request.videoLayer request) ioOptions None ;;
            ret (set_image image data)
        | _ => ret data
        end
      else ret data
  | _ => ret data
  end.

(** The body of the loop over the children of a video track: the layer
    pushed for one child, if any. *)
Definition itemLayer (request : Request.t) (ioOptions : Options)
           (otioTrack : Track) (k : Composable)
  : Private → Result (option LayerData.t) :=
  λ p,
    match k with
    | ATransition _ => Ok None p
    | otioItem =>
        match trimmed_range_in_parent otioTrack otioItem with
        | Some range =>
            let time := sub (Request.time request) (globalStartTime p) in
            if contains range time then
              let neighbors := neighbors_of otioTrack (addr otioItem) in
              (data ←: readItem request ioOptions otioTrack otioItem time
                         LayerData.default ;;
               data ←: transitionOut request ioOptions otioTrack neighbors.2
                         range time data ;;
               data ←: transitionIn request ioOptions otioTrack neighbors.1
                         range time data ;;
               ret (Some data)) p
            else Ok None p
        | None => Ok None p
        end
    end.


(** The loop over the children of one track.  The layers are pushed on
    [request.layerData] as they are made; the flag tells that an
    exception left the loops. *)
Fixpoint trackLayers (request : Request.t) (ioOptions : Options)
         (otioTrack : Track) (ks : list Composable)
         (layerData : list LayerData.t) (p : Private)
  : list LayerData.t * bool * Private :=
  match ks with
  | [] => (layerData, false, p)
  | k :: ks' =>
      match itemLayer request ioOptions otioTrack k p with
      | Throw p' => (layerData, true, p')
      | Ok None p' => trackLayers request ioOptions otioTrack ks' layerData p'
      | Ok (Some data) p' =>
          trackLayers request ioOptions otioTrack ks' (layerData ++ [data]) p'
      end
  end.

(** The loop over the children of the stack: the video tracks. *)
Fixpoint timelineLayers (request : Request.t) (ioOptions : Options)
         (js : list StackChild) (layerData : list LayerData.t) (p : Private)
  : list LayerData.t * bool * Private :=
  match js with
  | [] => (layerData, false, p)
  | ATrack otioTrack :: js' =>
      if decide (Kind_video = kind otioTrack) then
        match trackLayers request ioOptions otioTrack (children otioTrack)
                          layerData p with
        | (layerData', true, p') => (layerData', true, p')
        | (layerData', false, p') =>
            timelineLayers request ioOptions js' layerData' p'
        end
      else timelineLayers request ioOptions js' layerData p
  | OtherChild :: js' => timelineLayers request ioOptions js' layerData p
  end.

Definition set_layerData (x : list LayerData.t) (r : Request.t) : Request.t :=
  Request.mk (Request.time r) (Request.videoLayer r) (Request.image r)
             (Request.promise r) x.

(** One new request: traverse inside [try], swallow the exception, and
    move the request to [requestsInProgress]. *)
Definition traverse (ioOptions : Options) (request : Request.t) (p : Private)
  : Private :=
  let '(layerData, _, p') :=
    timelineLayers request ioOptions (otioTimeline p) (Request.layerData request) p in
  set_requestsInProgress
    (requestsInProgress p' ++ [set_layerData layerData request]) p'.

Definition traverseAll (ioOptions : Options) (newRequests : list Request.t)
           (p : Private) : Private :=
  fold_left (λ p request, traverse ioOptions request p) newRequests p.

(** *** [frameRequests], third part: check for finished requests *)

(** [future.wait_for(0) == std::future_status::ready] *)
Definition is_ready (p : Private) (id : nat) : bool :=
  match videoFrames p !! id with
  | Some (Value _) | Some Exception => true
  | _ => false
  end.

(** One layer's contribution to [valid]. *)
Definition layerReady (p : Private) (i : LayerData.t) : bool :=
  match LayerData.image i with Some id => is_ready p id | None => true end
  && match LayerData.imageB i with Some id => is_ready p id | None => true end.

Definition requestReady (p : Private) (r : Request.t) : bool :=
  forallb (layerReady p) (Request.layerData r).

(** [get()] on a shared state of the store. *)
Definition future_get (p : Private) (id : nat) : GetResult :=
  match videoFrames p !! id with
  | Some (Value frame) => Got frame
  | Some Exception => Throws
  | _ => Blocks
  end.

(** [if (f.valid()) { image = f.get().image; }] *)
Inductive ImageResult :=
| HasImage (image : Image)
| ImageThrows
| ImageBlocks.

Definition getImage (get : nat → GetResult) (f : Future) : ImageResult :=
  match f with
  | None => HasImage None
  | Some id =>
      match get id with
      | Got frame => HasImage (vf_image frame)
      | Throws => ImageThrows
      | Blocks => ImageBlocks
      end
  end.

(** How the loop that assembles the layers of a frame ends. *)
Inductive LoopEnd :=
| Finished
| Threw
| Blocked.

(** The loop over [layerData] that fills [frame.layers]. *)
Fixpoint frameLayers (get : nat → GetResult) (layerData : list LayerData.t)
         (layers : list FrameLayer.t) : list FrameLayer.t * LoopEnd :=
  match layerData with
  | [] => (layers, Finished)
  | j :: rest =>
      match getImage get (LayerData.image j) with
      | ImageThrows => (layers, Threw)
      | ImageBlocks => (layers, Blocked)
      | HasImage image =>
          match getImage get (LayerData.imageB j) with
          | ImageThrows => (layers, Threw)
          | ImageBlocks => (layers, Blocked)
          | HasImage imageB =>
              frameLayers get rest
                (layers ++ [FrameLayer.mk image imageB (LayerData.transition j)
                                          (LayerData.transitionValue j)])
          end
      end
  end.

(** The loop over [requestsInProgress]: a request all of whose valid
    futures are ready gets its frame (the [catch] keeps the layers
    made before a throw) and is erased; the others stay.  [get] cannot
    block on a ready future; the last case keeps the function total. *)
Fixpoint finishRequests (rs : list Request.t) (p : Private)
  : list Request.t * Private :=
  match rs with
  | [] => ([], p)
  | r :: rest =>
      if requestReady p r then
        match frameLayers (future_get p) (Request.layerData r) [] with
        | (layers, Finished) | (layers, Threw) =>
            finishRequests rest
              (set_value (Request.promise r) (Frame.mk (Request.time r) layers) p)
        | (_, Blocked) =>
            let '(rest', p') := finishRequests rest p in (r :: rest', p')
        end
      else
        let '(rest', p') := finishRequests rest p in (r :: rest', p')
  end.

(** Gather the requests and traverse the timeline for the new ones. *)
Definition promote (p : Private) : Private :=
  let '(requests', newRequests) :=
    gather (requests p) [] (length (requestsInProgress p)) (requestCount p) in
  let ioOptions := ioOptions p in
  traverseAll ioOptions newRequests (set_requests requests' p).

(** Check for finished requests. *)
Definition finish (p : Private) : Private :=
  let '(inProgress, p') := finishRequests (requestsInProgress p) p in
  set_requestsInProgress inProgress p'.

Definition frameRequests (p : Private) : Private :=
  finish (promote p).

(** *** [stopReaders] and [delReaders] *)

(** [getParent<otio::Track>(clip)] *)
Definition getParent (p : Private) (clip : Clip) : option Track :=
  head (omap (λ j, match j with
                   | ATrack t =>
                       if bool_decide (clip_addr clip ∈ addr <$> children t)
                       then Some t else None
                   | OtherChild => None
                   end) (otioTimeline p)).

(** The range a reader is kept for: the clip's range in the root,
    extended by the transitions on both sides, from the global start. *)
Definition readerRange (p : Private) (clip : Clip) : TimeRange :=
  let trimmedRange := trimmed_range clip in
  let clipRange := transformed_time_range clip trimmedRange in
  let startTime := start_time clipRange in
  let endTime := add startTime (otime.duration clipRange) in
  let neighbors :=
    match getParent p clip with
    | Some track => neighbors_of track (clip_addr clip)
    | None => (None, None)
    end in
  let startTime :=
    match neighbors.1 with
    | Some (ATransition transition) => sub startTime (in_offset transition)
    | _ => startTime
    end in
  let endTime :=
    match neighbors.2 with
    | Some (ATransition transition) => add endTime (out_offset transition)
    | _ => endTime
    end in
  range_from_start_end_time (add (globalStartTime p) startTime)
                            (add (globalStartTime p) endTime).

(** The flag [del]: no active range intersects the reader's range. *)
Definition del (p : Private) (clip : Clip) : bool :=
  forallb (λ activeRange, negb (intersects (readerRange p clip) activeRange))
          (activeRanges p).

Definition stops (p : Private) (i : Clip * Reader.t) : bool :=
  del p i.1 && negb (hasVideoFrames (Reader.read i.2)).

(** The loop over the map of readers. *)
Fixpoint stopReaders_loop (entries : list (positive * (Clip * Reader.t)))
         (p : Private) : Private :=
  match entries with
  | [] => p
  | i :: rest =>
      if stops p i.2 then
        let read := Reader.read i.2.2 in
        stopReaders_loop rest
          (set_readers (delete i.1 (readers p))
             (set_stoppedReaders (stoppedReaders p ++ [stop read]) p))
      else stopReaders_loop rest p
  end.

Definition stopReaders (p : Private) : Private :=
  stopReaders_loop (map_to_list (readers p)) p.

Definition delReaders (p : Private) : Private :=
  set_stoppedReaders
    (List.filter (λ i, negb (hasStopped i)) (stoppedReaders p)) p.

(** *** [tick] (the periodic log line is left out) *)

Definition tick (p : Private) : Private :=
  delReaders (stopReaders (frameRequests p)).

(** *** The end of the thread and the destructor *)

(** How the thread function ends: it returns, an exception leaves it
    ([std::terminate]), or it blocks for ever in [get()]. *)
Inductive Exit :=
| Returned (p : Private)
| Terminated (p : Private)
| Hung (p : Private).

(** A blocking [get()]: [eventually] tells what the reader will put in
    a shared state that is not ready yet. *)
Definition await (eventually : nat → GetResult) (p : Private) (id : nat)
  : GetResult :=
  match future_get p id with
  | Blocks => eventually id
  | r => r
  end.

(** The loop over [requestsCleanup]; here nothing catches. *)
Fixpoint cleanupRequests (get : nat → GetResult) (rs : list Request.t)
         (p : Private) : Exit :=
  match rs with
  | [] => Returned p
  | request :: rest =>
      match frameLayers get (Request.layerData request) [] with
      | (layers, Finished) =>
          cleanupRequests get rest
            (set_value (Request.promise request)
                       (Frame.mk (Request.time request) layers) p)
      | (_, Threw) => Terminated p
      | (_, Blocked) => Hung p
      end
  end.

(** The thread function once [running] is false. *)
Definition threadExit (eventually : nat → GetResult) (p : Private) : Exit :=
  let requestsCleanup := requests p ++ requestsInProgress p in
  let p := set_requestsInProgress [] (set_requests [] (set_stopped true p)) in
  cleanupRequests (await eventually p) requestsCleanup p.

(** [Timeline::~Timeline]: clear [running] and join the thread. *)
Definition destroy (eventually : nat → GetResult) (p : Private) : Exit :=
  threadExit eventually (set_running false p).

(** *** Interleavings *)

(** What reader threads do: resolve a queued request, finish stopping. *)
Definition resolve (id : nat) (r : IRead) : IRead :=
  mkIRead (r_path r) (r_info r)
          (List.filter (λ q, negb (bool_decide (rq_future q = id)))
                       (videoFrameRequests r))
          (cancelled r) (stop_called r) (has_stopped r).

Definition readerResolves (id : nat) (s : SharedState VideoFrame) (p : Private)
  : Private :=
  match videoFrames p !! id with
  | Some NotReady =>
      set_videoFrames (<[id := s]> (videoFrames p))
        (set_readers ((λ i, (i.1, Reader.mk (resolve id (Reader.read i.2))
                                            (Reader.info i.2))) <$> readers p)
           (set_stoppedReaders (resolve id <$> stoppedReaders p) p))
  | _ => p
  end.

Definition readerStopped (n : nat) (p : Private) : Private :=
  set_stoppedReaders
    (alter (λ r, if stop_called r
                 then mkIRead (r_path r) (r_info r) (videoFrameRequests r)
                              (cancelled r) true true
                 else r) n (stoppedReaders p)) p.

Inductive Event :=
| GetFrame (time : RationalTime) (videoLayer : nat) (image : Image)
| SetActiveRanges (ranges : list TimeRange)
| CancelFrames
| SetRequestCount (value : nat)
| SetRequestTimeout (value : nat)
| SetIOOptions (value : Options)
| Tick
| ReaderResolves (id : nat) (s : SharedState VideoFrame)
| ReaderStopped (n : nat).

Definition step (p : Private) (e : Event) : Private :=
  match e with
  | GetFrame time videoLayer image => (getFrame time videoLayer image p).2
  | SetActiveRanges ranges => setActiveRanges ranges p
  | CancelFrames => cancelFrames p
  | SetRequestCount value => setRequestCount value p
  | SetRequestTimeout value => setRequestTimeout value p
  | SetIOOptions value => setIOOptions value p
  | Tick => tick p
  | ReaderResolves id s => readerResolves id s p
  | ReaderStopped n => readerStopped n p
  end.

Definition run (p : Private) (es : list Event) : Private :=
  fold_left step es p.

End WithCollaborators.

(** *** [toRanges] *)

(** The [do ... while] loop over the sorted frames: [i] and [j] are the
    first and the last frame of the range being made, [rest] holds the
    frames after [j]. *)
Fixpoint toRanges_loop (i j : RationalTime) (rest : list RationalTime)
  : list TimeRange :=
  match rest with
  | [] => [range_from_start_end_time_inclusive i j]
  | k :: rest' =>
      if Qlt_bool 1 (value (sub k j))
      then range_from_start_end_time_inclusive i j :: toRanges_loop k k rest'
      else toRanges_loop i k rest'
  end.

(** [!(b < a)]: what [std::sort] with [operator <] guarantees of a frame
    [a] that it puts before a frame [b]. *)
Definition sorted_before (a b : RationalTime) : Prop := lt b a = false.

(** [toRanges]; [std::sort] is a merge sort here: the source leaves the
    order of frames that compare equivalent open, and the properties
    below are about frames that are equal when they are equivalent. *)
Definition toRanges (frames : list RationalTime) : list TimeRange :=
  match @merge_sort _ sorted_before (λ a b, decide (lt b a = false)) frames with
  | [] => []
  | i :: rest => toRanges_loop i i rest
  end.

(** *** Comparison of frames *)

Definition Transition_eqb (a b : Transition) : bool :=
  match a, b with
  | Transition_None, Transition_None
  | Transition_Dissolve, Transition_Dissolve => true
  | _, _ => false
  end.

(** [FrameLayer::operator ==]; the images are compared as pointers. *)
Definition FrameLayer_eqb (a b : FrameLayer.t) : bool :=
  bool_decide (FrameLayer.image a = FrameLayer.image b)
  && bool_decide (FrameLayer.imageB a = FrameLayer.imageB b)
  && Transition_eqb (FrameLayer.transition a) (FrameLayer.transition b)
  && Qeq_bool (FrameLayer.transitionValue a) (FrameLayer.transitionValue b).

(** [FrameLayer::operator !=] *)
Definition FrameLayer_neqb (a b : FrameLayer.t) : bool := negb (FrameLayer_eqb a b).

(** [std::vector::operator ==]: the same size and equal elements. *)
Fixpoint layers_eqb (a b : list FrameLayer.t) : bool :=
  match a, b with
  | [], [] => true
  | x :: a', y :: b' => FrameLayer_eqb x y && layers_eqb a' b'
  | _, _ => false
  end.

(** [Frame::operator ==] *)
Definition Frame_eqb (a b : Frame.t) : bool :=
  equal (Frame.time a) (Frame.time b) && layers_eqb (Frame.layers a) (Frame.layers b).

(** [Frame::operator !=] *)
Definition Frame_neqb (a b : Frame.t) : bool := negb (Frame_eqb a b).

Section Information.

Context `{System}.

(** What [getVideoInfo] gives: [true] with the information written to
    [videoInfo], [false], or the exception of the reader. *)
Inductive VideoInfo :=
| HasVideoInfo (videoInfo : list nat)
| NoVideoInfo
| VideoInfoThrows.

(** [Private::getVideoInfo] *)
Fixpoint getVideoInfo (p : Private) (composable : Node) : VideoInfo :=
  match composable with
  | NClip clip =>
      if context p then
        let options :=
          <["SequenceIO/DefaultSpeed" :=
              format_double (rate (otime.duration (trimmed_range clip)))]>
            (ioOptions p) in
        match read (getPath p (media_reference clip)) options with
        | ReadOpened r =>
            if negb (bool_decide (video (r_info r) = []))
            then HasVideoInfo (video (r_info r))
            else NoVideoInfo
        | ReadNull => NoVideoInfo
        | ReadThrows => VideoInfoThrows
        end
      else NoVideoInfo
  | NComposition children =>
      (fix loop (children : list Node) : VideoInfo :=
         match children with
         | [] => NoVideoInfo
         | child :: rest =>
             match getVideoInfo p child with
             | NoVideoInfo => loop rest
             | out => out
             end
         end) children
  | NOther => NoVideoInfo
  end.

End Information.

End timeline.

(** ** tl::io : options of the readers and writers (IO.cpp) *)

Module io.

(** [out.insert(first, last)] of [std::map]: the elements are inserted
    in turn, each one unless the map already holds its key. *)
Definition insert_range (out : gmap string string) (elements : list (string * string))
  : gmap string string :=
  fold_left (λ out i, match out !! i.1 with
                      | Some _ => out
                      | None => <[i.1 := i.2]> out
                      end)
            elements out.

(** [merge(a, b)] *)
Definition merge (a b : gmap string string) : gmap string string :=
  let out := a in
  insert_range out (map_to_list b).

End io.

(** ** tl::ffmpeg : reading from a buffer in memory (FFmpegRead.cpp) *)

Module ffmpeg.

Local Open Scope Z_scope.

(** [AVSEEK_SIZE] and [AVERROR_EOF] (libavformat, libavutil) *)
Definition AVSEEK_SIZE : Z := 0x10000.
Definition AVERROR_EOF : Z := -541478725.

(** Conversions to [size_t] (64 bits), [int64_t] and [int]. *)
Definition to_size_t (z : Z) : Z := z mod 2 ^ 64.
Definition to_int64_t (z : Z) : Z := (z + 2 ^ 63) mod 2 ^ 64 - 2 ^ 63.
Definition to_int (z : Z) : Z := (z + 2 ^ 31) mod 2 ^ 32 - 2 ^ 31.

(** [math::clamp], declared in tlCore/Math.h (not among the sources) as
    [std::min(std::max(value, min), max)]. *)
Definition clamp (value min max : Z) : Z := Z.min (Z.max value min) max.

(** [struct AVIOBufferData], declared in FFmpegReadPrivate.h (not among
    the sources): the memory [p] points to, and the [size_t] members
    [size] and [offset]. *)
Record AVIOBufferData := mkAVIOBufferData {
  p : list Byte.byte;
  size : Z;
  offset : Z }.

(** [AVIOBufferData(p, size)] *)
Definition create (p : list Byte.byte) (size : Z) : AVIOBufferData :=
  mkAVIOBufferData p size 0.

(** What a call leaves: the value returned, the bytes copied to [buf],
    the buffer data; [None] when [memcpy] is asked for bytes outside the
    memory, which is undefined. *)
Definition avIOBufferRead (bufferData : AVIOBufferData) (bufSize : Z)
  : option (Z * list Byte.byte * AVIOBufferData) :=
  let remaining := to_int64_t (to_size_t (size bufferData - offset bufferData)) in
  let bufSizeClamped := to_int (clamp bufSize 0 remaining) in
  if bufSizeClamped =? 0 then Some (AVERROR_EOF, [], bufferData)
  else if (0 <? bufSizeClamped)
          && (offset bufferData + bufSizeClamped <=? Z.of_nat (length (p bufferData)))
  then
    Some (bufSizeClamped,
          take (Z.to_nat bufSizeClamped) (drop (Z.to_nat (offset bufferData)) (p bufferData)),
          mkAVIOBufferData (p bufferData) (size bufferData)
                           (to_size_t (offset bufferData + bufSizeClamped)))
  else None.

Definition avIOBufferSeek (bufferData : AVIOBufferData) (offset whence : Z)
  : Z * AVIOBufferData :=
  if negb (Z.land whence AVSEEK_SIZE =? 0)
  then (to_int64_t (size bufferData), bufferData)
  else (offset,
        mkAVIOBufferData (p bufferData) (size bufferData)
                         (to_size_t (clamp offset 0 (to_int64_t (size bufferData))))).

End ffmpeg.

(** ** tlr::cineon : the text fields of the header (Cineon.cpp)

    A [char] is the value of its byte, 0 to 255.  With a signed [char]
    the bytes above 127 are negative, hence below [_minChar]; with an
    unsigned one they are above [_maxChar]: [isValid] rejects them
    either way. *)

Module cineon.

Local Open Scope N_scope.

Definition _minChar : N := 32.
Definition _maxChar : N := 126.

(** The loop of [isValid]: [p] is the memory from the current character
    on, [n] the distance to [end]; [false] when the loop returns.  The
    source tests [*p] before [p < end], so at [end] it reads the
    character after the field; the loop stops there whatever was read. *)
Fixpoint isValid_loop (p : list N) (n : nat) : bool :=
  match p, n with
  | c :: p', S n' =>
      if c =? 0 then true
      else if (c <? _minChar) || (_maxChar <? c) then false
      else isValid_loop p' n'
  | _, _ => true
  end.

(** [isValid(const char*, size_t)] *)
Definition isValid (in_ : list N) (size : nat) : bool :=
  if isValid_loop in_ size
  then match size with
       | O => false
       | S _ => negb (hd 0 in_ =? 0)
       end
  else false.

(** [toString]: the characters before the first null, [size] at most. *)
Fixpoint toString (in_ : list N) (size : nat) : list N :=
  match in_, size with
  | c :: p', S n' => if c =? 0 then [] else c :: toString p' n'
  | _, _ => []
  end.

(** The copying loop of [fromString], from index [i]. *)
Fixpoint fromString_loop (c : list N) (out : list N) (i : nat) (length : nat)
         {struct length} : list N :=
  match length, c with
  | S length', x :: c' => fromString_loop c' (<[i := x]> out) (S i) length'
  | _, _ => out
  end.

(** [fromString]: the number of characters written and the buffer.
    [maxLen - static_cast<int>(terminate)] is computed in [size_t]. *)
Definition fromString (string : list N) (out : list N) (maxLen : N) (terminate : bool)
  : N * list N :=
  let length :=
    N.min (N.of_nat (List.length string))
          ((maxLen + 2 ^ 64 - (if terminate then 1 else 0)) mod 2 ^ 64) in
  let out := fromString_loop string out 0 (N.to_nat length) in
  if terminate
  then (length + 1, <[N.to_nat length := 0]> out)
  else (length, out).

End cineon.

(** ** tl::ui : the requests of the thumbnail generator (ThumbnailSystem.cpp) *)

Module ui.

(** [ids.erase(id)] at the iterator that [std::find] returned: the first
    occurrence goes. *)
Fixpoint erase (id : N) (ids : list N) : list N :=
  match ids with
  | [] => []
  | x :: ids' => if decide (x = id) then ids' else x :: erase id ids'
  end.

(** A queued request: its identifier and the rest of it. *)
Record Request (A : Type) := mkRequest { id : N; body : A }.
Arguments mkRequest {A} id body.
Arguments id {A} r.
Arguments body {A} r.

(** One of the three loops of [cancelRequests], over the list of one
    kind of requests: a request whose identifier is found in [ids] is
    erased, and the identifier with it. *)
Fixpoint cancelRequests_loop {A : Type} (requests : list (Request A)) (ids : list N)
  : list (Request A) * list N :=
  match requests with
  | [] => ([], ids)
  | request :: rest =>
      if bool_decide (id request ∈ ids)
      then cancelRequests_loop rest (erase (id request) ids)
      else
        let '(rest', ids') := cancelRequests_loop rest ids in
        (request :: rest', ids')
  end.

(** [struct Mutex] without the mutex itself; the bodies of the requests
    are left abstract. *)
Record Mutex (I T W : Type) := mkMutex {
  infoRequests : list (Request I);
  thumbnailRequests : list (Request T);
  waveformRequests : list (Request W);
  stopped : bool }.
Arguments mkMutex {I T W} infoRequests thumbnailRequests waveformRequests stopped.
Arguments infoRequests {I T W} m.
Arguments thumbnailRequests {I T W} m.
Arguments waveformRequests {I T W} m.
Arguments stopped {I T W} m.

(** [ThumbnailGenerator::cancelRequests] *)
Definition cancelRequests {I T W : Type} (m : Mutex I T W) (ids : list N)
  : Mutex I T W :=
  let '(infoRequests', ids) := cancelRequests_loop (infoRequests m) ids in
  let '(thumbnailRequests', ids) := cancelRequests_loop (thumbnailRequests m) ids in
  let '(waveformRequests', ids) := cancelRequests_loop (waveformRequests m) ids in
  mkMutex infoRequests' thumbnailRequests' waveformRequests' (stopped m).

End ui.

(** ** tlr::qwidget : the speed label (SpeedLabel.cpp) *)

Module qwidget.

Import otime.

(** [struct SpeedLabel::Private]: the value and the text of the label. *)
Record SpeedLabel := mkSpeedLabel {
  value : RationalTime;
  text : string }.

Section Text.

(** [QString("%1").arg(rate, 0, 'f', 2)] *)
Variable arg : Q → string.

(** [operator !=] of [RationalTime] is the negation of [operator ==]. *)
Definition _textUpdate (p : SpeedLabel) : SpeedLabel :=
  mkSpeedLabel (value p)
               (if negb (equal (value p) invalidTime)
                then arg (rate (value p))
                else EmptyString).

(** The constructor: the default members, then [_textUpdate]. *)
Definition create : SpeedLabel := _textUpdate (mkSpeedLabel invalidTime EmptyString).

Definition setValue (value' : RationalTime) (p : SpeedLabel) : SpeedLabel :=
  if Qeq_bool (otime.value value') (otime.value (value p))
     && Qeq_bool (rate value') (rate (value p))
  then p
  else _textUpdate (mkSpeedLabel value' (text p)).

End Text.

End qwidget.

(** ** A flat composition and a trivial I/O system, for the examples

    Tracks without source range, directly under the stack: a child starts
    where the items before it end. *)

Module flat.

Import otime otio avio.

Definition item_duration (k : Composable) : option RationalTime :=
  match k with
  | AClip c => Some (duration (trimmed_range c))
  | AnItem _ d => Some d
  | ATransition _ => None
  end.

(** [Track::range_of_child] for an item. *)
Fixpoint range_of_child (ks : list Composable) (start : RationalTime)
         (a : positive) : option TimeRange :=
  match ks with
  | [] => None
  | k :: ks' =>
      match item_duration k with
      | Some d =>
          if decide (addr k = a) then Some (mkRange start d)
          else range_of_child ks' (add start d) a
      | None => range_of_child ks' start a
      end
  end.

Definition range_in_track (t : Track) (a : positive) : option TimeRange :=
  match children t with
  | [] => None
  | k :: _ =>
      let r := match item_duration k with Some d => rate d | None => 1%Q end in
      range_of_child (children t) (mkTime 0 r) a
  end.

Definition parent (tracks : list StackChild) (a : positive) : option Track :=
  head (omap (λ j, match j with
                   | ATrack t =>
                       if bool_decide (a ∈ addr <$> children t) then Some t else None
                   | OtherChild => None
                   end) tracks).

Definition layout (tracks : list StackChild) : Layout := {|
  trimmed_range_in_parent t k := range_in_track t (addr k);
  transformed_time t time c :=
    match range_in_track t (clip_addr c) with
    | Some r => add (sub time (start_time r)) (start_time (trimmed_range c))
    | None => time
    end;
  transformed_time_range c range :=
    match parent tracks (clip_addr c) with
    | Some t =>
        match range_in_track t (clip_addr c) with
        | Some r =>
            mkRange (add (sub (start_time range) (start_time (trimmed_range c)))
                         (start_time r))
                    (duration range)
        | None => range
        end
    | None => range
    end |}.

(** Every path opens; the media has one video stream, 1000 frames at
    rate 24. *)
Definition system : System := {|
  read path options :=
    ReadOpened (mkIRead path (mkInfo [0] (mkRange (mkTime 0 24) (mkTime 1000 24)))
                        [] 0 false false);
  format_double d := "24";
  isAbsolute value := String.prefix "/" value |}.

End flat.

(** ** Example inputs *)

Module examples.

Import otime otio avio timeline.

Definition t24 (n : Z) : RationalTime := mkTime (inject_Z n) 24.

(** Two clips of 48 frames joined by a dissolve with offsets 6 and 6. *)
Definition clipA : Clip :=
  mkClip 1 (mkRange (t24 0) (t24 48)) [] (ExternalReference "a.mov").
Definition clipB : Clip :=
  mkClip 3 (mkRange (t24 0) (t24 48)) [] (ExternalReference "b.mov").
Definition dissolve : otio.Transition :=
  mkTransition 2 SMPTE_Dissolve (t24 6) (t24 6).
Definition track : Track :=
  mkTrack 10 Kind_video [AClip clipA; ATransition dissolve; AClip clipB].
Definition tracks : list StackChild := [ATrack track].

(** The timeline just created: global start 0, duration 96 frames. *)
Definition created : Private := init true "/dir/" tracks (t24 96) (t24 0).

(** One request for frame 10, still pending. *)
Definition pending10 : Private := (getFrame (t24 10) 0 None created).2.

(** The timeline after its thread has ended. *)
Definition ended : Private := set_stopped true (set_running false created).

Definition layout : Layout := flat.layout tracks.
Definition system : System := flat.system.

(** After one tick the request is in progress and the reader of clip A
    is open, with the read of media frame 10 queued. *)
Definition opened : Private := @tick layout system pending10.

Definition mediaInfo : Info := mkInfo [0] (mkRange (t24 0) (t24 1000)).

Definition readerA : Reader.t :=
  Reader.mk (mkIRead "/dir/a.mov" mediaInfo [mkReadRequest 0 (t24 10) 0 None]
                     0 false false)
            mediaInfo.

(** Twenty requests in a row, a tick, a larger budget, a tick. *)
Definition burst : list Event :=
  replicate 20 (GetFrame (t24 10) 0 None) ++ [Tick; SetRequestCount 32; Tick].



(** Two video tracks, one clip on each: a request has two layers. *)
Definition clipC : Clip :=
  mkClip 5 (mkRange (t24 0) (t24 48)) [] (ExternalReference "c.mov").
Definition lower : Track := mkTrack 11 Kind_video [AClip clipA].
Definition upper : Track := mkTrack 12 Kind_video [AClip clipC].
Definition stacked : list StackChild := [ATrack lower; ATrack upper].
Definition layout2 : Layout := flat.layout stacked.

(** One request in progress; its two reads are queued. *)
Definition two_layers : Private :=
  @run layout2 system (init true "/dir/" stacked (t24 48) (t24 0))
       [GetFrame (t24 10) 0 None; Tick].

Definition request2 : Request.t :=
  Request.mk (t24 10) 0 None 0
             [LayerData.mk (Some 0) None Transition_None 0;
              LayerData.mk (Some 1) None Transition_None 0].

(** The reader of the lower clip delivers image 7; the reader of the
    upper clip puts an exception in the shared state. *)
Definition one_failed : Private :=
  @run layout2 system two_layers
       [ReaderResolves 0 (Value (mkVideoFrame (t24 10) (Some 7)));
        ReaderResolves 1 Exception].

(** Both readers deliver. *)
Definition both_done : Private :=
  @run layout2 system two_layers
       [ReaderResolves 0 (Value (mkVideoFrame (t24 10) (Some 7)));
        ReaderResolves 1 (Value (mkVideoFrame (t24 10) (Some 8)))].

(** The state in which the thread function is left when it is entered
    from [one_failed]: stopped, both lists moved to the local list. *)
Definition shut : Private :=
  set_requestsInProgress [] (set_requests [] (set_stopped true (set_running false one_failed))).

(** A request for frame 44, inside the dissolve on the side of clip A,
    and the layer that the walker makes for clip A. *)
Definition request44 : Request.t := Request.mk (t24 44) 0 None 0 [].

Definition layer44 : Result (option LayerData.t) :=
  @itemLayer layout system request44 ∅ track (AClip clipA) created.

Definition data44 : LayerData.t :=
  match layer44 with Ok (Some data) _ => data | _ => LayerData.default end.

Definition state44 : Private :=
  match layer44 with Ok _ p | Throw p => p end.

Definition rangeA : TimeRange := mkRange (t24 0) (t24 48).

(** A clip of 8 frames between two dissolves that each reach 6 frames
    into it: at frame 51 both transitions apply to the clip. *)
Definition clipM : Clip :=
  mkClip 4 (mkRange (t24 0) (t24 8)) [] (ExternalReference "m.mov").
Definition dissolve2 : otio.Transition :=
  mkTransition 6 SMPTE_Dissolve (t24 6) (t24 6).
Definition crowded : Track :=
  mkTrack 13 Kind_video
          [AClip clipA; ATransition dissolve; AClip clipM; ATransition dissolve2;
           AClip clipB].
Definition layout3 : Layout := flat.layout [ATrack crowded].
Definition rangeM : TimeRange := mkRange (t24 48) (t24 8).
Definition request51 : Request.t := Request.mk (t24 51) 0 None 0 [].

Definition layer51 : Result (option LayerData.t) :=
  @itemLayer layout3 system request51 ∅ crowded (AClip clipM)
             (init true "/dir/" [ATrack crowded] (t24 104) (t24 0)).

Definition data51 : LayerData.t :=
  match layer51 with Ok (Some data) _ => data | _ => LayerData.default end.

Definition state51 : Private :=
  match layer51 with Ok _ p | Throw p => p end.

(** A request for frame 88 at rate 48 (the instant of frame 44 at rate
    24) on the track at rate 24, and the layer made for clip A. *)
Definition request88 : Request.t := Request.mk (mkTime 88 48) 0 None 0 [].

Definition layer88 : Result (option LayerData.t) :=
  @itemLayer layout system request88 ∅ track (AClip clipA) created.

Definition state88 : Private :=
  match layer88 with Ok _ p | Throw p => p end.

(** A request for frame 41, the inclusive end of clip A less the
    in-offset of the dissolve. *)
Definition request41 : Request.t := Request.mk (t24 41) 0 None 0 [].

Definition layer41 : Result (option LayerData.t) :=
  @itemLayer layout system request41 ∅ track (AClip clipA) created.

Definition data41 : LayerData.t :=
  match layer41 with Ok (Some data) _ => data | _ => LayerData.default end.

Definition state41 : Private :=
  match layer41 with Ok _ p | Throw p => p end.

(** The read of frame 10 of clip A on the timeline just created. *)
Definition read10 : Result Future :=
  @readVideoFrame layout system track clipA (t24 10) 0 ∅ None created.

Definition state10 : Private :=
  match read10 with Ok _ p | Throw p => p end.




(** The request for frame 10 that [pending10] holds. *)
Definition request10 : Request.t := Request.mk (t24 10) 0 None 0 [].

(** An I/O system for which no media opens. *)
Definition nothing : System := {|
  read path options := ReadNull;
  format_double d := "24";
  isAbsolute value := String.prefix "/" value |}.

(** The range of clip B in the track, and the two sides of the dissolve:
    frame 44 of the track in clip A, frame 50 in clip B. *)
Definition rangeB : TimeRange := mkRange (t24 48) (t24 48).

Definition out44 : Result LayerData.t :=
  @transitionOut layout system request44 ∅ track (Some (ATransition dissolve))
                 rangeA (t24 44) LayerData.default created.

Definition in50 : Result LayerData.t :=
  @transitionIn layout system request44 ∅ track (Some (ATransition dissolve))
                rangeB (t24 50) LayerData.default created.

(** The layer data and the state that a step of the traversal leaves. *)
Definition data_of (r : Result LayerData.t) : LayerData.t :=
  match r with Ok data _ => data | Throw _ => LayerData.default end.

Definition state_after (r : Result LayerData.t) : Private :=
  match r with Ok _ p | Throw p => p end.

(** Frames 3, 1, 2 and 7 at rate 24, and the two ranges made of them. *)
Definition scattered : list RationalTime :=
  (λ n, mkTime (inject_Z n) 24) <$> [3; 1; 2; 7]%Z.

Definition range_1_3 : TimeRange :=
  range_from_start_end_time_inclusive (t24 1) (t24 3).
Definition range_7_7 : TimeRange :=
  range_from_start_end_time_inclusive (t24 7) (t24 7).

(** The same instant at two rates. *)
Definition frame_1_24 : Frame.t := Frame.mk (mkTime 1 24) [].
Definition frame_2_48 : Frame.t := Frame.mk (mkTime 2 48) [].

(** Five bytes in memory, read from the start. *)
Definition five : ffmpeg.AVIOBufferData :=
  ffmpeg.create [Byte.x01; Byte.x02; Byte.x03; Byte.x04; Byte.x05] 5.

(** The text [Hi]. *)
Definition hi : list N := [72; 105]%N.

(** Two requests for information, one for a thumbnail and one for a
    waveform in the queues. *)
Definition queues : ui.Mutex unit unit unit :=
  ui.mkMutex [ui.mkRequest 1%N (); ui.mkRequest 2%N ()] [ui.mkRequest 3%N ()]
             [ui.mkRequest 4%N ()] false.

End examples.

(** ** Notions used to state the properties *)

Module spec.

Import otime otio avio timeline.

(** The members of [Private] that neither a traversal nor the registry
    of readers touches. *)
Definition settings (p : Private) :=
  (context p, path p, otioTimeline p, duration p, globalStartTime p,
   activeRanges p, requests p, requestCount p, requestTimeout p, ioOptions p,
   stopped p, running p, frames p, nextFrame p).

(** [p'] differs from [p] at most in the readers and in the store of
    the reader futures. *)
Definition reads_only (p p' : Private) : Prop :=
  settings p' = settings p
  ∧ requestsInProgress p' = requestsInProgress p
  ∧ stoppedReaders p' = stoppedReaders p.

Definition state_of {A : Type} (r : Result A) : Private :=
  match r with Ok _ p | Throw p => p end.

(** [p'] differs from [p] at most in the requests in progress, the
    readers and the store of the reader futures. *)
Definition traversal (p p' : Private) : Prop :=
  settings p' = settings p ∧ stoppedReaders p' = stoppedReaders p.

(** [p'] differs from [p] at most in the readers and the stopped readers. *)
Definition registry_only (p p' : Private) : Prop :=
  settings p' = settings p
  ∧ requestsInProgress p' = requestsInProgress p
  ∧ videoFrames p' = videoFrames p
  ∧ nextVideoFrame p' = nextVideoFrame p.


(** The frame that [finishRequests] gives to a request that is ready. *)
Definition frameOf (p : Private) (r : Request.t) : Frame.t :=
  Frame.mk (Request.time r)
           (frameLayers (future_get p) (Request.layerData r) []).1.

(** The effective range of a clip, in the words of the specification:
    the range of the clip extended by the handles of the transitions on
    both sides, translated into the global time domain. *)
Definition effectiveRange (globalStart : RationalTime) (clipRange : TimeRange)
           (left right : option Composable) : TimeRange :=
  let handleIn :=
    match left with Some (ATransition t) => Some (in_offset t) | _ => None end in
  let handleOut :=
    match right with Some (ATransition t) => Some (out_offset t) | _ => None end in
  let first := start_time clipRange in
  let last := add first (otime.duration clipRange) in
  let first := match handleIn with Some h => sub first h | None => first end in
  let last := match handleOut with Some h => add last h | None => last end in
  range_from_start_end_time (add globalStart first) (add globalStart last).

(** The image that a layer future contributes when [get()] returns. *)
Definition imageOf (get : nat → GetResult) (f : Future) : Image :=
  match getImage get f with
  | HasImage image => image
  | _ => None
  end.

(** The complete layer of the frame for one [LayerData]. *)
Definition layerOf (get : nat → GetResult) (j : LayerData.t) : FrameLayer.t :=
  FrameLayer.mk (imageOf get (LayerData.image j)) (imageOf get (LayerData.imageB j))
                (LayerData.transition j) (LayerData.transitionValue j).

(** A future that is not valid, or whose [get()] returns a value. *)
Definition holds_value (get : nat → GetResult) (f : Future) : Prop :=
  match f with
  | Some id => ∃ frame, get id = Got frame
  | None => True
  end.

(** [get()] returns a value for every valid layer future of the request:
    none holds an exception, none blocks. *)
Definition all_values (get : nat → GetResult) (r : Request.t) : Prop :=
  ∀ j, j ∈ Request.layerData r →
       holds_value get (LayerData.image j) ∧ holds_value get (LayerData.imageB j).

(** A time of [n] whole frames at the whole rate [r]. *)
Definition whole (t : RationalTime) (n r : Z) : Prop :=
  (value t == inject_Z n)%Q ∧ rate t = inject_Z r.




(** The rates of the examples, and the agreement of the arithmetic of
    [double] with the exact one on whole frames: the floor of a rescaled
    time, and the comparison of two times. *)
Definition wholeRates : list Z := [24; 25; 30; 48; 50; 60]%Z.

Definition floor_agrees (v r m : Z) : bool :=
  match binary64.floor
          (binary64.value_rescaled_to (binary64.of_Z v) (binary64.of_Z r)
                                      (binary64.of_Z m)) with
  | Some z => (z =? (v * m) `div` r)%Z
  | None => false
  end.

Definition equal_agrees (va ra vb rb : Z) : bool :=
  Bool.eqb (binary64.equal (binary64.of_Z va) (binary64.of_Z ra)
                           (binary64.of_Z vb) (binary64.of_Z rb))
           (va * rb =? vb * ra)%Z.

(** The phase (t - a)/(b - a) of the specification, of three times. *)
Definition phase (t a b : RationalTime) : Q :=
  ((to_seconds t - to_seconds a) / (to_seconds b - to_seconds a))%Q.

(** One frame at the rate [r]. *)
Definition oneFrame (r : Q) : RationalTime := mkTime 1 r.

(** The read whose future is [id] is queued at an open reader. *)
Definition queued (p : Private) (id : nat) : Prop :=
  ∃ a clip reader,
    readers p !! a = Some (clip, reader)
    ∧ id ∈ rq_future <$> videoFrameRequests (Reader.read reader).

(** From [p] to [p'] reads were only added: what was queued stays
    queued, and every future made in between is queued. *)
Definition dispatching (p p' : Private) : Prop :=
  nextVideoFrame p ≤ nextVideoFrame p'
  ∧ (∀ id, queued p id → queued p' id)
  ∧ (∀ id, nextVideoFrame p ≤ id < nextVideoFrame p' → queued p' id).

(** The request holds the future [id] in one of its layers. *)
Definition uses (r : Request.t) (id : nat) : Prop :=
  ∃ j, j ∈ Request.layerData r
       ∧ (LayerData.image j = Some id ∨ LayerData.imageB j = Some id).

(** The futures of a layer were made from [lo] on and before [p]. *)
Definition bounded (lo : nat) (p : Private) (d : LayerData.t) : Prop :=
  ∀ id, LayerData.image d = Some id ∨ LayerData.imageB d = Some id →
        lo ≤ id < nextVideoFrame p.

(** What was asked with a request and the promise given for it. *)
Definition asked (r : Request.t) :=
  (Request.time r, Request.videoLayer r, Request.image r, Request.promise r).

(** The number of requests that a tick moves from the pending list: the
    places left under [requestCount], as far as there are requests. *)
Definition promotions (p : Private) : nat :=
  length (requests p) `min` (requestCount p - length (requestsInProgress p)).

(** The members that the public setters write, and those fixed at
    creation. *)
Definition configuration (p : Private) :=
  (context p, path p, otioTimeline p, duration p, globalStartTime p,
   activeRanges p, requestCount p, requestTimeout p, ioOptions p,
   stopped p, running p).

(** From [p] to [p'] futures of readers were only made: the shared
    states of the futures made before are those of [p]. *)
Definition reading (p p' : Private) : Prop :=
  nextVideoFrame p ≤ nextVideoFrame p'
  ∧ ∀ id, id < nextVideoFrame p → videoFrames p' !! id = videoFrames p !! id.

(** A range of whole frames at the rate [r]. *)
Definition framed (r : Q) (range : TimeRange) : Prop :=
  rate (start_time range) = r ∧ rate (otime.duration range) = r
  ∧ ∃ n : Z, (1 ≤ n)%Z ∧ (value (otime.duration range) == inject_Z n)%Q.

(** A transition whose offsets are at the rate [r] and not negative. *)
Definition handles (r : Q) (tr : otio.Transition) : Prop :=
  rate (in_offset tr) = r ∧ rate (out_offset tr) = r
  ∧ (0 <= value (in_offset tr))%Q ∧ (0 <= value (out_offset tr))%Q.

(** A transition whose offsets are whole frames at the rate [r], not
    negative, and no longer together than the 24 bits of the mantissa
    of the [float] that stores the phase. *)
Definition whole_handles (r : Z) (tr : otio.Transition) (i o : Z) : Prop :=
  whole (in_offset tr) i r ∧ whole (out_offset tr) o r
  ∧ (0 ≤ i)%Z ∧ (0 ≤ o)%Z ∧ (i + o + 1 ≤ 2 ^ 24)%Z.

(** An item of a track whose range in the track contains the time: the
    traversal makes a layer for it. *)
Definition shown `{Layout} (track : Track) (k : Composable) (time : RationalTime)
  : bool :=
  match k with
  | ATransition _ => false
  | _ =>
      match trimmed_range_in_parent track k with
      | Some range => contains range time
      | None => false
      end
  end.

(** The items shown at a time, track by track from the first child of
    the stack, each track from its first child. *)
Definition itemsAt `{Layout} (tracks : list StackChild) (time : RationalTime)
  : list (Track * Composable) :=
  tracks ≫= λ j,
    match j with
    | ATrack track =>
        if decide (Kind_video = kind track)
        then (λ k, (track, k))
               <$> List.filter (λ k, shown track k time) (children track)
        else []
    | OtherChild => []
    end.

(** The layers of the items of a list in turn, each made by the body of
    the loop on the state that the item before it left; an exception
    ends the visit and keeps the layers made so far. *)
Fixpoint itemLayers `{Layout} `{System} (request : Request.t) (ioOptions : Options)
         (items : list (Track * Composable)) (layerData : list LayerData.t)
         (p : Private) : list LayerData.t * bool * Private :=
  match items with
  | [] => (layerData, false, p)
  | item :: rest =>
      match itemLayer request ioOptions item.1 item.2 p with
      | Throw p' => (layerData, true, p')
      | Ok None p' => itemLayers request ioOptions rest layerData p'
      | Ok (Some data) p' =>
          itemLayers request ioOptions rest (layerData ++ [data]) p'
      end
  end.

(** A layer without futures. *)
Definition blank (d : LayerData.t) : Prop :=
  LayerData.image d = None ∧ LayerData.imageB d = None.

(** No media opens with video. *)
Definition offline `{System} (p : Private) : Prop :=
  context p = false
  ∨ ∀ path options,
      match read path options with
      | ReadNull => True
      | ReadOpened r => video (r_info r) = []
      | ReadThrows => False
      end.

(** Frame [n] at the rate [r]. *)
Definition frameAt (r : Q) (n : Z) : RationalTime := mkTime (inject_Z n) r.

(** The runs of a sorted list of frame numbers: [i] and [j] are the
    ends of the run being made; a number that exceeds the last one by
    more than one starts a new run. *)
Fixpoint runs (i j : Z) (rest : list Z) : list (Z * Z) :=
  match rest with
  | [] => [(i, j)]
  | k :: rest' =>
      if bool_decide (1 < k - j)%Z then (i, j) :: runs k k rest'
      else runs i k rest'
  end.

(** Layers with the same images, the same kind of transition and the
    same phase. *)
Definition same_layer (a b : FrameLayer.t) : Prop :=
  FrameLayer.image a = FrameLayer.image b
  ∧ FrameLayer.imageB a = FrameLayer.imageB b
  ∧ FrameLayer.transition a = FrameLayer.transition b
  ∧ (FrameLayer.transitionValue a == FrameLayer.transitionValue b)%Q.

(** The clips of a tree, depth first, children from the first. *)
Fixpoint clips (n : Node) : list Clip :=
  match n with
  | NClip clip => [clip]
  | NComposition children => children ≫= clips
  | NOther => []
  end.

(** The first result that is not [NoVideoInfo]. *)
Fixpoint firstVideoInfo (f : Clip → VideoInfo) (l : list Clip) : VideoInfo :=
  match l with
  | [] => NoVideoInfo
  | clip :: rest =>
      match f clip with
      | NoVideoInfo => firstVideoInfo f rest
      | out => out
      end
  end.

(** A buffer over [size] bytes of memory, of a size that [int64_t]
    holds, with its position inside. *)
Definition inside (b : ffmpeg.AVIOBufferData) : Prop :=
  (ffmpeg.size b = Z.of_nat (length (ffmpeg.p b))
   ∧ 0 ≤ ffmpeg.offset b ≤ ffmpeg.size b
   ∧ ffmpeg.size b < 2 ^ 63)%Z.

(** A printable character of ASCII. *)
Definition printable (c : N) : Prop := (32 ≤ c ≤ 126)%N.

(** The identifiers of all the queued requests. *)
Definition queuedIds {I T W : Type} (m : ui.Mutex I T W) : list N :=
  (ui.id <$> ui.infoRequests m) ++ (ui.id <$> ui.thumbnailRequests m)
  ++ (ui.id <$> ui.waveformRequests m).

End spec.

(** ** Properties *)

Module properties.

Import otime otio avio timeline spec.

Ltac unsets :=
  cbn [set_value set_activeRanges set_requests set_requestsInProgress
       set_requestCount set_requestTimeout set_ioOptions set_readers
       set_stoppedReaders set_stopped set_running set_videoFrames
       set_nextVideoFrame set_frames set_nextFrame
       context path otioTimeline duration globalStartTime activeRanges requests
       requestsInProgress requestCount requestTimeout ioOptions readers
       stoppedReaders stopped running videoFrames nextVideoFrame frames
       nextFrame] in *.

Ltac records :=
  unfold reads_only, registry_only, traversal, settings in *; unsets;
  repeat match goal with H : _ ∧ _ |- _ => destruct H end;
  simplify_eq; repeat split; try done; try congruence.

(** *** The public calls *)

Lemma abandon_lookup (k id : nat) (m : gmap nat (SharedState Frame.t)) :
  abandon k m !! id =
    if decide (k = id)
    then match m !! id with Some NotReady => Some Exception | o => o end
    else m !! id.
Proof.
  unfold abandon. destruct (decide (k = id)) as [->|Hne].
  - destruct (m !! id) as [[]|] eqn:E; rewrite ?E; try done.
    by rewrite lookup_insert_eq.
  - destruct (m !! k) as [[]|]; try done. by rewrite lookup_insert_ne.
Qed.

Lemma abandon_all_lookup (rs : list Request.t) (m : gmap nat (SharedState Frame.t))
      (id : nat) :
  m !! id = Some NotReady →
  foldr (λ r m, abandon (Request.promise r) m) m rs !! id =
    Some (if bool_decide (id ∈ Request.promise <$> rs) then Exception else NotReady).
Proof.
  intros Hm. induction rs as [|r rs IH]; cbn [foldr].
  - rewrite bool_decide_eq_false_2; [done|]. by intros ?%elem_of_nil.
  - rewrite abandon_lookup, IH, fmap_cons.
    destruct (decide (Request.promise r = id)) as [->|Hne].
    + rewrite (bool_decide_eq_true_2 (_ ∈ _ :: _)) by constructor.
      by destruct (bool_decide _).
    + destruct (bool_decide (id ∈ Request.promise <$> rs)) eqn:E.
      * apply bool_decide_eq_true_1 in E.
        rewrite bool_decide_eq_true_2; [done|]. by constructor.
      * apply bool_decide_eq_false_1 in E.
        rewrite bool_decide_eq_false_2; [done|].
        intros [?|?]%elem_of_cons; congruence.
Qed.

(** C10. A call of [getFrame] after the thread has set [stopped]
    returns a future that is already resolved with a default
    constructed frame: no layers, the invalid time whatever time was
    asked, and neither queue changes. *)
Theorem getFrame_after_stop (p : Private) (time : RationalTime)
        (videoLayer : nat) (image : Image) :
  stopped p = true →
  let out := getFrame time videoLayer image p in
  frames out.2 !! out.1 = Some (Value Frame.default)
  ∧ Frame.layers Frame.default = []
  ∧ Frame.time Frame.default = invalidTime
  ∧ requests out.2 = requests p
  ∧ requestsInProgress out.2 = requestsInProgress p.
Proof.
  intros Hs. unfold getFrame. unsets. rewrite Hs. simpl.
  unsets. rewrite lookup_insert_eq. done.
Qed.

Lemma getFrame_after_stop_witness :
  let out := getFrame (examples.t24 10) 0 None examples.ended in
  frames out.2 !! out.1 = Some (Value Frame.default)
  ∧ Frame.layers Frame.default = []
  ∧ Frame.time Frame.default = invalidTime
  ∧ requests out.2 = requests examples.ended
  ∧ requestsInProgress out.2 = requestsInProgress examples.ended.
Proof. apply getFrame_after_stop. reflexivity. Defined.

(** C1. For a request that is pending when [cancelFrames] is called:
    the pending list is cleared, which destroys the promise of the
    request without a value, so the shared state of its future holds
    the [broken_promise] error, not an empty frame with the time of
    the request; and [cancelVideoFrames] is invoked on every open
    reader. *)
Theorem cancelFrames_pending (p : Private) (r : Request.t) :
  r ∈ requests p →
  frames p !! Request.promise r = Some NotReady →
  frames (cancelFrames p) !! Request.promise r = Some Exception
  ∧ frames (cancelFrames p) !! Request.promise r
    ≠ Some (Value (Frame.mk (Request.time r) []))
  ∧ requests (cancelFrames p) = []
  ∧ ∀ a clip reader,
      readers p !! a = Some (clip, reader) →
      readers (cancelFrames p) !! a
      = Some (clip, Reader.mk (cancelVideoFrames (Reader.read reader))
                              (Reader.info reader)).
Proof.
  intros Hr Hm.
  assert (frames (cancelFrames p) !! Request.promise r = Some Exception) as E.
  { unfold cancelFrames. unsets. rewrite abandon_all_lookup by done.
    rewrite bool_decide_eq_true_2; [done|]. by apply list_elem_of_fmap_2. }
  split; [done|]. split; [by rewrite E|]. split; [done|].
  intros a clip reader Ha. unfold cancelFrames. unsets.
  by rewrite lookup_fmap, Ha.
Qed.

Lemma cancelFrames_pending_witness :
  let r := Request.mk (examples.t24 10) 0 None 0 [] in
  frames (cancelFrames examples.pending10) !! 0 = Some Exception
  ∧ frames (cancelFrames examples.pending10) !! 0
    ≠ Some (Value (Frame.mk (examples.t24 10) []))
  ∧ requests (cancelFrames examples.pending10) = []
  ∧ ∀ a clip reader,
      readers examples.pending10 !! a = Some (clip, reader) →
      readers (cancelFrames examples.pending10) !! a
      = Some (clip, Reader.mk (cancelVideoFrames (Reader.read reader))
                              (Reader.info reader)).
Proof.
  apply (cancelFrames_pending examples.pending10
           (Request.mk (examples.t24 10) 0 None 0 [])).
  - vm_compute. left.
  - reflexivity.
Defined.

(** *** What a traversal may change *)

Lemma reads_only_refl (p : Private) : reads_only p p.
Proof. records. Qed.

Lemma reads_only_trans (p q r : Private) :
  reads_only p q → reads_only q r → reads_only p r.
Proof. intros Hq Hr. records. Qed.

Lemma traversal_refl (p : Private) : traversal p p.
Proof. records. Qed.

Lemma traversal_trans (p q r : Private) :
  traversal p q → traversal q r → traversal p r.
Proof. intros Hq Hr. records. Qed.

Lemma set_frames_twice x y (p : Private) :
  set_frames x (set_frames y p) = set_frames x p.
Proof. by destruct p. Qed.

Section WithCollaborators.

Context `{Layout} `{System}.

Lemma dispatch_reads_only (clip : Clip) (reader : Reader.t) (time : RationalTime)
      (videoLayer : nat) (image : Image) (p : Private) :
  reads_only p (dispatch clip reader time videoLayer image p).2.
Proof. unfold dispatch. simpl. records. Qed.

Lemma readVideoFrame_reads_only (track : Track) (clip : Clip) (time : RationalTime)
      (videoLayer : nat) (io : Options) (image : Image) (p : Private) :
  reads_only p (state_of (readVideoFrame track clip time videoLayer io image p)).
Proof.
  unfold readVideoFrame.
  destruct (context p); [|apply reads_only_refl].
  destruct (readers p !! clip_addr clip) as [j|].
  - apply dispatch_reads_only.
  - destruct (read _ _) as [|r|]; try apply reads_only_refl.
    destruct (negb _); [apply dispatch_reads_only|apply reads_only_refl].
Qed.

(** The traversal keeps every relation on states that is reflexive and
    transitive and that [readVideoFrame] keeps. *)
Section Walk.

Variable R : Private → Private → Prop.
Hypothesis R_refl : ∀ p, R p p.
Hypothesis R_trans : ∀ p q r, R p q → R q r → R p r.
Hypothesis R_read :
  ∀ track clip time videoLayer io image p,
    R p (state_of (readVideoFrame track clip time videoLayer io image p)).

Lemma walk_bind {A B : Type} (m : Private → Result A)
      (k : A → Private → Result B) (p : Private) :
  R p (state_of (m p)) →
  (∀ a q, R q (state_of (k a q))) →
  R p (state_of (bind m k p)).
Proof.
  intros Hm Hk. unfold bind. destruct (m p) as [a q|q]; simpl in *; [|done].
  eapply R_trans; [exact Hm|apply Hk].
Qed.

Lemma walk_readItem request io track k time data p :
  R p (state_of (readItem request io track k time data p)).
Proof.
  destruct k; try apply R_refl. simpl.
  apply walk_bind; [apply R_read|]. intros; apply R_refl.
Qed.

Lemma walk_transitionOut request io track second range time data p :
  R p (state_of (transitionOut request io track second range time data p)).
Proof.
  unfold transitionOut.
  destruct second as [[| |tr]|]; try apply R_refl.
  destruct (gt _ _); [|apply R_refl].
  destruct (neighbors_of _ _).2 as [[| |]|]; try apply R_refl.
  apply walk_bind; [apply R_read|]. intros; apply R_refl.
Qed.

Lemma walk_transitionIn request io track first range time data p :
  R p (state_of (transitionIn request io track first range time data p)).
Proof.
  unfold transitionIn.
  destruct first as [[| |tr]|]; try apply R_refl.
  destruct (lt _ _); [|apply R_refl].
  destruct (neighbors_of _ _).1 as [[| |]|]; try apply R_refl.
  apply walk_bind; [apply R_read|]. intros; apply R_refl.
Qed.

Lemma walk_itemLayer request io track k p :
  R p (state_of (itemLayer request io track k p)).
Proof.
  assert (∀ k', k' = k →
    R p
      (state_of
         (match trimmed_range_in_parent track k' with
          | Some range =>
              let time := sub (Request.time request) (globalStartTime p) in
              if contains range time then
                let neighbors := neighbors_of track (addr k') in
                (data ←: readItem request io track k' time LayerData.default ;;
                 data ←: transitionOut request io track neighbors.2 range time data ;;
                 data ←: transitionIn request io track neighbors.1 range time data ;;
                 ret (Some data)) p
              else Ok None p
          | None => Ok None p
          end))) as Hbody.
  { intros k' _. destruct (trimmed_range_in_parent track k') as [range|];
      [|apply R_refl].
    cbv zeta. destruct (contains _ _); [|apply R_refl].
    apply walk_bind; [apply walk_readItem|]. intros d1 q1.
    apply walk_bind; [apply walk_transitionOut|]. intros d2 q2.
    apply walk_bind; [apply walk_transitionIn|]. intros d3 q3.
    apply R_refl. }
  destruct k; try apply R_refl; by apply Hbody.
Qed.

Lemma walk_trackLayers request io track ks layerData p :
  R p (trackLayers request io track ks layerData p).2.
Proof.
  revert layerData p. induction ks as [|k ks IH]; intros layerData p; simpl.
  - apply R_refl.
  - pose proof (walk_itemLayer request io track k p) as Hk.
    destruct (itemLayer request io track k p) as [[d|] q|q]; simpl in *.
    + eapply R_trans; [exact Hk|apply IH].
    + eapply R_trans; [exact Hk|apply IH].
    + exact Hk.
Qed.

Lemma walk_timelineLayers request io js layerData p :
  R p (timelineLayers request io js layerData p).2.
Proof.
  revert layerData p. induction js as [|[t|] js IH]; intros layerData p; simpl.
  - apply R_refl.
  - destruct (decide _); [|apply IH].
    pose proof (walk_trackLayers request io t (children t) layerData p) as Ht.
    destruct (trackLayers _ _ _ _ _ _) as [[l []] q]; simpl in *; [done|].
    eapply R_trans; [exact Ht|apply IH].
  - apply IH.
Qed.

End Walk.

Lemma timelineLayers_reads_only request io js layerData p :
  reads_only p (timelineLayers request io js layerData p).2.
Proof.
  apply walk_timelineLayers;
    [apply reads_only_refl|apply reads_only_trans|apply readVideoFrame_reads_only].
Qed.

(** *** The in-flight budget *)


Lemma gather_split (rs new : list Request.t) (n c : nat) :
  new ++ rs = (gather rs new n c).2 ++ (gather rs new n c).1.
Proof.
  revert new. induction rs as [|r rs IH]; intros new; simpl.
  - done.
  - case_bool_decide; [|done]. rewrite <- IH. by rewrite <- app_assoc.
Qed.

Lemma traverse_inProgress io request p :
  ∃ layerData,
    requestsInProgress (traverse io request p)
    = requestsInProgress p ++ [set_layerData layerData request].
Proof.
  unfold traverse.
  pose proof (timelineLayers_reads_only request io (otioTimeline p)
                (Request.layerData request) p) as Hro.
  destruct (timelineLayers _ _ _ _ _) as [[layerData b] p']. simpl in Hro.
  exists layerData. unsets. by destruct Hro as (_ & -> & _).
Qed.

Lemma traverse_traversal io request p : traversal p (traverse io request p).
Proof.
  unfold traverse.
  pose proof (timelineLayers_reads_only request io (otioTimeline p)
                (Request.layerData request) p) as Hro.
  destruct (timelineLayers _ _ _ _ _) as [[layerData b] p']. simpl in Hro.
  records.
Qed.

Lemma traverseAll_traversal io new p : traversal p (traverseAll io new p).
Proof.
  revert p. induction new as [|r new IH]; intros p; simpl.
  - apply traversal_refl.
  - eapply traversal_trans; [apply traverse_traversal|apply IH].
Qed.


Lemma frameLayers_ext_get (get get' : nat → GetResult) (l : list LayerData.t)
      (acc : list FrameLayer.t) :
  (∀ id, get id = get' id) → frameLayers get l acc = frameLayers get' l acc.
Proof.
  intros E. revert acc. induction l as [|j l IH]; intros acc; simpl; [done|].
  assert (∀ f, getImage get f = getImage get' f) as E'.
  { intros [id|]; simpl; [by rewrite E|done]. }
  rewrite !E'. destruct (getImage get' _); try done.
  destruct (getImage get' _); try done.
Qed.

(** A future that polled as ready does not block in [get()]. *)
Lemma frameLayers_ready (p : Private) (l : list LayerData.t) (acc : list FrameLayer.t) :
  forallb (layerReady p) l = true →
  (frameLayers (future_get p) l acc).2 ≠ Blocked.
Proof.
  revert acc. induction l as [|j l IH]; intros acc Hr; simpl in *; [done|].
  apply andb_prop in Hr as [Hj Hl]. unfold layerReady in Hj.
  apply andb_prop in Hj as [Ha Hb].
  assert (∀ f, match f with Some id => is_ready p id | None => true end = true →
               getImage (future_get p) f ≠ ImageBlocks) as Hg.
  { intros [id|] Hf; simpl; [|done]. unfold is_ready, future_get in *.
    by destruct (videoFrames p !! id) as [[]|]. }
  specialize (Hg _ Ha) as Ha'. specialize (Hg _ Hb) as Hb'.
  destruct (getImage _ (LayerData.image j)); try done.
  destruct (getImage _ (LayerData.imageB j)); try done.
  by apply IH.
Qed.

(** *** The check for finished requests *)

Lemma requestReady_ext (p q : Private) (r : Request.t) :
  videoFrames q = videoFrames p → requestReady q r = requestReady p r.
Proof.
  intros E. unfold requestReady, layerReady, is_ready. by rewrite E.
Qed.

Lemma finishRequests_eq (rs : list Request.t) (p q : Private) :
  videoFrames q = videoFrames p →
  finishRequests rs q =
    (filter (λ r, requestReady p r = false) rs,
     set_frames
       (fold_left (λ m r, <[Request.promise r := Value (frameOf p r)]> m)
                  (filter (λ r, requestReady p r = true) rs) (frames q)) q).
Proof.
  revert q. induction rs as [|r rs IH]; intros q E; simpl.
  - by destruct q.
  - rewrite (requestReady_ext p q r E).
    destruct (requestReady p r) eqn:Hr.
    + rewrite (filter_cons_False _ r) by congruence.
      rewrite (filter_cons_True _ r) by done.
      pose proof (frameLayers_ready p (Request.layerData r) [] Hr) as Hnb.
      rewrite (frameLayers_ext_get (future_get q) (future_get p)).
      2:{ intros id. unfold future_get. by rewrite E. }
      cbn [fold_left].
      assert (frameOf p r
              = Frame.mk (Request.time r)
                  (frameLayers (future_get p) (Request.layerData r) []).1) as Hf
        by done.
      destruct (frameLayers (future_get p) (Request.layerData r) []) as [layers []];
        simpl in *; try done.
      * rewrite IH by (by unsets). unfold set_value. unsets.
        by rewrite set_frames_twice, Hf.
      * rewrite IH by (by unsets). unfold set_value. unsets.
        by rewrite set_frames_twice, Hf.
    + rewrite (filter_cons_True _ r) by done.
      rewrite (filter_cons_False _ r) by congruence.
      by rewrite IH.
Qed.

Lemma finish_inProgress (p : Private) :
  requestsInProgress (finish p)
  = filter (λ r, requestReady p r = false) (requestsInProgress p).
Proof.
  unfold finish. rewrite (finishRequests_eq _ p p) by done. by unsets.
Qed.

Lemma finish_frames (p : Private) :
  frames (finish p)
  = fold_left (λ m r, <[Request.promise r := Value (frameOf p r)]> m)
              (filter (λ r, requestReady p r = true) (requestsInProgress p))
              (frames p).
Proof.
  unfold finish. rewrite (finishRequests_eq _ p p) by done. by unsets.
Qed.


Lemma fold_insert_lookup (f : Request.t → Frame.t) (l : list Request.t)
      (m : gmap nat (SharedState Frame.t)) (id : nat) :
  fold_left (λ m r, <[Request.promise r := Value (f r)]> m) l m !! id = m !! id
  ∨ ∃ r, r ∈ l ∧ Request.promise r = id
         ∧ fold_left (λ m r, <[Request.promise r := Value (f r)]> m) l m !! id
           = Some (Value (f r)).
Proof.
  revert m. induction l as [|r l IH]; intros m; cbn [fold_left]; [by left|].
  destruct (IH (<[Request.promise r := Value (f r)]> m)) as [E|(r' & Hin & Hid & E)].
  - rewrite E. destruct (decide (Request.promise r = id)) as [Hid|Hne].
    + right. exists r. rewrite <- Hid, lookup_insert_eq. split; [by left|done].
    + left. by rewrite lookup_insert_ne.
  - right. exists r'. split; [by right|done].
Qed.


Lemma getImage_value (get : nat → GetResult) (f : Future) :
  holds_value get f → getImage get f = HasImage (imageOf get f).
Proof.
  unfold imageOf. destruct f as [id|]; simpl; [|done]. by intros [frame ->].
Qed.


Lemma frameLayers_complete (get : nat → GetResult) (l : list LayerData.t)
      (acc : list FrameLayer.t) :
  (∀ j, j ∈ l → holds_value get (LayerData.image j)
                ∧ holds_value get (LayerData.imageB j)) →
  frameLayers get l acc = (acc ++ (layerOf get <$> l), Finished).
Proof.
  revert acc. induction l as [|j l IH]; intros acc Hv; simpl.
  - by rewrite app_nil_r.
  - destruct (Hv j) as [Ha Hb]; [by left|].
    rewrite (getImage_value get _ Ha), (getImage_value get _ Hb).
    rewrite IH by (intros; apply Hv; by right).
    by rewrite <- app_assoc.
Qed.


(** *** [stopReaders] *)

Lemma registry_only_refl (p : Private) : registry_only p p.
Proof. records. Qed.

Lemma registry_only_trans (p q r : Private) :
  registry_only p q → registry_only q r → registry_only p r.
Proof. intros Hq Hr. records. Qed.

Lemma stopReaders_loop_registry_only entries (p : Private) :
  registry_only p (stopReaders_loop entries p).
Proof.
  revert p. induction entries as [|i rest IH]; intros p; simpl.
  - apply registry_only_refl.
  - destruct (stops p i.2); [|apply IH].
    eapply registry_only_trans; [|apply IH]. records.
Qed.

Lemma stopReaders_registry_only (p : Private) : registry_only p (stopReaders p).
Proof. apply stopReaders_loop_registry_only. Qed.

(** *** The budget along the events *)


Lemma promote_traversal (p : Private) :
  traversal (set_requests (requests (promote p)) p) (promote p).
Proof.
  unfold promote. destruct (gather _ _ _ _) as [rs' new].
  pose proof (traverseAll_traversal (ioOptions p) new (set_requests rs' p)) as Ht.
  records.
Qed.








(** *** Eviction *)

Lemma stops_ext (p q : Private) (i : Clip * Reader.t) :
  registry_only p q → stops q i = stops p i.
Proof.
  intros E. unfold stops, del, readerRange, getParent.
  assert (activeRanges q = activeRanges p) as -> by records.
  assert (globalStartTime q = globalStartTime p) as -> by records.
  assert (otioTimeline q = otioTimeline p) as -> by records.
  done.
Qed.

Lemma stopReaders_loop_readers entries (p q : Private) (a : positive) :
  registry_only p q →
  readers (stopReaders_loop entries q) !! a
  = if decide (a ∈ (filter (λ e, stops p e.2 = true) entries).*1)
    then None else readers q !! a.
Proof.
  revert q. induction entries as [|e rest IH]; intros q E; cbn [stopReaders_loop].
  - rewrite decide_False; [done|]. rewrite filter_nil. by intros ?%elem_of_nil.
  - rewrite (stops_ext p q) by done. destruct (stops p e.2) eqn:Hs.
    + rewrite filter_cons_True by done. rewrite IH.
      2:{ eapply registry_only_trans; [exact E|]. records. }
      unsets. rewrite fmap_cons.
      destruct (decide (a ∈ (filter (λ e, stops p e.2 = true) rest).*1)) as [Hin|Hout].
      * rewrite decide_True; [done|]. by constructor.
      * destruct (decide (a = e.1)) as [->|Hne].
        -- rewrite decide_True by constructor. apply lookup_delete_eq.
        -- rewrite decide_False.
           ++ by apply lookup_delete_ne.
           ++ intros [?|?]%elem_of_cons; congruence.
    + rewrite filter_cons_False by congruence. by apply IH.
Qed.

Lemma stopReaders_loop_stopped entries (p q : Private) :
  registry_only p q →
  stoppedReaders (stopReaders_loop entries q)
  = stoppedReaders q
    ++ ((λ e, stop (Reader.read e.2.2)) <$> filter (λ e, stops p e.2 = true) entries).
Proof.
  revert q. induction entries as [|e rest IH]; intros q E; simpl.
  - by rewrite app_nil_r.
  - rewrite (stops_ext p q) by done. destruct (stops p e.2) eqn:Hs.
    + rewrite filter_cons_True by done. rewrite IH.
      2:{ eapply registry_only_trans; [exact E|]. records. }
      unsets. by rewrite fmap_cons, <- app_assoc.
    + rewrite filter_cons_False by congruence. by apply IH.
Qed.

Lemma stopReaders_readers (p : Private) (a : positive) :
  readers (stopReaders p) !! a
  = match readers p !! a with
    | Some i => if stops p i then None else Some i
    | None => None
    end.
Proof.
  unfold stopReaders.
  rewrite (stopReaders_loop_readers _ p p) by apply registry_only_refl.
  destruct (readers p !! a) as [i|] eqn:Ha.
  - destruct (stops p i) eqn:Hs.
    + rewrite decide_True; [done|].
      apply list_elem_of_fmap. exists (a, i). split; [done|].
      apply list_elem_of_filter. split; [done|]. by apply elem_of_map_to_list.
    + rewrite decide_False; [done|].
      intros ([a' i'] & -> & [Hs' Hin%elem_of_map_to_list]%list_elem_of_filter)%list_elem_of_fmap.
      simpl in *. congruence.
  - rewrite decide_False; [done|].
    intros ([a' i'] & -> & [Hs' Hin%elem_of_map_to_list]%list_elem_of_filter)%list_elem_of_fmap.
    simpl in *. congruence.
Qed.

Lemma stopReaders_stopped (p : Private) :
  stoppedReaders (stopReaders p)
  = stoppedReaders p
    ++ ((λ e, stop (Reader.read e.2.2))
          <$> filter (λ e, stops p e.2 = true) (map_to_list (readers p))).
Proof. apply stopReaders_loop_stopped, registry_only_refl. Qed.

Lemma del_true (p : Private) (clip : Clip) :
  del p clip = true
  ↔ ∀ activeRange, activeRange ∈ activeRanges p →
      intersects (readerRange p clip) activeRange = false.
Proof.
  unfold del. rewrite forallb_forall. split.
  - intros Hall r Hr%list_elem_of_In. apply negb_true_iff. by apply Hall.
  - intros Hall r Hr%list_elem_of_In. apply negb_true_iff. by apply Hall.
Qed.

(** C6. An open reader is stopped, removed from the readers and pushed
    on the list of stopped readers exactly when its range -- the range of
    the clip in the root, extended by the in-offset of a transition on
    its left and the out-offset of a transition on its right, from the
    global start time -- intersects none of the active ranges and the
    reader has no pending video frames; otherwise it stays open,
    unchanged. *)
Theorem stopReaders_evicts_idle (p : Private) (a : positive) (clip : Clip)
        (reader : Reader.t) :
  readers p !! a = Some (clip, reader) →
  let neighbors :=
    match getParent p clip with
    | Some track => neighbors_of track (clip_addr clip)
    | None => (None, None)
    end in
  let idle :=
    (∀ activeRange, activeRange ∈ activeRanges p →
       intersects (readerRange p clip) activeRange = false)
    ∧ hasVideoFrames (Reader.read reader) = false in
  readerRange p clip
  = effectiveRange (globalStartTime p)
      (transformed_time_range clip (trimmed_range clip)) neighbors.1 neighbors.2
  ∧ ((readers (stopReaders p) !! a = None
      ∧ stop (Reader.read reader) ∈ stoppedReaders (stopReaders p)) ↔ idle)
  ∧ (¬ idle → readers (stopReaders p) !! a = Some (clip, reader)).
Proof.
  intros Ha neighbors idle.
  assert (stops p (clip, reader) = true ↔ idle) as Hidle.
  { unfold stops, idle. simpl. rewrite andb_true_iff, del_true, negb_true_iff. done. }
  split; [|split].
  - unfold readerRange, effectiveRange, neighbors.
    destruct (getParent p clip) as [track|]; simpl; [|done].
    by destruct (neighbors_of track (clip_addr clip)) as [[[]|] [[]|]].
  - rewrite stopReaders_readers, Ha, stopReaders_stopped. split.
    + intros [Hnone _]. apply Hidle. by destruct (stops p (clip, reader)).
    + intros Hi%Hidle. rewrite Hi. split; [done|].
      apply elem_of_app. right.
      apply list_elem_of_fmap. exists (a, (clip, reader)). split; [done|].
      apply list_elem_of_filter. split; [done|]. by apply elem_of_map_to_list.
  - intros Hn. rewrite stopReaders_readers, Ha.
    destruct (stops p (clip, reader)) eqn:Hs; [|done].
    exfalso. by apply Hn, Hidle.
Qed.

Lemma tick_frames (p : Private) :
  frames (tick p) = frames (finish (promote p)).
Proof.
  unfold tick, delReaders, frameRequests. unsets.
  pose proof (stopReaders_registry_only (finish (promote p))) as Hs. records.
Qed.



(** *** The end of the thread *)

Lemma fold_insert_unique (f : Request.t → Frame.t) (l : list Request.t)
      (m : gmap nat (SharedState Frame.t)) (r : Request.t) :
  NoDup (Request.promise <$> l) → r ∈ l →
  fold_left (λ m r, <[Request.promise r := Value (f r)]> m) l m
  !! Request.promise r = Some (Value (f r)).
Proof.
  revert m. induction l as [|x l IH]; intros m Hnd Hin; [by apply elem_of_nil in Hin|].
  rewrite fmap_cons in Hnd. apply NoDup_cons in Hnd as [Hx Hnd].
  cbn [fold_left]. apply elem_of_cons in Hin as [->|Hin]; [|by apply IH].
  destruct (fold_insert_lookup f l (<[Request.promise x := Value (f x)]> m)
              (Request.promise x)) as [E|(r' & Hin' & Hid & _)].
  - by rewrite E, lookup_insert_eq.
  - exfalso. apply Hx. rewrite <- Hid. by apply list_elem_of_fmap_2.
Qed.

Lemma cleanupRequests_ext_get (get get' : nat → GetResult) (rs : list Request.t)
      (p : Private) :
  (∀ id, get id = get' id) → cleanupRequests get rs p = cleanupRequests get' rs p.
Proof.
  intros E. revert p. induction rs as [|r rs IH]; intros p; simpl; [done|].
  rewrite (frameLayers_ext_get get get') by done.
  destruct (frameLayers get' _ _) as [layers []]; by rewrite ?IH.
Qed.

Lemma cleanupRequests_fulfils (get : nat → GetResult) (rs : list Request.t)
      (p : Private) :
  (∀ r, r ∈ rs → all_values get r) →
  cleanupRequests get rs p
  = Returned
      (set_frames
         (fold_left
            (λ m r, <[Request.promise r :=
                        Value (Frame.mk (Request.time r)
                                        (layerOf get <$> Request.layerData r))]> m)
            rs (frames p)) p).
Proof.
  revert p. induction rs as [|r rs IH]; intros p Hv; simpl.
  - by destruct p.
  - rewrite frameLayers_complete by (apply Hv; by left).
    rewrite IH by (intros; apply Hv; by right).
    unfold set_value. unsets. by rewrite set_frames_twice.
Qed.

(** When [get()] returns a value for every valid layer future of the
    outstanding requests, the destructor returns and has fulfilled every
    outstanding promise with a frame at the time of its request. *)
Lemma destroy_fulfils (eventually : nat → GetResult) (p : Private) :
  NoDup (Request.promise <$> (requests p ++ requestsInProgress p)) →
  (∀ r, r ∈ requests p ++ requestsInProgress p → all_values (await eventually p) r) →
  ∃ p', destroy eventually p = Returned p'
        ∧ stopped p' = true ∧ running p' = false
        ∧ requests p' = [] ∧ requestsInProgress p' = []
        ∧ ∀ r, r ∈ requests p ++ requestsInProgress p →
               frames p' !! Request.promise r
               = Some (Value (Frame.mk (Request.time r)
                                       (layerOf (await eventually p)
                                          <$> Request.layerData r))).
Proof.
  intros Hnd Hv. unfold destroy, threadExit. unsets.
  rewrite (cleanupRequests_ext_get _ (await eventually p)) by done.
  rewrite cleanupRequests_fulfils by done.
  eexists. split; [done|]. unsets. repeat (split; [done|]).
  intros r Hr.
  by apply (fold_insert_unique
              (λ r, Frame.mk (Request.time r)
                             (layerOf (await eventually p) <$> Request.layerData r))).
Qed.

(** *** The media time *)



(** *** Transitions *)

Lemma transitionOut_fires request io track (tr : otio.Transition) range time
      (data data' : LayerData.t) (p p' : Private) :
  gt time (sub (end_time_inclusive range) (in_offset tr)) = true →
  transitionOut request io track (Some (ATransition tr)) range time data p
  = Ok data' p' →
  LayerData.image data' = LayerData.image data
  ∧ LayerData.transition data' = toTransition (transition_type tr)
  ∧ LayerData.transitionValue data'
    = transitionValue
        (value time)
        (value (end_time_inclusive range) - value (in_offset tr))
        (value (end_time_inclusive range) + value (out_offset tr) + 1)
  ∧ match (neighbors_of track (transition_addr tr)).2 with
    | Some (AClip otioClipB) =>
        readVideoFrame track otioClipB time (Request.videoLayer request) io None p
        = Ok (LayerData.imageB data') p'
    | _ => LayerData.imageB data' = LayerData.imageB data ∧ p' = p
    end.
Proof.
  intros Hgt. unfold transitionOut. rewrite Hgt.
  destruct (neighbors_of track (transition_addr tr)).2 as [[clipB| |]|];
    try (intros [= <- <-]; done).
  unfold bind, ret.
  destruct (readVideoFrame _ _ _ _ _ _ _) as [f q|q]; [|done].
  by intros [= <- <-].
Qed.

Lemma transitionOut_idle request io track second range time
      (data : LayerData.t) (p : Private) :
  (∀ tr, second = Some (ATransition tr) →
         gt time (sub (end_time_inclusive range) (in_offset tr)) = false) →
  transitionOut request io track second range time data p = Ok data p.
Proof.
  intros Hidle. unfold transitionOut.
  destruct second as [[| |tr]|]; try done. by rewrite (Hidle tr).
Qed.

Lemma transitionIn_fires request io track (tr : otio.Transition) range time
      (data data' : LayerData.t) (p p' : Private) :
  lt time (add (start_time range) (out_offset tr)) = true →
  transitionIn request io track (Some (ATransition tr)) range time data p
  = Ok data' p' →
  LayerData.imageB data' = LayerData.image data
  ∧ LayerData.transition data' = toTransition (transition_type tr)
  ∧ LayerData.transitionValue data'
    = transitionValue
        (value time)
        (value (start_time range) - value (in_offset tr) - 1)
        (value (start_time range) + value (out_offset tr))
  ∧ match (neighbors_of track (transition_addr tr)).1 with
    | Some (AClip otioClipB) =>
        readVideoFrame track otioClipB time (Request.videoLayer request) io None p
        = Ok (LayerData.image data') p'
    | _ => LayerData.image data' = LayerData.imageB data ∧ p' = p
    end.
Proof.
  intros Hlt. unfold transitionIn. rewrite Hlt.
  destruct (neighbors_of track (transition_addr tr)).1 as [[clipB| |]|];
    try (intros [= <- <-]; done).
  unfold bind, ret.
  destruct (readVideoFrame _ _ _ _ _ _ _) as [f q|q]; [|done].
  by intros [= <- <-].
Qed.

Lemma transitionIn_idle request io track first range time
      (data : LayerData.t) (p : Private) :
  (∀ tr, first = Some (ATransition tr) →
         lt time (add (start_time range) (out_offset tr)) = false) →
  transitionIn request io track first range time data p = Ok data p.
Proof.
  intros Hidle. unfold transitionIn.
  destruct first as [[| |tr]|]; try done. by rewrite (Hidle tr).
Qed.

(** The layer of a clip, step by step. *)
Lemma itemLayer_clip request io track (clip : Clip) range
      (data : LayerData.t) (p p' : Private) :
  trimmed_range_in_parent track (AClip clip) = Some range →
  itemLayer request io track (AClip clip) p = Ok (Some data) p' →
  let time := sub (Request.time request) (globalStartTime p) in
  let neighbors := neighbors_of track (clip_addr clip) in
  contains range time = true
  ∧ ∃ own p1 data1 p2,
      readVideoFrame track clip time (Request.videoLayer request) io
                     (Request.image request) p = Ok own p1
      ∧ transitionOut request io track neighbors.2 range time
                      (set_image own LayerData.default) p1 = Ok data1 p2
      ∧ transitionIn request io track neighbors.1 range time data1 p2 = Ok data p'.
Proof.
  intros Hrange. unfold itemLayer. rewrite Hrange. cbv zeta.
  destruct (contains _ _); [|done]. intros Hitem. split; [done|].
  unfold readItem in Hitem. unfold bind, ret in Hitem. cbn [addr] in Hitem.
  destruct (readVideoFrame track clip _ _ _ _ p) as [own p1|] eqn:E1;
    simpl in Hitem; [|done].
  destruct (transitionOut _ _ _ _ _ _ _ p1) as [data1 p2|] eqn:E2;
    simpl in Hitem; [|done].
  destruct (transitionIn _ _ _ _ _ _ _ p2) as [data2 p3|] eqn:E3;
    simpl in Hitem; [|done].
  injection Hitem as <- <-. by exists own, p1, data1, p2.
Qed.

Lemma transitionOut_image request io track second range time
      (data data' : LayerData.t) (p p' : Private) :
  transitionOut request io track second range time data p = Ok data' p' →
  LayerData.image data' = LayerData.image data.
Proof.
  unfold transitionOut.
  destruct second as [[| |tr]|]; try (by intros [= <- <-]).
  destruct (gt _ _); [|by intros [= <- <-]].
  destruct (neighbors_of track (transition_addr tr)).2 as [[clipB| |]|];
    try (by intros [= <- <-]).
  unfold bind, ret.
  destruct (readVideoFrame _ _ _ _ _ _ _) as [f q|q]; [|done].
  by intros [= <- <-].
Qed.

Lemma transitionValue_ends (a b : Q) :
  (transitionValue a a b == 0)%Q
  ∧ (¬ (a == b)%Q → (transitionValue b a b == 1)%Q).
Proof.
  unfold transitionValue. split.
  - unfold Qdiv. ring.
  - intros Hne. field. intros E. apply Hne.
    apply (Qplus_inj_r _ _ (- a)). rewrite Qplus_opp_r. symmetry. exact E.
Qed.

(** *** Dispatch before eviction *)

Lemma dispatching_refl (p : Private) : dispatching p p.
Proof. split; [done|]. split; [done|]. intros id ?. lia. Qed.

Lemma dispatching_trans (p q r : Private) :
  dispatching p q → dispatching q r → dispatching p r.
Proof.
  intros (Hn1 & Hk1 & Hf1) (Hn2 & Hk2 & Hf2). split; [lia|]. split.
  - intros id Hid. by apply Hk2, Hk1.
  - intros id Hid. destruct (decide (id < nextVideoFrame q)).
    + apply Hk2, Hf1. lia.
    + apply Hf2. lia.
Qed.

Lemma dispatch_dispatching (clip : Clip) (reader : Reader.t) (time : RationalTime)
      (videoLayer : nat) (image : Image) (p : Private) :
  (∀ i, readers p !! clip_addr clip = Some i → i.2 = reader) →
  dispatching p (dispatch clip reader time videoLayer image p).2.
Proof.
  intros Hsame. unfold dispatch, dispatching, queued. simpl. unsets.
  split; [lia|]. split.
  - intros id (a & c & r & Ha & Hid).
    destruct (decide (a = clip_addr clip)) as [->|Hne].
    + eexists _, _, _. rewrite lookup_insert_eq. split; [done|].
      specialize (Hsame _ Ha). simpl in Hsame. subst r. simpl.
      rewrite fmap_app. apply elem_of_app. by left.
    + exists a, c, r. by rewrite lookup_insert_ne.
  - intros id Hid. assert (id = nextVideoFrame p) as -> by lia.
    eexists _, _, _. rewrite lookup_insert_eq. split; [done|]. simpl.
    rewrite fmap_app. apply elem_of_app. right. simpl. by left.
Qed.

Lemma readVideoFrame_dispatching (track : Track) (clip : Clip) (time : RationalTime)
      (videoLayer : nat) (io : Options) (image : Image) (p : Private) :
  dispatching p (state_of (readVideoFrame track clip time videoLayer io image p)).
Proof.
  unfold readVideoFrame.
  destruct (context p); [|apply dispatching_refl].
  destruct (readers p !! clip_addr clip) as [j|] eqn:Ej.
  - pose proof (dispatch_dispatching clip j.2
                  (floorTime (Reader.info j.2) (frameTime track clip time))
                  videoLayer image p) as Hd.
    destruct (dispatch _ _ _ _ _ _) as [out q]. simpl in *.
    apply Hd. intros i Hi. rewrite Ej in Hi. by injection Hi as <-.
  - destruct (read _ _) as [|r|]; try apply dispatching_refl.
    destruct (negb _); [|apply dispatching_refl].
    pose proof (dispatch_dispatching clip (Reader.mk r (r_info r))
                  (floorTime (r_info r) (frameTime track clip time))
                  videoLayer image p) as Hd.
    destruct (dispatch _ _ _ _ _ _) as [out q]. simpl in *.
    apply Hd. intros i Hi. congruence.
Qed.

Lemma dispatching_ext (p q q' : Private) :
  readers q' = readers q → nextVideoFrame q' = nextVideoFrame q →
  dispatching p q → dispatching p q'.
Proof.
  unfold dispatching, queued. intros -> ->. done.
Qed.

Lemma traverse_dispatching io request p : dispatching p (traverse io request p).
Proof.
  unfold traverse.
  pose proof (walk_timelineLayers dispatching dispatching_refl dispatching_trans
                readVideoFrame_dispatching request io (otioTimeline p)
                (Request.layerData request) p) as Hw.
  destruct (timelineLayers _ _ _ _ _) as [[layerData b] p']. simpl in Hw.
  by apply (dispatching_ext p p').
Qed.

Lemma traverseAll_dispatching io new p : dispatching p (traverseAll io new p).
Proof.
  revert p. induction new as [|r new IH]; intros p; simpl.
  - apply dispatching_refl.
  - eapply dispatching_trans; [apply traverse_dispatching|apply IH].
Qed.

Lemma promote_dispatching (p : Private) : dispatching p (promote p).
Proof.
  unfold promote. destruct (gather _ _ _ _) as [rs' new].
  pose proof (traverseAll_dispatching (ioOptions p) new (set_requests rs' p)) as Hd.
  unfold dispatching, queued in *. by unsets.
Qed.

Lemma finish_registry (p : Private) :
  readers (finish p) = readers p ∧ nextVideoFrame (finish p) = nextVideoFrame p.
Proof.
  unfold finish. rewrite (finishRequests_eq _ p p) by done. by unsets.
Qed.

Lemma frameRequests_dispatching (p : Private) : dispatching p (frameRequests p).
Proof.
  unfold frameRequests. destruct (finish_registry (promote p)) as [Hr Hn].
  apply (dispatching_ext p (promote p)); [done|done|apply promote_dispatching].
Qed.

(** *** The futures of the layers made in a traversal *)

Lemma readVideoFrame_fresh track clip time videoLayer io image p f p' :
  readVideoFrame track clip time videoLayer io image p = Ok f p' →
  nextVideoFrame p ≤ nextVideoFrame p'
  ∧ ∀ id, f = Some id → nextVideoFrame p ≤ id < nextVideoFrame p'.
Proof.
  unfold readVideoFrame. destruct (context p); [|intros [= <- <-]; split; [lia|done]].
  destruct (readers p !! clip_addr clip) as [j|].
  - unfold dispatch. intros [= <- <-]. unsets. split; [lia|].
    intros id [= <-]. lia.
  - destruct (read _ _) as [|r|]; try (intros [= <- <-]; split; [lia|done]); [|done].
    destruct (negb _); [|intros [= <- <-]; split; [lia|done]].
    unfold dispatch. intros [= <- <-]. unsets. split; [lia|].
    intros id [= <-]. lia.
Qed.

Lemma bounded_mono lo (p p' : Private) d :
  nextVideoFrame p ≤ nextVideoFrame p' → bounded lo p d → bounded lo p' d.
Proof. intros Hn Hb id Hid. specialize (Hb id Hid). lia. Qed.

Lemma readItem_bounded request io track k time data p data' p' lo :
  lo ≤ nextVideoFrame p → bounded lo p data →
  readItem request io track k time data p = Ok data' p' →
  lo ≤ nextVideoFrame p' ∧ bounded lo p' data'.
Proof.
  intros Hlo Hb. unfold readItem.
  destruct k as [clip| |]; try (intros [= <- <-]; done).
  unfold bind, ret.
  destruct (readVideoFrame _ _ _ _ _ _ _) as [f q|q] eqn:E; [|done].
  intros [= <- <-]. destruct (readVideoFrame_fresh _ _ _ _ _ _ _ _ _ E) as [Hn Hf].
  split; [lia|]. intros id [Hid|Hid]; simpl in Hid.
  - specialize (Hf id Hid). lia.
  - specialize (Hb id (or_intror Hid)). lia.
Qed.

Lemma transitionOut_bounded request io track second range time data p data' p' lo :
  lo ≤ nextVideoFrame p → bounded lo p data →
  transitionOut request io track second range time data p = Ok data' p' →
  lo ≤ nextVideoFrame p' ∧ bounded lo p' data'.
Proof.
  intros Hlo Hb. unfold transitionOut.
  destruct second as [[| |tr]|]; try (intros [= <- <-]; done).
  destruct (gt _ _); [|intros [= <- <-]; done].
  destruct (neighbors_of track (transition_addr tr)).2 as [[clipB| |]|];
    try (intros [= <- <-]; done).
  unfold bind, ret.
  destruct (readVideoFrame _ _ _ _ _ _ _) as [f q|q] eqn:E; [|done].
  intros [= <- <-]. destruct (readVideoFrame_fresh _ _ _ _ _ _ _ _ _ E) as [Hn Hf].
  split; [lia|]. intros id [Hid|Hid]; simpl in Hid.
  - specialize (Hb id (or_introl Hid)). lia.
  - specialize (Hf id Hid). lia.
Qed.

Lemma transitionIn_bounded request io track first range time data p data' p' lo :
  lo ≤ nextVideoFrame p → bounded lo p data →
  transitionIn request io track first range time data p = Ok data' p' →
  lo ≤ nextVideoFrame p' ∧ bounded lo p' data'.
Proof.
  intros Hlo Hb. unfold transitionIn.
  destruct first as [[| |tr]|]; try (intros [= <- <-]; done).
  destruct (lt _ _); [|intros [= <- <-]; done].
  assert (bounded lo p (swap_images data)) as Hs.
  { intros id [Hid|Hid]; simpl in Hid; apply Hb; tauto. }
  destruct (neighbors_of track (transition_addr tr)).1 as [[clipB| |]|];
    try (intros [= <- <-]; done).
  unfold bind, ret.
  destruct (readVideoFrame _ _ _ _ _ _ _) as [f q|q] eqn:E; [|done].
  intros [= <- <-]. destruct (readVideoFrame_fresh _ _ _ _ _ _ _ _ _ E) as [Hn Hf].
  split; [lia|]. intros id [Hid|Hid]; simpl in Hid.
  - specialize (Hf id Hid). lia.
  - specialize (Hs id (or_intror Hid)). lia.
Qed.

Lemma itemLayer_bounded request io track k p data p' lo :
  lo ≤ nextVideoFrame p →
  itemLayer request io track k p = Ok data p' →
  lo ≤ nextVideoFrame p' ∧ ∀ d, data = Some d → bounded lo p' d.
Proof.
  intros Hlo.
  assert (∀ k', k' = k →
    match trimmed_range_in_parent track k' with
    | Some range =>
        let time := sub (Request.time request) (globalStartTime p) in
        if contains range time then
          let neighbors := neighbors_of track (addr k') in
          (data ←: readItem request io track k' time LayerData.default ;;
           data ←: transitionOut request io track neighbors.2 range time data ;;
           data ←: transitionIn request io track neighbors.1 range time data ;;
           ret (Some data)) p
        else Ok None p
    | None => Ok None p
    end = Ok data p' →
    lo ≤ nextVideoFrame p' ∧ ∀ d, data = Some d → bounded lo p' d) as Hbody.
  { intros k' _. destruct (trimmed_range_in_parent track k') as [range|];
      [|intros [= <- <-]; done].
    cbv zeta. destruct (contains _ _); [|intros [= <- <-]; done].
    unfold bind, ret.
    destruct (readItem _ _ _ _ _ _ _) as [d1 q1|] eqn:E1; [|done].
    destruct (transitionOut _ _ _ _ _ _ _ _) as [d2 q2|] eqn:E2; [|done].
    destruct (transitionIn _ _ _ _ _ _ _ _) as [d3 q3|] eqn:E3; [|done].
    intros [= <- <-].
    assert (bounded lo p LayerData.default) as Hb0 by (intros id [?|?]; done).
    destruct (readItem_bounded _ _ _ _ _ _ _ _ _ _ Hlo Hb0 E1) as [Hl1 Hb1].
    destruct (transitionOut_bounded _ _ _ _ _ _ _ _ _ _ _ Hl1 Hb1 E2) as [Hl2 Hb2].
    destruct (transitionIn_bounded _ _ _ _ _ _ _ _ _ _ _ Hl2 Hb2 E3) as [Hl3 Hb3].
    split; [done|]. by intros d [= <-]. }
  destruct k; try (by apply Hbody). intros [= <- <-]. done.
Qed.

Lemma trackLayers_bounded request io track ks layerData p lo :
  lo ≤ nextVideoFrame p → Forall (bounded lo p) layerData →
  let out := trackLayers request io track ks layerData p in
  lo ≤ nextVideoFrame out.2 ∧ Forall (bounded lo out.2) out.1.1.
Proof.
  revert layerData p. induction ks as [|k ks IH]; intros layerData p Hlo Hall;
    cbn [trackLayers]; [done|].
  destruct (itemLayer request io track k p) as [data q|q] eqn:E.
  - destruct (itemLayer_bounded _ _ _ _ _ _ _ _ Hlo E) as [Hl Hb].
    assert (nextVideoFrame p ≤ nextVideoFrame q) as Hn.
    { pose proof (walk_itemLayer dispatching dispatching_refl dispatching_trans
                    readVideoFrame_dispatching request io track k p) as Hd.
      rewrite E in Hd. by destruct Hd. }
    assert (Forall (bounded lo q) layerData) as Hall'.
    { eapply Forall_impl; [exact Hall|]. intros d. by apply bounded_mono. }
    destruct data as [d|]; apply IH; try done.
    apply Forall_app. split; [done|]. apply Forall_singleton. by apply Hb.
  - simpl.
    pose proof (walk_itemLayer dispatching dispatching_refl dispatching_trans
                  readVideoFrame_dispatching request io track k p) as Hd.
    rewrite E in Hd. destruct Hd as [Hn _]. simpl in Hn. split; [lia|].
    eapply Forall_impl; [exact Hall|]. intros d. by apply bounded_mono.
Qed.

Lemma timelineLayers_bounded request io js layerData p lo :
  lo ≤ nextVideoFrame p → Forall (bounded lo p) layerData →
  let out := timelineLayers request io js layerData p in
  lo ≤ nextVideoFrame out.2 ∧ Forall (bounded lo out.2) out.1.1.
Proof.
  revert layerData p. induction js as [|[t|] js IH]; intros layerData p Hlo Hall;
    cbn [timelineLayers]; [done| |by apply IH].
  destruct (decide _); [|by apply IH].
  pose proof (trackLayers_bounded request io t (children t) layerData p lo Hlo Hall)
    as Ht.
  destruct (trackLayers _ _ _ _ _ _) as [[l []] q]; simpl in *; [done|].
  destruct Ht as [Hl Hb]. by apply IH.
Qed.

(** A reader with a queued read is not stopped. *)
Lemma stopReaders_queued (p : Private) (id : nat) :
  queued p id → queued (stopReaders p) id.
Proof.
  intros (a & clip & reader & Ha & Hid). exists a, clip, reader.
  split; [|done]. rewrite stopReaders_readers, Ha.
  assert (hasVideoFrames (Reader.read reader) = true) as Hhas.
  { unfold hasVideoFrames. apply negb_true_iff, bool_decide_eq_false_2.
    intros E. rewrite E in Hid. by apply elem_of_nil in Hid. }
  unfold stops. simpl. rewrite Hhas. by rewrite andb_false_r.
Qed.

Lemma bounded_lower lo lo' (p : Private) d :
  lo' ≤ lo → bounded lo p d → bounded lo' p d.
Proof. intros Hn Hb id Hid. specialize (Hb id Hid). lia. Qed.

Lemma traverse_promoted io request p :
  Request.layerData request = [] →
  ∃ r', requestsInProgress (traverse io request p) = requestsInProgress p ++ [r']
        ∧ Request.promise r' = Request.promise request
        ∧ Forall (bounded (nextVideoFrame p) (traverse io request p))
                 (Request.layerData r').
Proof.
  intros Hempty. unfold traverse. rewrite Hempty.
  pose proof (timelineLayers_bounded request io (otioTimeline p) [] p
                (nextVideoFrame p) (le_n _) (Forall_nil_2 _)) as Hb.
  pose proof (timelineLayers_reads_only request io (otioTimeline p) [] p) as Hro.
  destruct (timelineLayers _ _ _ _ _) as [[layerData b] p']. simpl in Hb, Hro.
  destruct Hb as [_ Hb]. destruct Hro as (_ & Hin & _).
  exists (set_layerData layerData request). unsets. rewrite Hin.
  split; [done|]. split; [done|]. simpl.
  eapply Forall_impl; [exact Hb|]. intros d Hd id Hid. by apply Hd.
Qed.

Lemma traverseAll_promoted io new p :
  Forall (λ r, Request.layerData r = []) new →
  ∃ promoted,
    requestsInProgress (traverseAll io new p) = requestsInProgress p ++ promoted
    ∧ Request.promise <$> promoted = Request.promise <$> new
    ∧ Forall (λ r', Forall (bounded (nextVideoFrame p) (traverseAll io new p))
                           (Request.layerData r')) promoted.
Proof.
  revert p. induction new as [|r new IH]; intros p Hempty; cbn [traverseAll fold_left].
  - exists []. by rewrite app_nil_r.
  - apply Forall_cons in Hempty as [Hr Hnew].
    destruct (traverse_promoted io r p Hr) as (r' & Hin & Hp & Hb).
    destruct (IH (traverse io r p) Hnew) as (promoted & Hin' & Hp' & Hb').
    fold (traverseAll io new (traverse io r p)) in *.
    destruct (traverse_dispatching io r p) as [Hn1 _].
    destruct (traverseAll_dispatching io new (traverse io r p)) as [Hn2 _].
    exists (r' :: promoted). split; [|split].
    + by rewrite Hin', Hin, <- app_assoc.
    + by rewrite !fmap_cons, Hp, Hp'.
    + apply Forall_cons. split.
      * eapply Forall_impl; [exact Hb|]. intros d. by apply bounded_mono.
      * eapply Forall_impl; [exact Hb'|]. intros r'' Hr''.
        eapply Forall_impl; [exact Hr''|]. intros d. by apply bounded_lower.
Qed.

Lemma gather_subset (rs new : list Request.t) (n c : nat) (r : Request.t) :
  r ∈ (gather rs new n c).2 → r ∈ new ∨ r ∈ rs.
Proof.
  intros Hr. apply elem_of_app. rewrite (gather_split rs new n c).
  apply elem_of_app. by left.
Qed.

Lemma tick_keeps_dispatched (p : Private) :
  (∀ r, r ∈ requests p → Request.layerData r = []) →
  tick p = delReaders (stopReaders (frameRequests p))
  ∧ (∀ id, nextVideoFrame p ≤ id < nextVideoFrame (tick p) → queued (tick p) id)
  ∧ ∃ promoted,
      requestsInProgress (promote p) = requestsInProgress p ++ promoted
      ∧ Request.promise <$> promoted
        = Request.promise
            <$> (gather (requests p) [] (length (requestsInProgress p))
                        (requestCount p)).2
      ∧ ∀ r id, r ∈ promoted → uses r id → queued (tick p) id.
Proof.
  intros Hempty. split; [reflexivity|].
  pose proof (stopReaders_registry_only (frameRequests p)) as Hs.
  assert (nextVideoFrame (tick p) = nextVideoFrame (promote p)) as Hn.
  { transitivity (nextVideoFrame (frameRequests p)).
    - unfold tick, delReaders. unsets. records.
    - unfold frameRequests. by destruct (finish_registry (promote p)). }
  assert (∀ id, nextVideoFrame p ≤ id < nextVideoFrame (tick p) → queued (tick p) id)
    as Hqueued.
  { intros id Hid. rewrite Hn in Hid.
    destruct (frameRequests_dispatching p) as (_ & _ & Hnew).
    unfold frameRequests in Hnew at 1.
    destruct (finish_registry (promote p)) as [_ Hf]. rewrite Hf in Hnew.
    apply Hnew, stopReaders_queued in Hid.
    unfold tick, delReaders, queued in *. by unsets. }
  split; [exact Hqueued|].
  unfold promote in *.
  pose proof (gather_subset (requests p) [] (length (requestsInProgress p))
                (requestCount p)) as Hsub.
  destruct (gather _ _ _ _) as [rs' new]. simpl in Hsub.
  destruct (traverseAll_promoted (ioOptions p) new (set_requests rs' p))
    as (promoted & Hin & Hp & Hb).
  { apply Forall_forall. intros r Hr. apply Hempty.
    destruct (Hsub r Hr) as [Hnil|Hr']; [by apply elem_of_nil in Hnil|done]. }
  exists promoted. split; [exact Hin|]. split; [exact Hp|].
  intros r id Hr (j & Hj & Hid). apply Hqueued.
  rewrite Forall_forall in Hb. specialize (Hb r Hr).
  rewrite Forall_forall in Hb. specialize (Hb j Hj id Hid).
  unsets. rewrite Hn. exact Hb.
Qed.

(** *** Pending requests carry no layers *)

Lemma gather_rest (rs new : list Request.t) (n c : nat) (r : Request.t) :
  r ∈ (gather rs new n c).1 → r ∈ rs.
Proof.
  revert new. induction rs as [|x rs IH]; intros new; simpl; [done|].
  case_bool_decide; simpl; [|done]. intros Hr. right. by apply (IH _ Hr).
Qed.

Lemma promote_requests (p : Private) :
  requests (promote p)
  = (gather (requests p) [] (length (requestsInProgress p)) (requestCount p)).1.
Proof.
  unfold promote. destruct (gather _ _ _ _) as [rs' new].
  pose proof (traverseAll_traversal (ioOptions p) new (set_requests rs' p)) as Ht.
  records.
Qed.

Lemma tick_requests (p : Private) : requests (tick p) = requests (promote p).
Proof.
  unfold tick, delReaders, frameRequests. unsets.
  pose proof (stopReaders_registry_only (finish (promote p))) as Hs.
  transitivity (requests (finish (promote p))); [records|].
  unfold finish. rewrite (finishRequests_eq _ (promote p) (promote p)) by done.
  by unsets.
Qed.

Lemma step_pending_empty (p : Private) (e : Event) :
  (∀ r, r ∈ requests p → Request.layerData r = []) →
  ∀ r, r ∈ requests (step p e) → Request.layerData r = [].
Proof.
  intros Hempty r. destruct e as [t l i| | | | | | |id s|n]; cbn [step];
    try apply Hempty.
  - unfold getFrame. unsets. destruct (stopped p); simpl; unsets; [apply Hempty|].
    intros [Hr|Hr]%elem_of_app; [by apply Hempty|].
    apply list_elem_of_singleton in Hr. by subst r.
  - unfold cancelFrames. unsets. by intros ?%elem_of_nil.
  - rewrite tick_requests, promote_requests. intros Hr%gather_rest. by apply Hempty.
  - unfold readerResolves. destruct (videoFrames p !! id) as [[]|]; unsets; apply Hempty.
Qed.

Lemma run_pending_empty (p : Private) (es : list Event) :
  (∀ r, r ∈ requests p → Request.layerData r = []) →
  ∀ r, r ∈ requests (run p es) → Request.layerData r = [].
Proof.
  revert p. induction es as [|e es IH]; intros p Hempty; [done|].
  unfold run in *. cbn [fold_left]. apply IH. by apply step_pending_empty.
Qed.

(** C8. At any time after the creation of the timeline, a tick is
    [frameRequests], then [stopReaders], then [delReaders]: every read
    dispatched to a reader during the tick is still queued at an open
    reader when the tick ends, and so is every read whose future a
    request promoted in the tick holds in its layers; the eviction that
    follows the dispatch does not stop their readers. *)
Theorem tick_evicts_after_dispatch (context : bool) (path : string)
        (tracks : list StackChild) (duration globalStartTime : RationalTime)
        (es : list Event) :
  let p := run (init context path tracks duration globalStartTime) es in
  tick p = delReaders (stopReaders (frameRequests p))
  ∧ (∀ id, nextVideoFrame p ≤ id < nextVideoFrame (tick p) → queued (tick p) id)
  ∧ ∃ promoted,
      requestsInProgress (promote p) = requestsInProgress p ++ promoted
      ∧ Request.promise <$> promoted
        = Request.promise
            <$> (gather (requests p) [] (length (requestsInProgress p))
                        (requestCount p)).2
      ∧ ∀ r id, r ∈ promoted → uses r id → queued (tick p) id.
Proof.
  intros p. apply tick_keeps_dispatched. apply run_pending_empty.
  simpl. by intros r ?%elem_of_nil.
Qed.

End WithCollaborators.



(** *** Instances of the properties on the examples *)



Lemma stopReaders_evicts_idle_witness :
  readers (@stopReaders examples.layout examples.opened) !! 1%positive
  = Some (examples.clipA, examples.readerA).
Proof.
  assert (readers examples.opened !! 1%positive
          = Some (examples.clipA, examples.readerA)) as Hopen
    by (vm_compute; reflexivity).
  apply (proj2 (proj2 (@stopReaders_evicts_idle examples.layout examples.opened
                         1%positive examples.clipA examples.readerA Hopen))).
  intros [_ Hno]. discriminate Hno.
Defined.



(** C2. The destructor ends the thread, whose last loop assembles a
    frame for every pending request and every request in progress with
    blocking [get()] calls outside any [try]: when a valid layer future
    of a request in progress holds an exception, the exception leaves
    the thread function and the promise of the request is never
    fulfilled, whereas the same request is given a frame by a tick. *)
Theorem destroy_failed_future (eventually : nat → GetResult) :
  requestsInProgress examples.one_failed = [examples.request2]
  ∧ frames examples.one_failed !! Request.promise examples.request2 = Some NotReady
  ∧ destroy eventually examples.one_failed = Terminated examples.shut
  ∧ frames examples.shut !! Request.promise examples.request2 = Some NotReady
  ∧ ∃ frame,
      frames (@tick examples.layout2 examples.system examples.one_failed)
      !! Request.promise examples.request2
      = Some (Value frame).
Proof.
  split; [vm_compute; reflexivity|]. split; [vm_compute; reflexivity|].
  split; [vm_compute; reflexivity|]. split; [vm_compute; reflexivity|].
  eexists. vm_compute. reflexivity.
Qed.

(** *** The order of promotion *)

Lemma fold_insert_in (f : Request.t → Frame.t) (l : list Request.t)
      (m : gmap nat (SharedState Frame.t)) (r : Request.t) :
  r ∈ l →
  ∃ r', r' ∈ l ∧ Request.promise r' = Request.promise r
        ∧ fold_left (λ m r, <[Request.promise r := Value (f r)]> m) l m
          !! Request.promise r = Some (Value (f r')).
Proof.
  revert m. induction l as [|x l IH]; intros m Hin; [by apply elem_of_nil in Hin|].
  cbn [fold_left].
  destruct (fold_insert_lookup f l (<[Request.promise x := Value (f x)]> m)
              (Request.promise r)) as [E|(r' & Hin' & Hid & E)].
  - apply elem_of_cons in Hin as [->|Hin].
    + exists x. split; [by left|]. split; [done|]. by rewrite E, lookup_insert_eq.
    + destruct (IH (<[Request.promise x := Value (f x)]> m) Hin)
        as (r' & Hin' & Hid & E').
      exists r'. split; [by right|]. done.
  - exists r'. split; [by right|]. done.
Qed.

Lemma gather_take (rs new : list Request.t) (n c : nat) :
  let k := length rs `min` (c - (n + length new)) in
  gather rs new n c = (drop k rs, new ++ take k rs).
Proof.
  revert new. induction rs as [|r rs IH]; intros new; cbn [gather].
  - simpl. by rewrite app_nil_r.
  - case_bool_decide as Hlt.
    + rewrite IH. rewrite length_app. cbn [length].
      assert (S (length rs) `min` (c - (n + length new))
        = (S (length rs `min` (c - (n + (length new + 1)))))) as -> by (clear IH; lia).
      cbn [drop take]. by rewrite <- app_assoc.
    + replace (length (r :: rs) `min` (c - (n + length new))) with 0 by (cbn [length]; lia).
      simpl. by rewrite app_nil_r.
Qed.

Section Scheduling.
Context `{Layout} `{System}.

Lemma traverse_asked io request p :
  asked <$> requestsInProgress (traverse io request p)
  = (asked <$> requestsInProgress p) ++ [asked request].
Proof.
  destruct (traverse_inProgress io request p) as [layerData ->].
  by rewrite fmap_app.
Qed.

Lemma traverseAll_asked io new p :
  asked <$> requestsInProgress (traverseAll io new p)
  = (asked <$> requestsInProgress p) ++ (asked <$> new).
Proof.
  revert p. induction new as [|r new IH]; intros p; cbn [traverseAll fold_left].
  - by rewrite app_nil_r.
  - fold (traverseAll io new (traverse io r p)).
    rewrite IH, traverse_asked, fmap_cons, <- app_assoc. done.
Qed.

Lemma promote_asked (p : Private) :
  asked <$> requestsInProgress (promote p)
  = (asked <$> requestsInProgress p) ++ (asked <$> take (promotions p) (requests p)).
Proof.
  unfold promote.
  pose proof (gather_take (requests p) [] (length (requestsInProgress p))
                (requestCount p)) as Hg.
  cbn [length] in Hg. rewrite Nat.add_0_r in Hg. cbv zeta in Hg. rewrite Hg.
  rewrite traverseAll_asked. by unsets.
Qed.

(** The pending requests after a tick. *)
Lemma tick_pending (p : Private) :
  requests (tick p) = drop (promotions p) (requests p).
Proof.
  rewrite tick_requests, promote_requests.
  pose proof (gather_take (requests p) [] (length (requestsInProgress p))
                (requestCount p)) as Hg.
  cbn [length] in Hg. rewrite Nat.add_0_r in Hg. cbv zeta in Hg. by rewrite Hg.
Qed.

(** X1. A tick moves requests from the front of the pending list, in the
    order in which [getFrame] queued them: as many as there are, up to
    the places that the requests in progress leave under [requestCount]
    (none when the budget is used up or zero).  The rest of the pending
    list stays in order, and the requests moved are appended, in order,
    to the requests in progress, each with its time, layer, image and
    promise. *)
Theorem tick_promotes_oldest (p : Private) :
  requests (tick p) = drop (promotions p) (requests p)
  ∧ asked <$> requestsInProgress (promote p)
    = (asked <$> requestsInProgress p) ++ (asked <$> take (promotions p) (requests p)).
Proof.
  split; [apply tick_pending|apply promote_asked].
Qed.



Lemma tick_inProgress (p : Private) :
  requestsInProgress (tick p)
  = filter (λ r, requestReady (promote p) r = false) (requestsInProgress (promote p)).
Proof.
  unfold tick, delReaders, frameRequests. unsets.
  pose proof (stopReaders_registry_only (finish (promote p))) as Hs.
  destruct Hs as (_ & -> & _). apply finish_inProgress.
Qed.

(** A request in progress after the promotion is, after the tick, still
    in progress or fulfilled. *)
Lemma tick_finishes (p : Private) (r : Request.t) :
  r ∈ requestsInProgress (promote p) →
  (requestReady (promote p) r = false ∧ r ∈ requestsInProgress (tick p))
  ∨ (requestReady (promote p) r = true
     ∧ (r ∉ requestsInProgress (tick p))
     ∧ ∃ r', r' ∈ requestsInProgress (promote p)
             ∧ Request.promise r' = Request.promise r
             ∧ frames (tick p) !! Request.promise r
               = Some (Value (frameOf (promote p) r'))).
Proof.
  intros Hin. rewrite tick_inProgress, tick_frames, finish_frames.
  destruct (requestReady (promote p) r) eqn:Hr.
  - right. split; [done|]. split.
    + intros [Hf _]%list_elem_of_filter. congruence.
    + destruct (fold_insert_in (frameOf (promote p))
                  (filter (λ r, requestReady (promote p) r = true)
                          (requestsInProgress (promote p)))
                  (frames (promote p)) r) as (r' & Hin' & Hid & E).
      { by apply list_elem_of_filter. }
      apply list_elem_of_filter in Hin' as [_ Hin']. by exists r'.
  - left. split; [done|]. by apply list_elem_of_filter.
Qed.

(** X2. A tick loses no request: a request that is pending or in progress
    before the tick is, after it, still pending or in progress with the
    same time, layer, image and promise, or its promise has been given a
    frame. *)
Theorem tick_keeps_requests (p : Private) (r : Request.t) :
  r ∈ requests p ++ requestsInProgress p →
  asked r ∈ asked <$> (requests (tick p) ++ requestsInProgress (tick p))
  ∨ ∃ frame, frames (tick p) !! Request.promise r = Some (Value frame).
Proof.
  intros Hin.
  assert (r ∈ requests (tick p) ∨ asked r ∈ asked <$> requestsInProgress (promote p))
    as [Hpending|Hpromoted].
  { rewrite (tick_pending p), (promote_asked p).
    apply elem_of_app in Hin as [Hin|Hin].
    - rewrite <- (take_drop (promotions p) (requests p)) in Hin.
      apply elem_of_app in Hin as [Hin|Hin]; [right|by left].
      apply elem_of_app. right. by apply list_elem_of_fmap_2.
    - right. apply elem_of_app. left. by apply list_elem_of_fmap_2. }
  - left. rewrite fmap_app. apply elem_of_app. left. by apply list_elem_of_fmap_2.
  - apply list_elem_of_fmap in Hpromoted as (r' & Hasked & Hin').
    assert (Request.promise r' = Request.promise r) as Hid.
    { unfold asked in Hasked. by injection Hasked. }
    destruct (tick_finishes p r' Hin') as [[_ Hstay]|(_ & _ & r'' & _ & _ & E)].
    + left. rewrite fmap_app. apply elem_of_app. right. rewrite Hasked.
      by apply list_elem_of_fmap_2.
    + right. rewrite <- Hid. eauto.
Qed.


(** *** A tick resolves what is ready *)

Lemma reading_refl (p : Private) : reading p p.
Proof. by split. Qed.

Lemma reading_trans (p q r : Private) : reading p q → reading q r → reading p r.
Proof.
  intros [Hn1 Hs1] [Hn2 Hs2]. split; [lia|].
  intros id Hid. rewrite Hs2 by lia. by apply Hs1.
Qed.

Lemma dispatch_reading (clip : Clip) (reader : Reader.t) (time : RationalTime)
      (videoLayer : nat) (image : Image) (p : Private) :
  reading p (dispatch clip reader time videoLayer image p).2.
Proof.
  unfold dispatch, reading. simpl. unsets. split; [lia|].
  intros id Hid. apply lookup_insert_ne. lia.
Qed.

Lemma readVideoFrame_reading (track : Track) (clip : Clip) (time : RationalTime)
      (videoLayer : nat) (io : Options) (image : Image) (p : Private) :
  reading p (state_of (readVideoFrame track clip time videoLayer io image p)).
Proof.
  unfold readVideoFrame.
  destruct (context p); [|apply reading_refl].
  destruct (readers p !! clip_addr clip) as [j|].
  - apply dispatch_reading.
  - destruct (read _ _) as [|r|]; try apply reading_refl.
    destruct (negb _); [apply dispatch_reading|apply reading_refl].
Qed.

Lemma reading_ext (p q q' : Private) :
  videoFrames q' = videoFrames q → nextVideoFrame q' = nextVideoFrame q →
  reading p q → reading p q'.
Proof. unfold reading. by intros -> ->. Qed.

Lemma traverse_reading io request p : reading p (traverse io request p).
Proof.
  unfold traverse.
  pose proof (walk_timelineLayers reading reading_refl reading_trans
                readVideoFrame_reading request io (otioTimeline p)
                (Request.layerData request) p) as Hw.
  destruct (timelineLayers _ _ _ _ _) as [[layerData b] p']. simpl in Hw.
  by apply (reading_ext p p').
Qed.

Lemma traverseAll_reading io new p : reading p (traverseAll io new p).
Proof.
  revert p. induction new as [|r new IH]; intros p; simpl.
  - apply reading_refl.
  - eapply reading_trans; [apply traverse_reading|apply IH].
Qed.

Lemma promote_reading (p : Private) : reading p (promote p).
Proof.
  unfold promote. destruct (gather _ _ _ _) as [rs' new].
  pose proof (traverseAll_reading (ioOptions p) new (set_requests rs' p)) as Hd.
  unfold reading in *. by unsets.
Qed.

Lemma requestReady_reading (p q : Private) (r : Request.t) :
  reading p q →
  (∀ id, uses r id → id < nextVideoFrame p) →
  requestReady q r = requestReady p r.
Proof.
  intros [_ Hs] Hold. unfold requestReady.
  assert (∀ j f, j ∈ Request.layerData r →
                 LayerData.image j = f ∨ LayerData.imageB j = f →
                 match f with Some id => is_ready q id | None => true end
                 = match f with Some id => is_ready p id | None => true end) as Hf.
  { intros j [id|] Hj Hid; [|done]. unfold is_ready. rewrite Hs; [done|].
    apply Hold. by exists j. }
  induction (Request.layerData r) as [|j l IH]; [done|]. cbn [forallb].
  rewrite IH.
  2:{ intros j' f Hj'. apply Hf. by right. }
  f_equal. unfold layerReady.
  rewrite (Hf j (LayerData.image j)), (Hf j (LayerData.imageB j)); try done;
    try (by left); by right.
Qed.

Lemma traverseAll_prefix io new p :
  ∃ promoted,
    requestsInProgress (traverseAll io new p) = requestsInProgress p ++ promoted.
Proof.
  revert p. induction new as [|r new IH]; intros p; cbn [traverseAll fold_left].
  - exists []. by rewrite app_nil_r.
  - fold (traverseAll io new (traverse io r p)).
    destruct (IH (traverse io r p)) as [promoted ->].
    destruct (traverse_inProgress io r p) as [layerData ->].
    eexists. by rewrite <- app_assoc.
Qed.

Lemma promote_prefix (p : Private) :
  ∃ promoted, requestsInProgress (promote p) = requestsInProgress p ++ promoted.
Proof.
  unfold promote. destruct (gather _ _ _ _) as [rs' new].
  destruct (traverseAll_prefix (ioOptions p) new (set_requests rs' p)) as [l E].
  exists l. rewrite E. by unsets.
Qed.

(** X3. A request in progress whose valid layer futures, all made before
    the tick, are ready when the tick starts is fulfilled by that tick,
    whatever its place in the list: it leaves the requests in progress
    and its promise holds a frame. *)
Theorem tick_fulfils_ready (p : Private) (r : Request.t) :
  r ∈ requestsInProgress p →
  (∀ id, uses r id → id < nextVideoFrame p) →
  requestReady p r = true →
  (r ∉ requestsInProgress (tick p))
  ∧ ∃ frame, frames (tick p) !! Request.promise r = Some (Value frame).
Proof.
  intros Hin Hold Hready.
  assert (r ∈ requestsInProgress (promote p)) as Hin'.
  { destruct (promote_prefix p) as [l ->]. apply elem_of_app. by left. }
  assert (requestReady (promote p) r = true) as Hready'.
  { by rewrite (requestReady_reading p (promote p) r (promote_reading p) Hold). }
  destruct (tick_finishes p r Hin') as [[Hno _]|(_ & Hout & r' & _ & _ & E)];
    [congruence|].
  split; [exact Hout|]. eauto.
Qed.

(** *** What a tick never changes *)

(** X4. A tick writes none of the members that the public setters and
    [_init] write: the context, the path, the composition, the duration,
    the global start time, the active ranges, [requestCount], the
    timeout, the I/O options, [stopped] and [running] are after the tick
    what they were before. *)
Theorem tick_keeps_configuration (p : Private) :
  configuration (tick p) = configuration p.
Proof.
  unfold tick, delReaders, frameRequests.
  pose proof (stopReaders_registry_only (finish (promote p))) as Hs.
  pose proof (promote_traversal p) as Ht.
  assert (configuration (finish (promote p)) = configuration (promote p)) as Hf.
  { unfold finish. rewrite (finishRequests_eq _ (promote p) (promote p)) by done.
    by unsets. }
  transitivity (configuration (stopReaders (finish (promote p)))).
  { unfold configuration. by unsets. }
  transitivity (configuration (finish (promote p))).
  { unfold configuration. records. }
  rewrite Hf. unfold configuration. records.
Qed.

(** *** The readers that are shutting down *)

Lemma frameRequests_stoppedReaders (p : Private) :
  stoppedReaders (frameRequests p) = stoppedReaders p.
Proof.
  unfold frameRequests, finish.
  rewrite (finishRequests_eq _ (promote p) (promote p)) by done. unsets.
  pose proof (promote_traversal p) as Ht. records.
Qed.

Lemma tick_stoppedReaders (p : Private) :
  stoppedReaders (tick p)
  = filter (λ i, hasStopped i = false)
      (stoppedReaders p
       ++ ((λ e, stop (Reader.read e.2.2))
             <$> filter (λ e, stops (frameRequests p) e.2 = true)
                        (map_to_list (readers (frameRequests p))))).
Proof.
  unfold tick, delReaders. unsets.
  rewrite stopReaders_stopped, frameRequests_stoppedReaders.
  generalize (stoppedReaders p
              ++ ((λ e, stop (Reader.read e.2.2))
                    <$> filter (λ e, stops (frameRequests p) e.2 = true)
                               (map_to_list (readers (frameRequests p))))).
  intros l. induction l as [|i l IH]; [done|]. cbn [List.filter].
  destruct (hasStopped i) eqn:Hi; cbn [negb].
  - rewrite filter_cons_False by congruence. exact IH.
  - rewrite filter_cons_True by done. by rewrite IH.
Qed.

(** X5. A tick drops a reader from the list of stopped readers only when
    [hasStopped()] holds: a reader of the list that has not stopped is
    still there after the tick, no reader that has stopped is left in
    the list, and a reader that the tick removes from the open readers
    is on the list after the tick unless it has stopped already. *)
Theorem tick_destroys_only_stopped (p : Private) :
  (∀ r, r ∈ stoppedReaders p → hasStopped r = false → r ∈ stoppedReaders (tick p))
  ∧ (∀ r, r ∈ stoppedReaders (tick p) → hasStopped r = false)
  ∧ (∀ a clip reader,
       readers (frameRequests p) !! a = Some (clip, reader) →
       readers (tick p) !! a = None →
       hasStopped (Reader.read reader) = false →
       stop (Reader.read reader) ∈ stoppedReaders (tick p)).
Proof.
  rewrite tick_stoppedReaders. split; [|split].
  - intros r Hr Hs. apply list_elem_of_filter. split; [done|].
    apply elem_of_app. by left.
  - by intros r [Hs _]%list_elem_of_filter.
  - intros a clip reader Ha Hgone Hs.
    apply list_elem_of_filter. split; [done|]. apply elem_of_app. right.
    apply list_elem_of_fmap. exists (a, (clip, reader)). split; [done|].
    apply list_elem_of_filter. split; [|by apply elem_of_map_to_list].
    unfold tick, delReaders in Hgone. unsets.
    rewrite stopReaders_readers, Ha in Hgone.
    simpl. by destruct (stops (frameRequests p) (clip, reader)).
Qed.

End Scheduling.

(** *** Cancellation *)

(** X6. [cancelFrames] touches the pending requests only: the requests in
    progress stay as they are, and the shared state of a promise that
    belongs to no pending request is not changed. *)
Theorem cancelFrames_spares_promoted (p : Private) (id : nat) :
  id ∉ Request.promise <$> requests p →
  requestsInProgress (cancelFrames p) = requestsInProgress p
  ∧ frames (cancelFrames p) !! id = frames p !! id.
Proof.
  intros Hid. unfold cancelFrames. unsets. split; [done|].
  induction (requests p) as [|r rs IH]; [done|]. cbn [foldr].
  rewrite fmap_cons in Hid. apply not_elem_of_cons in Hid as [Hne Hid].
  rewrite abandon_lookup, decide_False by done. by apply IH.
Qed.

(** *** Times at one rate *)

Local Open Scope Q_scope.

Lemma Qlt_bool_true (x y : Q) : Qlt_bool x y = true ↔ x < y.
Proof.
  unfold Qlt_bool. rewrite negb_true_iff. split.
  - intros E. apply Qnot_le_lt. intros Hle. apply Qle_bool_iff in Hle. congruence.
  - intros Hlt. destruct (Qle_bool y x) eqn:E; [|done].
    apply Qle_bool_iff in E. by apply Qlt_not_le in Hlt.
Qed.

Lemma Qlt_bool_irrefl (x : Q) : Qlt_bool x x = false.
Proof. unfold Qlt_bool. apply negb_false_iff, Qle_bool_iff, Qle_refl. Qed.

Lemma inject_Z_minus (x y : Z) : inject_Z x - inject_Z y == inject_Z (x - y).
Proof.
  unfold Qminus, Z.sub. by rewrite inject_Z_plus, inject_Z_opp.
Qed.

Lemma Qdiv_lt_r (x y r : Q) : 0 < r → x / r < y / r ↔ x < y.
Proof.
  intros Hr. unfold Qdiv. apply Qmult_lt_r. by apply Qinv_lt_0_compat.
Qed.

Lemma Qdiv_le_r (x y r : Q) : 0 < r → x / r <= y / r ↔ x <= y.
Proof.
  intros Hr. unfold Qdiv. apply Qmult_le_r. by apply Qinv_lt_0_compat.
Qed.

Lemma value_rescaled_to_same (t : RationalTime) : value_rescaled_to t (rate t) = value t.
Proof. unfold value_rescaled_to. by rewrite Qeq_bool_refl. Qed.

Lemma sub_same_rate (a b : RationalTime) :
  rate b = rate a → sub a b = mkTime (value a - value b) (rate a).
Proof.
  intros E. unfold sub. rewrite E, Qlt_bool_irrefl, <- E.
  by rewrite value_rescaled_to_same, E.
Qed.

Lemma add_same_rate (a b : RationalTime) :
  rate b = rate a → add a b = mkTime (value b + value a) (rate a).
Proof.
  intros E. unfold add. rewrite E, Qlt_bool_irrefl, <- E.
  by rewrite value_rescaled_to_same, E.
Qed.

Lemma lt_same_rate (a b : RationalTime) :
  0 < rate a → rate b = rate a → lt a b = true ↔ value a < value b.
Proof.
  intros Hr E. unfold lt, to_seconds. rewrite Qlt_bool_true, E. by apply Qdiv_lt_r.
Qed.

Lemma gt_same_rate (a b : RationalTime) :
  0 < rate a → rate b = rate a → gt a b = true ↔ value b < value a.
Proof.
  intros Hr E. unfold gt, to_seconds. rewrite Qlt_bool_true, E. by apply Qdiv_lt_r.
Qed.

Lemma le_same_rate (a b : RationalTime) :
  0 < rate a → rate b = rate a → le a b = true ↔ value a <= value b.
Proof.
  intros Hr E. unfold le, to_seconds. rewrite Qle_bool_iff, E. by apply Qdiv_le_r.
Qed.

Lemma end_time_exclusive_framed (r : Q) (range : TimeRange) :
  rate (start_time range) = r → rate (otime.duration range) = r →
  end_time_exclusive range
  = mkTime (value (start_time range) + value (otime.duration range)) r.
Proof.
  intros Hs Hd. unfold end_time_exclusive, rescaled_to.
  rewrite add_same_rate by done. cbn [value rate]. rewrite Hd, <- Hs.
  by rewrite value_rescaled_to_same.
Qed.

Lemma end_time_inclusive_framed (r : Q) (range : TimeRange) :
  framed r range →
  rate (end_time_inclusive range) = r
  ∧ value (end_time_inclusive range)
    == value (start_time range) + value (otime.duration range) - 1.
Proof.
  intros (Hs & Hd & n & Hn & En). unfold end_time_inclusive.
  rewrite (end_time_exclusive_framed r) by done.
  unfold rescaled_to. rewrite Hd, <- Hs, value_rescaled_to_same.
  rewrite sub_same_rate by done. cbn [value rate].
  assert (Qeq_bool (value (otime.duration range)) (inject_Z (Qfloor (value (otime.duration range))))
          = true) as ->.
  { apply Qeq_bool_iff. rewrite En at 2. rewrite Qfloor_Z. exact En. }
  destruct (Qlt_bool 1 _) eqn:E.
  - rewrite sub_same_rate by (cbn [rate]; congruence). cbn [value rate].
    split; [done|]. reflexivity.
  - split; [done|].
    assert (¬ 1 < value (start_time range) + value (otime.duration range)
                  - value (start_time range)) as Hno.
    { intros Hlt%Qlt_bool_true. congruence. }
    assert (1 <= inject_Z n) as Hone.
    { change 1 with (inject_Z 1). rewrite <- Zle_Qle. exact Hn. }
    rewrite En in *. lra.
Qed.

Lemma contains_framed (r : Q) (range : TimeRange) (time : RationalTime) :
  0 < r → rate (start_time range) = r → rate (otime.duration range) = r →
  rate time = r →
  contains range time = true
  ↔ value (start_time range) <= value time
    ∧ value time < value (start_time range) + value (otime.duration range).
Proof.
  intros Hr Hs Hd Ht. unfold contains. rewrite andb_true_iff.
  rewrite le_same_rate by congruence.
  rewrite (end_time_exclusive_framed r) by done.
  rewrite lt_same_rate by (cbn [rate]; congruence). done.
Qed.

Ltac push_inject :=
  repeat (rewrite inject_Z_plus || rewrite <- inject_Z_minus);
  change (inject_Z 1) with 1.

Lemma Qdiv_whole (x y : Q) (n m : Z) :
  x == inject_Z n → y == inject_Z m → x / y == inject_Z n / inject_Z m.
Proof. by intros -> ->. Qed.

Lemma whole_framed (range : TimeRange) (s d r : Z) :
  whole (start_time range) s r → whole (otime.duration range) d r → (1 ≤ d)%Z →
  framed (inject_Z r) range.
Proof.
  intros [_ Hs] [Hd Hrd] Hone. split; [done|]. split; [done|]. by exists d.
Qed.

Lemma whole_handles_handles (r : Z) (tr : otio.Transition) (i o : Z) :
  whole_handles r tr i o → handles (inject_Z r) tr.
Proof.
  intros ([Hi Hri] & [Ho Hro] & Hi0 & Ho0 & _).
  split; [done|]. split; [done|]. rewrite Hi, Ho.
  split; change 0 with (inject_Z 0); by rewrite <- Zle_Qle.
Qed.

Lemma phase_out_whole (range : TimeRange) (time : RationalTime)
      (tr : otio.Transition) (r s d t i o : Z) :
  (0 < r)%Z →
  whole (start_time range) s r → whole (otime.duration range) d r → (1 ≤ d)%Z →
  whole time t r → whole_handles r tr i o →
  contains range time = true →
  gt time (sub (end_time_inclusive range) (in_offset tr)) = true →
  ∃ n : Z,
    (1 ≤ n ≤ i + o)%Z
    ∧ transitionValue
        (value time)
        (value (end_time_inclusive range) - value (in_offset tr))
        (value (end_time_inclusive range) + value (out_offset tr) + 1)
      == inject_Z n / inject_Z (i + o + 1).
Proof.
  intros Hr Hs Hd Hone Ht Hh Hc Hgt.
  assert (0 < inject_Z r) as HrQ.
  { change 0 with (inject_Z 0). by rewrite <- Zlt_Qlt. }
  pose proof (whole_framed range s d r Hs Hd Hone) as Hf.
  destruct (end_time_inclusive_framed _ range Hf) as [Her He].
  destruct Hs as [Hs Hrs], Hd as [Hd Hrd], Ht as [Ht Hrt].
  destruct Hh as ([Hi Hri] & [Ho Hro] & Hi0 & Ho0 & _).
  apply (contains_framed (inject_Z r)) in Hc as [_ Hc]; try done.
  rewrite sub_same_rate in Hgt by congruence.
  apply gt_same_rate in Hgt; [|congruence|cbn [rate]; congruence].
  cbn [value] in Hgt. rewrite He, Hs, Hd, Hi, Ht in Hgt. rewrite Hs, Hd, Ht in Hc.
  exists (t - (s + d - 1) + i)%Z. split.
  - split.
    + assert (s + d - 1 - i < t)%Z; [|lia]. rewrite Zlt_Qlt.
      push_inject. lra.
    + assert (t < s + d)%Z; [|lia]. rewrite Zlt_Qlt.
      rewrite inject_Z_plus. lra.
  - unfold transitionValue. apply Qdiv_whole.
    + rewrite He, Hs, Hd, Hi, Ht. push_inject. ring.
    + rewrite He, Hs, Hd, Hi, Ho. push_inject. ring.
Qed.

Lemma phase_in_whole (range : TimeRange) (time : RationalTime)
      (tr : otio.Transition) (r s t i o : Z) :
  (0 < r)%Z →
  whole (start_time range) s r → whole time t r → whole_handles r tr i o →
  le (start_time range) time = true →
  lt time (add (start_time range) (out_offset tr)) = true →
  ∃ n : Z,
    (1 ≤ n ≤ i + o)%Z
    ∧ transitionValue
        (value time)
        (value (start_time range) - value (in_offset tr) - 1)
        (value (start_time range) + value (out_offset tr))
      == inject_Z n / inject_Z (i + o + 1).
Proof.
  intros Hr [Hs Hrs] [Ht Hrt] ([Hi Hri] & [Ho Hro] & Hi0 & Ho0 & _) Hle Hlt.
  assert (0 < inject_Z r) as HrQ.
  { change 0 with (inject_Z 0). by rewrite <- Zlt_Qlt. }
  apply le_same_rate in Hle; [|congruence|congruence].
  rewrite add_same_rate in Hlt by congruence.
  apply lt_same_rate in Hlt; [|congruence|cbn [rate]; congruence].
  cbn [value] in Hlt. rewrite Hs, Ho, Ht in Hlt. rewrite Hs, Ht in Hle.
  exists (t - s + i + 1)%Z. split.
  - split.
    + assert (s ≤ t)%Z; [|lia]. by rewrite Zle_Qle.
    + assert (t < o + s)%Z; [|lia]. rewrite Zlt_Qlt. by rewrite inject_Z_plus.
  - unfold transitionValue. apply Qdiv_whole.
    + rewrite Hs, Hi, Ht. push_inject. ring.
    + rewrite Hs, Hi, Ho. push_inject. ring.
Qed.

Lemma phase_inside (v : Q) (n m : Z) :
  (1 ≤ n ≤ m)%Z → v == inject_Z n / inject_Z (m + 1) → 0 < v ∧ v < 1.
Proof.
  intros [Hn Hm] ->.
  assert (0 < inject_Z (m + 1)) as Hpos.
  { change 0 with (inject_Z 0). rewrite <- Zlt_Qlt. lia. }
  split.
  - apply Qlt_shift_div_l; [done|]. rewrite Qmult_0_l.
    change 0 with (inject_Z 0). rewrite <- Zlt_Qlt. lia.
  - apply Qlt_shift_div_r; [done|]. rewrite Qmult_1_l. rewrite <- Zlt_Qlt. lia.
Qed.

Section Dissolve.
Context `{Layout} `{System}.

Lemma transitionOut_cases request io track second range time
      (data data' : LayerData.t) (p p' : Private) :
  transitionOut request io track second range time data p = Ok data' p' →
  (LayerData.transition data' = LayerData.transition data
   ∧ LayerData.transitionValue data' = LayerData.transitionValue data)
  ∨ ∃ tr, second = Some (ATransition tr)
          ∧ gt time (sub (end_time_inclusive range) (in_offset tr)) = true
          ∧ LayerData.transitionValue data'
            = transitionValue
                (value time)
                (value (end_time_inclusive range) - value (in_offset tr))
                (value (end_time_inclusive range) + value (out_offset tr) + 1).
Proof.
  intros Hout. destruct second as [[| |tr]|]; try (injection Hout as <- <-; by left).
  destruct (gt time (sub (end_time_inclusive range) (in_offset tr))) eqn:Hgt.
  - right. exists tr. split; [done|]. split; [done|].
    by destruct (transitionOut_fires _ _ _ _ _ _ _ _ _ _ Hgt Hout) as (_ & _ & ? & _).
  - left. rewrite transitionOut_idle in Hout.
    + by injection Hout as <- <-.
    + by intros tr' [= <-].
Qed.

Lemma transitionIn_cases request io track first range time
      (data data' : LayerData.t) (p p' : Private) :
  transitionIn request io track first range time data p = Ok data' p' →
  (LayerData.transition data' = LayerData.transition data
   ∧ LayerData.transitionValue data' = LayerData.transitionValue data)
  ∨ ∃ tr, first = Some (ATransition tr)
          ∧ lt time (add (start_time range) (out_offset tr)) = true
          ∧ LayerData.transitionValue data'
            = transitionValue
                (value time)
                (value (start_time range) - value (in_offset tr) - 1)
                (value (start_time range) + value (out_offset tr)).
Proof.
  intros Hin. destruct first as [[| |tr]|]; try (injection Hin as <- <-; by left).
  destruct (lt time (add (start_time range) (out_offset tr))) eqn:Hlt.
  - right. exists tr. split; [done|]. split; [done|].
    by destruct (transitionIn_fires _ _ _ _ _ _ _ _ _ _ Hlt Hin) as (_ & _ & ? & _).
  - left. rewrite transitionIn_idle in Hin.
    + by injection Hin as <- <-.
    + by intros tr' [= <-].
Qed.

Lemma readItem_transition request io track k time (data data' : LayerData.t)
      (p p' : Private) :
  readItem request io track k time data p = Ok data' p' →
  LayerData.transition data' = LayerData.transition data
  ∧ LayerData.transitionValue data' = LayerData.transitionValue data.
Proof.
  unfold readItem. destruct k as [clip| |]; try (by intros [= <- <-]).
  unfold bind, ret. destruct (readVideoFrame _ _ _ _ _ _ _) as [f q|q]; [|done].
  by intros [= <- <-].
Qed.

(** The layer of an item, step by step. *)
Lemma itemLayer_steps request io track (k : Composable) range
      (data : LayerData.t) (p p' : Private) :
  trimmed_range_in_parent track k = Some range →
  itemLayer request io track k p = Ok (Some data) p' →
  let time := sub (Request.time request) (globalStartTime p) in
  let neighbors := neighbors_of track (addr k) in
  contains range time = true
  ∧ ∃ data0 p1 data1 p2,
      readItem request io track k time LayerData.default p = Ok data0 p1
      ∧ transitionOut request io track neighbors.2 range time data0 p1 = Ok data1 p2
      ∧ transitionIn request io track neighbors.1 range time data1 p2 = Ok data p'.
Proof.
  intros Hrange Hitem.
  assert (match trimmed_range_in_parent track k with
          | Some range =>
              let time := sub (Request.time request) (globalStartTime p) in
              if contains range time then
                let neighbors := neighbors_of track (addr k) in
                (data ←: readItem request io track k time LayerData.default ;;
                 data ←: transitionOut request io track neighbors.2 range time data ;;
                 data ←: transitionIn request io track neighbors.1 range time data ;;
                 ret (Some data)) p
              else Ok None p
          | None => Ok None p
          end = Ok (Some data) p') as Hbody.
  { by destruct k. }
  clear Hitem. rewrite Hrange in Hbody. cbv zeta in *.
  destruct (contains _ _); [|done]. split; [done|].
  unfold bind, ret in Hbody.
  destruct (readItem _ _ _ _ _ _ p) as [data0 p1|] eqn:E1; [|done].
  destruct (transitionOut _ _ _ _ _ _ _ p1) as [data1 p2|] eqn:E2; [|done].
  destruct (transitionIn _ _ _ _ _ _ _ p2) as [data2 p3|] eqn:E3; [|done].
  injection Hbody as <- <-. by exists data0, p1, data1, p2.
Qed.


(** At one rate the phase of three times is the quotient of the
    differences of their values. *)
Lemma phase_at_rate (r : Q) (t a b : RationalTime) :
  ¬ r == 0 → rate t = r → rate a = r → rate b = r →
  phase t a b == transitionValue (value t) (value a) (value b).
Proof.
  intros Hr Ht Ha Hb. unfold phase, transitionValue, to_seconds.
  rewrite Ht, Ha, Hb.
  destruct (Qeq_dec (value b - value a) 0) as [E|E].
  - assert (value b / r - value a / r == 0) as ->.
    { transitivity ((value b - value a) / r); [field; exact Hr|].
      rewrite E. unfold Qdiv. ring. }
    rewrite E. unfold Qdiv. change (/ 0) with 0. ring.
  - field. split; [exact E|exact Hr].
Qed.

Lemma end_time_inclusive_rate (r : Q) (range : TimeRange) :
  rate (start_time range) = r → rate (otime.duration range) = r →
  rate (end_time_inclusive range) = r.
Proof.
  intros Hs Hd. unfold end_time_inclusive.
  rewrite (end_time_exclusive_framed r) by done.
  destruct (Qlt_bool 1 _); [|done].
  destruct (Qeq_bool _ _); [|done].
  rewrite sub_same_rate by (cbn [rate]; congruence). done.
Qed.

Lemma gt_same_instant (a b : RationalTime) :
  to_seconds a == to_seconds b → gt a b = false.
Proof.
  intros E. unfold gt, Qlt_bool. apply negb_false_iff, Qle_bool_iff.
  rewrite E. apply Qle_refl.
Qed.

Lemma lt_same_instant (a b : RationalTime) :
  to_seconds a == to_seconds b → lt a b = false.
Proof.
  intros E. unfold lt, Qlt_bool. apply negb_false_iff, Qle_bool_iff.
  rewrite E. apply Qle_refl.
Qed.

(** C3 (amended). For a clip whose trimmed range in the track contains
    the track time and for which a layer is made, the track time, the
    range and the offsets of the transitions being at one rate: if the
    neighbor on the right is a transition, the time is after the
    inclusive end less the in-offset, and the condition of the neighbor
    on the left does not hold at that time, the layer has the kind of
    the transition, the phase (t - a)/(b - a) with a = end - inOffset and
    b = end + outOffset + one frame, the clip as primary image and, as
    secondary image, the read of the clip on the right of the
    transition at the same track time; if the neighbor on the left is a
    transition and the time is before the start plus its out-offset, the
    clip's own read is the secondary image, the primary image is the
    read of the clip on the left of the transition, and the phase uses
    a = start - inOffset - one frame and b = start + outOffset. *)
Theorem clip_layer_transitions request io track (clip : Clip) range
        (data : LayerData.t) (p p' : Private) (r : Q) :
  trimmed_range_in_parent track (AClip clip) = Some range →
  itemLayer request io track (AClip clip) p = Ok (Some data) p' →
  let time := sub (Request.time request) (globalStartTime p) in
  let neighbors := neighbors_of track (clip_addr clip) in
  0 < r →
  rate time = r →
  rate (start_time range) = r → rate (otime.duration range) = r →
  contains range time = true
  ∧ (∀ tr,
       neighbors.2 = Some (ATransition tr) →
       rate (in_offset tr) = r → rate (out_offset tr) = r →
       gt time (sub (end_time_inclusive range) (in_offset tr)) = true →
       (∀ tl, neighbors.1 = Some (ATransition tl) →
              lt time (add (start_time range) (out_offset tl)) = false) →
       LayerData.transition data = toTransition (transition_type tr)
       ∧ LayerData.transitionValue data
         == phase time
              (sub (end_time_inclusive range) (in_offset tr))
              (add (add (end_time_inclusive range) (out_offset tr)) (oneFrame r))
       ∧ ∃ p1,
           readVideoFrame track clip time (Request.videoLayer request) io
                          (Request.image request) p
           = Ok (LayerData.image data) p1
           ∧ ∀ clipB,
               (neighbors_of track (transition_addr tr)).2 = Some (AClip clipB) →
               readVideoFrame track clipB time (Request.videoLayer request) io None p1
               = Ok (LayerData.imageB data) p')
  ∧ (∀ tl,
       neighbors.1 = Some (ATransition tl) →
       rate (in_offset tl) = r → rate (out_offset tl) = r →
       lt time (add (start_time range) (out_offset tl)) = true →
       LayerData.transition data = toTransition (transition_type tl)
       ∧ LayerData.transitionValue data
         == phase time
              (sub (sub (start_time range) (in_offset tl)) (oneFrame r))
              (add (start_time range) (out_offset tl))
       ∧ ∃ p1 p2,
           readVideoFrame track clip time (Request.videoLayer request) io
                          (Request.image request) p
           = Ok (LayerData.imageB data) p1
           ∧ ∀ clipA,
               (neighbors_of track (transition_addr tl)).1 = Some (AClip clipA) →
               readVideoFrame track clipA time (Request.videoLayer request) io None p2
               = Ok (LayerData.image data) p').
Proof.
  intros Hrange Hitem time neighbors Hr Ht Hs Hd.
  assert (¬ r == 0) as Hr0 by (intros E; rewrite E in Hr; by apply Qlt_irrefl in Hr).
  pose proof (end_time_inclusive_rate r range Hs Hd) as He.
  destruct (itemLayer_clip _ _ _ _ _ _ _ _ Hrange Hitem)
    as (Hc & own & p1 & data1 & p2 & Hown & Hout & Hin).
  fold time in Hown, Hout, Hin. fold neighbors in Hout, Hin.
  split; [exact Hc|]. split.
  - intros tr Hsecond Hi Ho Hgt Hleft.
    rewrite (transitionIn_idle _ _ _ _ _ _ _ _ Hleft) in Hin.
    injection Hin as <- <-. rewrite Hsecond in Hout.
    destruct (transitionOut_fires _ _ _ _ _ _ _ _ _ _ Hgt Hout)
      as (Himage & Hkind & Hvalue & HB).
    split; [exact Hkind|]. split.
    + rewrite Hvalue, (phase_at_rate r); try done.
      * rewrite sub_same_rate by congruence.
        rewrite (add_same_rate (end_time_inclusive range)) by congruence.
        rewrite add_same_rate by (cbn [rate oneFrame]; congruence).
        cbn [value oneFrame]. unfold transitionValue.
        assert (1 + (value (out_offset tr) + value (end_time_inclusive range))
                == value (end_time_inclusive range) + value (out_offset tr) + 1)
          as -> by ring.
        reflexivity.
      * rewrite sub_same_rate by congruence. done.
      * rewrite (add_same_rate (end_time_inclusive range)) by congruence.
        rewrite add_same_rate by (cbn [rate oneFrame]; congruence).
        cbn [rate]. done.
    + exists p1. rewrite Himage. split; [exact Hown|].
      intros clipB HclipB. by rewrite HclipB in HB.
  - intros tl Hfirst Hi Ho Hlt. rewrite Hfirst in Hin.
    destruct (transitionIn_fires _ _ _ _ _ _ _ _ _ _ Hlt Hin)
      as (HimageB & Hkind & Hvalue & HA).
    split; [exact Hkind|]. split.
    + rewrite Hvalue, (phase_at_rate r); try done.
      * rewrite (sub_same_rate (start_time range)) by congruence.
        rewrite sub_same_rate by (cbn [rate oneFrame]; congruence).
        rewrite add_same_rate by congruence.
        cbn [value oneFrame]. unfold transitionValue.
        assert (value (out_offset tl) + value (start_time range)
                == value (start_time range) + value (out_offset tl))
          as -> by ring.
        reflexivity.
      * rewrite (sub_same_rate (start_time range)) by congruence.
        rewrite sub_same_rate by (cbn [rate oneFrame]; congruence).
        cbn [rate]. done.
      * rewrite add_same_rate by congruence. done.
    + exists p1, p2. rewrite HimageB, (transitionOut_image _ _ _ _ _ _ _ _ _ _ Hout).
      split; [exact Hown|].
      intros clipA HclipA. by rewrite HclipA in HA.
Qed.

(** C4 (amended). At the instant end - inOffset the guard of the
    transition on the right does not hold, and at the instant
    start + outOffset of the clip after the transition (end + outOffset
    + 1 of the clip before it) the guard of the transition on the left
    does not hold: when the transition on the other side does not apply
    either, the layer made at either boundary has no transition and the
    default phase 0.  The phase formula itself, which is not evaluated
    there, is 0 at its first bound and 1 at its second bound. *)
Theorem boundary_layers request io track (clip : Clip) range
        (tr : otio.Transition) (data : LayerData.t) (p p' : Private) :
  trimmed_range_in_parent track (AClip clip) = Some range →
  itemLayer request io track (AClip clip) p = Ok (Some data) p' →
  let time := sub (Request.time request) (globalStartTime p) in
  let neighbors := neighbors_of track (clip_addr clip) in
  (neighbors.2 = Some (ATransition tr) →
   (∀ tl, neighbors.1 = Some (ATransition tl) →
          lt time (add (start_time range) (out_offset tl)) = false) →
   to_seconds time
   == to_seconds (sub (end_time_inclusive range) (in_offset tr)) →
   LayerData.transition data = Transition_None
   ∧ LayerData.transitionValue data = 0)
  ∧ (neighbors.1 = Some (ATransition tr) →
     (∀ tn, neighbors.2 = Some (ATransition tn) →
            gt time (sub (end_time_inclusive range) (in_offset tn)) = false) →
     to_seconds time == to_seconds (add (start_time range) (out_offset tr)) →
     LayerData.transition data = Transition_None
     ∧ LayerData.transitionValue data = 0)
  ∧ ∀ a b : Q,
      transitionValue a a b == 0
      ∧ (¬ a == b → transitionValue b a b == 1).
Proof.
  intros Hrange Hitem time neighbors.
  destruct (itemLayer_clip _ _ _ _ _ _ _ _ Hrange Hitem)
    as (Hc & own & p1 & data1 & p2 & Hown & Hout & Hin).
  fold time in Hown, Hout, Hin. fold neighbors in Hout, Hin.
  split; [|split; [|apply transitionValue_ends]].
  - intros Hsecond Hleft Htime.
    rewrite (transitionIn_idle _ _ _ _ _ _ _ _ Hleft) in Hin.
    injection Hin as <- <-.
    rewrite transitionOut_idle in Hout.
    + by injection Hout as <- <-.
    + intros tr' Htr'. rewrite Hsecond in Htr'. injection Htr' as <-.
      by apply gt_same_instant.
  - intros Hfirst Hright Htime.
    rewrite (transitionOut_idle _ _ _ _ _ _ _ _ Hright) in Hout.
    injection Hout as <- <-.
    rewrite transitionIn_idle in Hin.
    + by injection Hin as <- <-.
    + intros tr' Htr'. rewrite Hfirst in Htr'. injection Htr' as <-.
      by apply lt_same_instant.
Qed.

(** X9. In a track whose times are whole frames at one whole rate, with
    transitions whose offsets are whole, not negative and together
    shorter than 2^24 frames, the layer of an item is either left
    without transition, with the phase 0, or carries the phase
    n / (inOffset + outOffset + 1) of one of its transitions, for a whole
    n from 1 to inOffset + outOffset: the phase of a layer with a
    transition is never 0 and never 1. *)
Theorem dissolve_phase_open request io track (k : Composable) range
        (data : LayerData.t) (p p' : Private) (r s d t : Z) :
  (0 < r)%Z →
  trimmed_range_in_parent track k = Some range →
  itemLayer request io track k p = Ok (Some data) p' →
  whole (start_time range) s r → whole (otime.duration range) d r → (1 ≤ d)%Z →
  whole (sub (Request.time request) (globalStartTime p)) t r →
  (∀ tr, (neighbors_of track (addr k)).1 = Some (ATransition tr)
         ∨ (neighbors_of track (addr k)).2 = Some (ATransition tr) →
         ∃ i o, whole_handles r tr i o) →
  (LayerData.transition data = Transition_None
   ∧ LayerData.transitionValue data = 0)
  ∨ (∃ tr i o n,
       ((neighbors_of track (addr k)).1 = Some (ATransition tr)
        ∨ (neighbors_of track (addr k)).2 = Some (ATransition tr))
       ∧ whole_handles r tr i o
       ∧ (1 ≤ n ≤ i + o)%Z
       ∧ LayerData.transitionValue data == inject_Z n / inject_Z (i + o + 1))
    ∧ 0 < LayerData.transitionValue data
    ∧ LayerData.transitionValue data < 1.
Proof.
  intros Hr Hrange Hitem Hs Hd Hone Ht Hh.
  destruct (itemLayer_steps _ _ _ _ _ _ _ _ Hrange Hitem)
    as (Hc & data0 & p1 & data1 & p2 & Hown & Hout & Hin).
  apply readItem_transition in Hown as [Hk0 Hv0]. cbn in Hk0, Hv0.
  destruct (transitionIn_cases _ _ _ _ _ _ _ _ _ _ Hin)
    as [[Hk2 Hv2]|(tl & Hfirst & Hlt & Hv2)].
  - destruct (transitionOut_cases _ _ _ _ _ _ _ _ _ _ Hout)
      as [[Hk1 Hv1]|(tr & Hsecond & Hgt & Hv1)].
    + left. split; congruence.
    + right. destruct (Hh tr (or_intror Hsecond)) as (i & o & Hio).
      destruct (phase_out_whole range (sub (Request.time request) (globalStartTime p))
                  tr r s d t i o) as (n & Hn & Hv); try done.
      rewrite Hv2, Hv1. split.
      * exists tr, i, o, n. split; [by right|]. done.
      * by apply (phase_inside _ n (i + o)).
  - right. destruct (Hh tl (or_introl Hfirst)) as (i & o & Hio).
    destruct (phase_in_whole range (sub (Request.time request) (globalStartTime p))
                tl r s t i o) as (n & Hn & Hv); try done.
    { unfold contains in Hc. by apply andb_prop in Hc as [? _]. }
    rewrite Hv2. split.
    + exists tl, i, o, n. split; [by left|]. done.
    + by apply (phase_inside _ n (i + o)).
Qed.

(** X10. The two halves of a transition use one phase function: when
    the item after the transition starts where the item before it ends
    (whole frames at one rate), the phase computed on the incoming side
    at a time and the phase computed on the outgoing side at another
    differ by the difference of the times over inOffset + outOffset + 1;
    in particular the phase advances from the last frame of the outgoing
    item to the first frame of the incoming one by the same step as
    between two frames of one item. *)
Theorem dissolve_phase_continuous request io track (tr : otio.Transition)
        (rangeA rangeB : TimeRange) (r : Q) (tA tB : RationalTime)
        (dataA dataA' dataB dataB' : LayerData.t) (pA pA' pB pB' : Private) :
  framed r rangeA →
  value (start_time rangeB)
  == value (start_time rangeA) + value (otime.duration rangeA) →
  handles r tr →
  gt tA (sub (end_time_inclusive rangeA) (in_offset tr)) = true →
  transitionOut request io track (Some (ATransition tr)) rangeA tA dataA pA
  = Ok dataA' pA' →
  lt tB (add (start_time rangeB) (out_offset tr)) = true →
  transitionIn request io track (Some (ATransition tr)) rangeB tB dataB pB
  = Ok dataB' pB' →
  LayerData.transitionValue dataB' - LayerData.transitionValue dataA'
  == (value tB - value tA) / (value (in_offset tr) + value (out_offset tr) + 1).
Proof.
  intros Hf Hnext (Hi & Ho & Hin & Hout) Hgt HA Hlt HB.
  destruct (transitionOut_fires _ _ _ _ _ _ _ _ _ _ Hgt HA) as (_ & _ & -> & _).
  destruct (transitionIn_fires _ _ _ _ _ _ _ _ _ _ Hlt HB) as (_ & _ & -> & _).
  destruct (end_time_inclusive_framed r rangeA Hf) as [_ He].
  unfold transitionValue. rewrite He, Hnext. field. lra.
Qed.

End Dissolve.

Local Close Scope Q_scope.

(** *** One layer for each item *)

Section Layers.
Context `{Layout} `{System}.

Lemma itemLayer_shown request io track k p :
  match itemLayer request io track k p with
  | Ok (Some _) _ | Throw _ =>
      shown track k (sub (Request.time request) (globalStartTime p)) = true
  | Ok None _ =>
      shown track k (sub (Request.time request) (globalStartTime p)) = false
  end.
Proof.
  assert (∀ k', k' = k →
    match
      match trimmed_range_in_parent track k' with
      | Some range =>
          let time := sub (Request.time request) (globalStartTime p) in
          if contains range time then
            let neighbors := neighbors_of track (addr k') in
            (data ←: readItem request io track k' time LayerData.default ;;
             data ←: transitionOut request io track neighbors.2 range time data ;;
             data ←: transitionIn request io track neighbors.1 range time data ;;
             ret (Some data)) p
          else Ok None p
      | None => Ok None p
      end
    with
    | Ok (Some _) _ | Throw _ =>
        match trimmed_range_in_parent track k' with
        | Some range => contains range (sub (Request.time request) (globalStartTime p))
        | None => false
        end = true
    | Ok None _ =>
        match trimmed_range_in_parent track k' with
        | Some range => contains range (sub (Request.time request) (globalStartTime p))
        | None => false
        end = false
    end) as Hbody.
  { intros k' _. destruct (trimmed_range_in_parent track k') as [range|]; [|done].
    cbv zeta. destruct (contains _ _); [|done].
    unfold bind, ret.
    destruct (readItem _ _ _ _ _ _ _) as [d1 q1|]; [|done].
    destruct (transitionOut _ _ _ _ _ _ _ _) as [d2 q2|]; [|done].
    by destruct (transitionIn _ _ _ _ _ _ _ _) as [d3 q3|]. }
  destruct k; try (by apply Hbody). done.
Qed.

Lemma itemLayer_globalStartTime request io track k p :
  globalStartTime (state_of (itemLayer request io track k p)) = globalStartTime p.
Proof.
  pose proof (walk_itemLayer reads_only reads_only_refl reads_only_trans
                readVideoFrame_reads_only request io track k p) as Hw.
  records.
Qed.

Lemma trackLayers_count request io track ks layerData p :
  let time := sub (Request.time request) (globalStartTime p) in
  let out := trackLayers request io track ks layerData p in
  globalStartTime out.2 = globalStartTime p
  ∧ length out.1.1
    ≤ length layerData + length (List.filter (λ k, shown track k time) ks)
  ∧ (out.1.2 = false →
     length out.1.1
     = length layerData + length (List.filter (λ k, shown track k time) ks)).
Proof.
  cbv zeta. revert layerData p.
  induction ks as [|k ks IH]; intros layerData p; cbn [trackLayers List.filter].
  - simpl. split; [done|]. split; [lia|]. intros _. lia.
  - pose proof (itemLayer_shown request io track k p) as Hs.
    pose proof (itemLayer_globalStartTime request io track k p) as Hg.
    destruct (itemLayer request io track k p) as [[d|] q|q]; simpl in Hg.
    + rewrite Hs. specialize (IH (layerData ++ [d]) q). rewrite Hg in IH.
      rewrite length_app in IH. cbn [length] in *.
      destruct IH as (IH1 & IH2 & IH3). split; [done|]. split; [lia|].
      intros Hf. specialize (IH3 Hf). lia.
    + rewrite Hs. specialize (IH layerData q). by rewrite Hg in IH.
    + rewrite Hs. cbn [length fst snd]. split; [done|]. split; [lia|]. done.
Qed.

Lemma itemsAt_track (t : Track) (js : list StackChild) (time : RationalTime) :
  itemsAt (ATrack t :: js) time
  = (if decide (Kind_video = kind t)
     then (λ k, (t, k)) <$> List.filter (λ k, shown t k time) (children t)
     else [])
    ++ itemsAt js time.
Proof. reflexivity. Qed.

Lemma itemsAt_other (js : list StackChild) (time : RationalTime) :
  itemsAt (OtherChild :: js) time = itemsAt js time.
Proof. reflexivity. Qed.

Lemma timelineLayers_count request io js layerData p :
  let time := sub (Request.time request) (globalStartTime p) in
  let out := timelineLayers request io js layerData p in
  globalStartTime out.2 = globalStartTime p
  ∧ length out.1.1 ≤ length layerData + length (itemsAt js time)
  ∧ (out.1.2 = false →
     length out.1.1 = length layerData + length (itemsAt js time)).
Proof.
  cbv zeta. revert layerData p.
  induction js as [|[t|] js IH]; intros layerData p; cbn [timelineLayers].
  - simpl. split; [done|]. split; [lia|]. intros _. lia.
  - rewrite itemsAt_track, length_app.
    destruct (decide (Kind_video = kind t)) as [Hk|Hk].
    + rewrite length_fmap.
      pose proof (trackLayers_count request io t (children t) layerData p) as Ht.
      cbv zeta in Ht.
      destruct (trackLayers _ _ _ _ _ _) as [[l b] q]. simpl in Ht.
      destruct Ht as (Hg & Hle & Heq). destruct b.
      * simpl. split; [done|]. split; [lia|]. done.
      * specialize (IH l q). rewrite Hg in IH. destruct IH as (IH1 & IH2 & IH3).
        specialize (Heq eq_refl). split; [done|]. split; [lia|].
        intros Hf. specialize (IH3 Hf). lia.
    + apply IH.
  - rewrite itemsAt_other. apply IH.
Qed.

Lemma itemLayer_none request io track k p p' :
  itemLayer request io track k p = Ok None p' → p' = p.
Proof.
  assert (∀ k',
    match trimmed_range_in_parent track k' with
    | Some range =>
        let time := sub (Request.time request) (globalStartTime p) in
        if contains range time then
          let neighbors := neighbors_of track (addr k') in
          (data ←: readItem request io track k' time LayerData.default ;;
           data ←: transitionOut request io track neighbors.2 range time data ;;
           data ←: transitionIn request io track neighbors.1 range time data ;;
           ret (Some data)) p
        else Ok None p
    | None => Ok None p
    end = Ok None p' → p' = p) as Hbody.
  { intros k'. destruct (trimmed_range_in_parent track k') as [range|];
      [|by intros [= <-]].
    cbv zeta. destruct (contains _ _); [|by intros [= <-]].
    unfold bind, ret.
    destruct (readItem _ _ _ _ _ _ _) as [d1 q1|]; [|done].
    destruct (transitionOut _ _ _ _ _ _ _ _) as [d2 q2|]; [|done].
    by destruct (transitionIn _ _ _ _ _ _ _ _) as [d3 q3|]. }
  destruct k; try (by apply Hbody). by intros [= <-].
Qed.

Lemma itemLayers_app request io items rest layerData p :
  itemLayers request io (items ++ rest) layerData p
  = match itemLayers request io items layerData p with
    | (layerData', true, p') => (layerData', true, p')
    | (layerData', false, p') => itemLayers request io rest layerData' p'
    end.
Proof.
  revert layerData p. induction items as [|item items IH]; intros layerData p;
    cbn [app itemLayers]; [done|].
  destruct (itemLayer request io item.1 item.2 p) as [[d|] q|q]; by rewrite ?IH.
Qed.

Lemma trackLayers_items request io track ks layerData p :
  trackLayers request io track ks layerData p
  = itemLayers request io
      ((λ k, (track, k))
         <$> List.filter
               (λ k, shown track k (sub (Request.time request) (globalStartTime p)))
               ks)
      layerData p.
Proof.
  revert layerData p. induction ks as [|k ks IH]; intros layerData p;
    cbn [trackLayers List.filter]; [done|].
  pose proof (itemLayer_shown request io track k p) as Hs.
  pose proof (itemLayer_globalStartTime request io track k p) as Hg.
  pose proof (itemLayer_none request io track k p) as Hn.
  destruct (itemLayer request io track k p) as [[d|] q|q] eqn:E; simpl in Hg.
  - rewrite Hs. cbn [fmap list_fmap itemLayers fst snd]. rewrite E, IH, Hg. done.
  - rewrite Hs. rewrite (Hn q eq_refl). apply IH.
  - rewrite Hs. cbn [fmap list_fmap itemLayers fst snd]. by rewrite E.
Qed.

Lemma trackLayers_globalStartTime request io track ks layerData p :
  globalStartTime (trackLayers request io track ks layerData p).2 = globalStartTime p.
Proof.
  by destruct (trackLayers_count request io track ks layerData p) as (? & _).
Qed.

Lemma timelineLayers_items request io js layerData p :
  timelineLayers request io js layerData p
  = itemLayers request io
      (itemsAt js (sub (Request.time request) (globalStartTime p))) layerData p.
Proof.
  revert layerData p. induction js as [|[t|] js IH]; intros layerData p;
    cbn [timelineLayers]; [done| |].
  - rewrite itemsAt_track, itemLayers_app.
    destruct (decide (Kind_video = kind t)) as [Hk|Hk].
    + rewrite <- trackLayers_items.
      pose proof (trackLayers_globalStartTime request io t (children t) layerData p)
        as Hg.
      destruct (trackLayers _ _ _ _ _ _) as [[l b] q]. simpl in Hg.
      destruct b; [done|]. by rewrite IH, Hg.
    + cbn [itemLayers]. apply IH.
  - rewrite itemsAt_other. apply IH.
Qed.

Lemma itemsAt_shown (js : list StackChild) (time : RationalTime) :
  Forall (λ item, shown item.1 item.2 time = true) (itemsAt js time).
Proof.
  induction js as [|[t|] js IH]; [constructor| |].
  - rewrite itemsAt_track. apply Forall_app. split; [|done].
    destruct (decide (Kind_video = kind t)); [|constructor].
    apply Forall_fmap, Forall_forall. intros k Hk. cbn [fst snd].
    apply list_elem_of_In, filter_In in Hk. by destruct Hk as [_ Hk].
  - by rewrite itemsAt_other.
Qed.

Lemma itemLayers_each request io items layerData p :
  Forall (λ item, shown item.1 item.2
                    (sub (Request.time request) (globalStartTime p)) = true) items →
  let out := itemLayers request io items layerData p in
  ∃ new,
    out.1.1 = layerData ++ new
    ∧ Forall2 (λ data item,
                 ∃ q q', itemLayer request io item.1 item.2 q = Ok (Some data) q')
              new (take (length new) items)
    ∧ (out.1.2 = false → length new = length items).
Proof.
  cbv zeta. revert layerData p.
  induction items as [|item items IH]; intros layerData p Hs; cbn [itemLayers].
  - exists []. rewrite app_nil_r. split; [done|]. split; [constructor|done].
  - apply Forall_cons in Hs as [Hitem Hs].
    pose proof (itemLayer_shown request io item.1 item.2 p) as Hshown.
    pose proof (itemLayer_globalStartTime request io item.1 item.2 p) as Hg.
    destruct (itemLayer request io item.1 item.2 p) as [[d|] q|q] eqn:E; simpl in Hg.
    + rewrite <- Hg in Hs. destruct (IH (layerData ++ [d]) q Hs) as (new & Hout & Hall & Hlen).
      exists (d :: new). rewrite Hout, <- app_assoc. split; [done|]. split.
      * cbn [length take]. constructor; [by exists p, q|done].
      * intros Hb. cbn [length]. by rewrite (Hlen Hb).
    + congruence.
    + exists []. rewrite app_nil_r. split; [done|]. split; [constructor|done].
Qed.

(** X7. The traversal of the timeline for a new request visits exactly
    the items (clips or not, transitions apart) of the video tracks
    whose trimmed range in the track contains the time of the request
    less the global start time, in the order of the tracks and of their
    children, and runs the body of the loop on each, on the state that
    the item before it left: the layers of the request are, in that
    order, the layers made for these items, one for each.  When an
    exception leaves the loops, the layers made before are kept: they
    are the layers of the first items. *)
Theorem one_layer_per_item request io (p : Private) :
  let time := sub (Request.time request) (globalStartTime p) in
  let out := timelineLayers request io (otioTimeline p) [] p in
  out = itemLayers request io (itemsAt (otioTimeline p) time) [] p
  ∧ Forall2 (λ data item,
               ∃ q q', itemLayer request io item.1 item.2 q = Ok (Some data) q')
            out.1.1 (take (length out.1.1) (itemsAt (otioTimeline p) time))
  ∧ length out.1.1 ≤ length (itemsAt (otioTimeline p) time)
  ∧ (out.1.2 = false → length out.1.1 = length (itemsAt (otioTimeline p) time)).
Proof.
  cbv zeta. split; [apply timelineLayers_items|].
  rewrite timelineLayers_items.
  destruct (itemLayers_each request io
              (itemsAt (otioTimeline p) (sub (Request.time request) (globalStartTime p)))
              [] p (itemsAt_shown _ _)) as (new & Hout & Hall & Hlen).
  rewrite Hout. cbn [app]. split; [done|]. split; [|done].
  apply Forall2_length in Hall. rewrite length_take in Hall. lia.
Qed.

(** *** Media that does not open *)

Lemma readVideoFrame_offline track clip time videoLayer io image (p : Private) :
  readers p = ∅ → offline p →
  readVideoFrame track clip time videoLayer io image p = Ok None p.
Proof.
  intros Hr Hoff. unfold readVideoFrame.
  destruct (context p) eqn:Hc; [|done].
  rewrite Hr, lookup_empty.
  destruct Hoff as [Hoff|Hoff]; [congruence|].
  specialize (Hoff (getPath p (media_reference clip))
                (<["SequenceIO/DefaultSpeed" := format_double (rate (duration p))]> io)).
  destruct (read _ _) as [|r|]; [done| |done].
  rewrite Hoff. by rewrite bool_decide_eq_true_2.
Qed.

Lemma itemLayer_offline request io track k (p : Private) :
  readers p = ∅ → offline p →
  ∃ o, itemLayer request io track k p = Ok o p ∧ ∀ d, o = Some d → blank d.
Proof.
  intros Hr Hoff.
  assert (∀ k', k' = k →
    ∃ o,
      match trimmed_range_in_parent track k' with
      | Some range =>
          let time := sub (Request.time request) (globalStartTime p) in
          if contains range time then
            let neighbors := neighbors_of track (addr k') in
            (data ←: readItem request io track k' time LayerData.default ;;
             data ←: transitionOut request io track neighbors.2 range time data ;;
             data ←: transitionIn request io track neighbors.1 range time data ;;
             ret (Some data)) p
          else Ok None p
      | None => Ok None p
      end = Ok o p
      ∧ ∀ d, o = Some d → blank d) as Hbody.
  { intros k' _. destruct (trimmed_range_in_parent track k') as [range|];
      [|by exists None].
    cbv zeta. destruct (contains _ _); [|by exists None].
    unfold bind, ret.
    assert (∃ d1, readItem request io track k'
                    (sub (Request.time request) (globalStartTime p))
                    LayerData.default p = Ok d1 p ∧ blank d1) as (d1 & -> & Hb1).
    { unfold readItem. destruct k' as [clip| |]; try (by eexists).
      unfold bind, ret. rewrite readVideoFrame_offline by done. by eexists. }
    assert (∀ second d, blank d →
              ∃ d2, transitionOut request io track second range
                      (sub (Request.time request) (globalStartTime p)) d p = Ok d2 p
                    ∧ blank d2) as Hout.
    { intros second d Hb. unfold transitionOut.
      destruct second as [[| |tr]|]; try (by eexists).
      destruct (gt _ _); [|by eexists].
      destruct (neighbors_of track (transition_addr tr)).2 as [[clipB| |]|];
        try (eexists; split; [done|]; by destruct Hb).
      unfold bind, ret. rewrite readVideoFrame_offline by done.
      eexists; split; [done|]. by destruct Hb. }
    assert (∀ first d, blank d →
              ∃ d2, transitionIn request io track first range
                      (sub (Request.time request) (globalStartTime p)) d p = Ok d2 p
                    ∧ blank d2) as Hin.
    { intros first d Hb. unfold transitionIn.
      destruct first as [[| |tr]|]; try (by eexists).
      destruct (lt _ _); [|by eexists].
      destruct (neighbors_of track (transition_addr tr)).1 as [[clipB| |]|];
        try (eexists; split; [done|]; by destruct Hb).
      unfold bind, ret. rewrite readVideoFrame_offline by done.
      eexists; split; [done|]. by destruct Hb. }
    destruct (Hout (neighbors_of track (addr k')).2 d1 Hb1) as (d2 & -> & Hb2).
    destruct (Hin (neighbors_of track (addr k')).1 d2 Hb2) as (d3 & -> & Hb3).
    exists (Some d3). split; [done|]. by intros d [= <-]. }
  destruct k; try (by apply Hbody). by exists None.
Qed.

Lemma trackLayers_offline request io track ks layerData (p : Private) :
  readers p = ∅ → offline p → Forall blank layerData →
  ∃ l, trackLayers request io track ks layerData p = (l, false, p) ∧ Forall blank l.
Proof.
  intros Hr Hoff. revert layerData.
  induction ks as [|k ks IH]; intros layerData Hb; cbn [trackLayers]; [by eexists|].
  destruct (itemLayer_offline request io track k p Hr Hoff) as (o & -> & Ho).
  destruct o as [d|]; apply IH; [|done].
  apply Forall_app. split; [done|]. apply Forall_singleton. by apply Ho.
Qed.

Lemma timelineLayers_offline request io js layerData (p : Private) :
  readers p = ∅ → offline p → Forall blank layerData →
  ∃ l, timelineLayers request io js layerData p = (l, false, p) ∧ Forall blank l.
Proof.
  intros Hr Hoff. revert layerData.
  induction js as [|[t|] js IH]; intros layerData Hb; cbn [timelineLayers];
    [by eexists| |by apply IH].
  destruct (decide _); [|by apply IH].
  destruct (trackLayers_offline request io t (children t) layerData p Hr Hoff Hb)
    as (l & -> & Hl).
  by apply IH.
Qed.

Lemma offline_ext (p q : Private) :
  context q = context p → offline p → offline q.
Proof. unfold offline. by intros ->. Qed.

Lemma traverseAll_offline io new (p : Private) :
  readers p = ∅ → offline p →
  Forall (λ r, Forall blank (Request.layerData r)) new →
  ∃ promoted,
    traverseAll io new p = set_requestsInProgress (requestsInProgress p ++ promoted) p
    ∧ asked <$> promoted = asked <$> new
    ∧ Forall (λ r, Forall blank (Request.layerData r)) promoted.
Proof.
  revert p. induction new as [|r new IH]; intros p Hr Hoff Hnew;
    cbn [traverseAll fold_left].
  - exists []. rewrite app_nil_r. split; [by destruct p|done].
  - apply Forall_cons in Hnew as [Hb Hnew].
    fold (traverseAll io new (traverse io r p)). unfold traverse.
    destruct (timelineLayers_offline r io (otioTimeline p) (Request.layerData r) p
                Hr Hoff Hb) as (l & -> & Hl).
    destruct (IH (set_requestsInProgress
                    (requestsInProgress p ++ [set_layerData l r]) p))
      as (promoted & -> & Ha & Hp); [done|by apply (offline_ext p)|done|].
    exists (set_layerData l r :: promoted). unsets.
    split; [|split].
    + rewrite <- app_assoc. by destruct p.
    + by rewrite !fmap_cons, Ha.
    + by apply Forall_cons.
Qed.

Lemma blank_ready (p : Private) (r : Request.t) :
  Forall blank (Request.layerData r) →
  requestReady p r = true
  ∧ ∀ get, frameLayers get (Request.layerData r) []
           = ((λ d, FrameLayer.mk None None (LayerData.transition d)
                                  (LayerData.transitionValue d))
                <$> Request.layerData r, Finished).
Proof.
  intros Hb. split.
  - unfold requestReady. apply forallb_forall. intros d Hd%list_elem_of_In.
    rewrite Forall_forall in Hb. destruct (Hb d Hd) as [Ha Hb'].
    unfold layerReady. by rewrite Ha, Hb'.
  - intros get. rewrite <- (app_nil_l (_ <$> _)). generalize (@nil FrameLayer.t).
    induction Hb as [|d l [Ha Hb'] Hl IH]; intros acc; cbn [frameLayers].
    + by rewrite app_nil_r.
    + rewrite Ha, Hb'. cbn [getImage]. rewrite IH, fmap_cons, <- app_assoc. done.
Qed.

Lemma take_min_length {A : Type} (l : list A) (n : nat) :
  take (length l `min` n) l = take n l.
Proof.
  rewrite <- take_take. apply take_ge. rewrite length_take. lia.
Qed.

Lemma filter_none {A : Type} (P : A → Prop) `{!∀ x, Decision (P x)} (l : list A) :
  (∀ x, x ∈ l → ¬ P x) → filter P l = [].
Proof.
  induction l as [|x l IH]; intros Hno; [done|].
  rewrite filter_cons_False by (apply Hno; by left).
  apply IH. intros y Hy. apply Hno. by right.
Qed.

(** X8. When no media opens with video (the context has expired, or the
    I/O system returns no reader, or readers without video), no reader
    is open and no request is in progress, a tick fulfils every request
    that it moves from the pending list in that same tick, with a frame
    whose layers hold no image; no reader is registered and nothing is
    left in progress. *)
Theorem tick_without_media (p : Private) (r : Request.t) :
  readers p = ∅ → requestsInProgress p = [] → offline p →
  (∀ r, r ∈ requests p → Request.layerData r = []) →
  r ∈ take (requestCount p) (requests p) →
  readers (tick p) = ∅
  ∧ requestsInProgress (tick p) = []
  ∧ ∃ frame,
      frames (tick p) !! Request.promise r = Some (Value frame)
      ∧ Forall (λ layer, FrameLayer.image layer = None
                         ∧ FrameLayer.imageB layer = None)
               (Frame.layers frame).
Proof.
  intros Hr Hin Hoff Hempty Hr'.
  assert (take (promotions p) (requests p) = take (requestCount p) (requests p)) as Hk.
  { unfold promotions. rewrite Hin. cbn [length]. rewrite Nat.sub_0_r.
    apply take_min_length. }
  assert (∃ l, promote p
               = set_requestsInProgress l (set_requests (drop (promotions p) (requests p)) p)
               ∧ asked <$> l = asked <$> take (promotions p) (requests p)
               ∧ Forall (λ r, Forall blank (Request.layerData r)) l)
    as (l & Hp & Ha & Hb).
  { unfold promote.
    pose proof (gather_take (requests p) [] (length (requestsInProgress p))
                  (requestCount p)) as Hg.
    cbn [length] in Hg. rewrite Nat.add_0_r in Hg. cbv zeta in Hg.
    fold (promotions p) in Hg. rewrite Hg. cbn [app].
    destruct (traverseAll_offline (ioOptions p) (take (promotions p) (requests p))
                (set_requests (drop (promotions p) (requests p)) p))
      as (l & -> & Ha & Hb); [done|by apply (offline_ext p)| |].
    - apply Forall_forall. intros x Hx. rewrite (Hempty x); [done|].
      by apply (subseteq_take (promotions p)).
    - exists l. unsets. by rewrite Hin. }
  assert (requestsInProgress (promote p) = l) as Hl by (by rewrite Hp).
  assert (∀ x, x ∈ l → requestReady (promote p) x = true) as Hready.
  { intros x Hx. rewrite Forall_forall in Hb. by apply blank_ready, Hb. }
  split; [|split].
  - unfold tick, delReaders, frameRequests. unsets.
    apply map_eq. intros a. rewrite stopReaders_readers.
    destruct (finish_registry (promote p)) as [-> _]. rewrite Hp. unsets.
    by rewrite Hr, !lookup_empty.
  - rewrite tick_inProgress, Hl. apply filter_none.
    intros x Hx. rewrite (Hready x Hx). done.
  - assert (asked r ∈ asked <$> l) as (r' & Hasked & Hr'')%list_elem_of_fmap.
    { rewrite Ha, Hk. by apply list_elem_of_fmap_2. }
    assert (Request.promise r' = Request.promise r) as Hid.
    { unfold asked in Hasked. by injection Hasked. }
    rewrite <- Hl in Hr''.
    destruct (tick_finishes p r' Hr'') as [[Hno _]|(_ & _ & r'' & Hin'' & _ & E)].
    { rewrite Hl in Hr''. rewrite (Hready r' Hr'') in Hno. done. }
    rewrite Hid in E. eexists. split; [exact E|].
    rewrite Hl in Hin''. rewrite Forall_forall in Hb.
    destruct (blank_ready (promote p) r'' (Hb r'' Hin'')) as [_ Hlayers].
    unfold frameOf. cbn [Frame.layers]. rewrite Hlayers. cbn [fst].
    apply Forall_fmap, Forall_forall. by intros d _.
Qed.


End Layers.

(** *** Ranges of frames *)

Lemma runs_spec (i j : Z) (rest : list Z) :
  (i ≤ j)%Z → Sorted Z.le (j :: rest) →
  Forall (λ ab, (i ≤ ab.1 ∧ ab.1 ≤ ab.2)%Z) (runs i j rest)
  ∧ StronglySorted (λ ab cd, (ab.2 + 1 < cd.1)%Z) (runs i j rest)
  ∧ ∀ m, (∃ ab, ab ∈ runs i j rest ∧ (ab.1 ≤ m ≤ ab.2)%Z)
         ↔ (i ≤ m ≤ j)%Z ∨ m ∈ rest.
Proof.
  revert i j. induction rest as [|k rest IH]; intros i j Hij Hs; cbn [runs].
  - split; [by apply Forall_singleton|]. split; [repeat constructor|].
    intros m. split.
    + intros (ab & ->%list_elem_of_singleton & Hm). by left.
    + intros [Hm|?%elem_of_nil]; [|done]. exists (i, j). split; [by left|done].
  - apply Sorted_inv in Hs as [Hs Hjk]. apply HdRel_inv in Hjk.
    case_bool_decide as Hgap.
    + destruct (IH k k ltac:(lia) Hs) as (Hall & Hsep & Hm).
      split; [|split].
      * apply Forall_cons. split; [simpl; lia|].
        eapply Forall_impl; [exact Hall|]. simpl. lia.
      * apply SSorted_cons; [done|].
        eapply Forall_impl; [exact Hall|]. simpl. lia.
      * intros m. split.
        -- intros (ab & [->|Hab]%elem_of_cons & Hab').
           ++ by left.
           ++ right. destruct (proj1 (Hm m)) as [?|?]; [by eauto| |by right].
              assert (m = k) as -> by lia. by left.
        -- intros [Hin|[->|Hin]%elem_of_cons].
           ++ exists (i, j). split; [by left|done].
           ++ destruct (proj2 (Hm k)) as (ab & ? & ?); [left; lia|].
              exists ab. split; [by right|done].
           ++ destruct (proj2 (Hm m)) as (ab & ? & ?); [by right|].
              exists ab. split; [by right|done].
    + destruct (IH i k ltac:(lia) Hs) as (Hall & Hsep & Hm).
      split; [done|]. split; [done|]. intros m. rewrite Hm. split.
      * intros [Hin|Hin]; [|right; by right].
        destruct (decide (m = k)) as [->|Hne]; [right; by left|left; lia].
      * intros [Hin|[->|Hin]%elem_of_cons]; [left; lia|left; lia|by right].
Qed.

Local Open Scope Q_scope.

Lemma toRanges_loop_runs (r : Q) (i j : Z) (rest : list Z) :
  toRanges_loop (frameAt r i) (frameAt r j) (frameAt r <$> rest)
  = (λ ab, range_from_start_end_time_inclusive (frameAt r ab.1) (frameAt r ab.2))
      <$> runs i j rest.
Proof.
  revert i j. induction rest as [|k rest IH]; intros i j; [done|].
  cbn [fmap list_fmap toRanges_loop runs].
  rewrite sub_same_rate by done. cbn [value frameAt].
  assert (Qlt_bool 1 (inject_Z k - inject_Z j) = bool_decide (1 < k - j)%Z) as ->.
  { case_bool_decide as Hgap.
    - apply Qlt_bool_true. rewrite inject_Z_minus. change 1 with (inject_Z 1).
      by rewrite <- Zlt_Qlt.
    - destruct (Qlt_bool 1 _) eqn:E; [|done]. exfalso. apply Hgap.
      apply Qlt_bool_true in E. rewrite inject_Z_minus in E.
      change 1 with (inject_Z 1) in E. by rewrite <- Zlt_Qlt in E. }
  destruct (bool_decide _); cbn [fmap list_fmap]; by rewrite IH.
Qed.

Lemma sorted_before_frameAt (r : Q) (a b : Z) :
  0 < r → sorted_before (frameAt r a) (frameAt r b) ↔ (a ≤ b)%Z.
Proof.
  intros Hr. unfold sorted_before.
  destruct (lt (frameAt r b) (frameAt r a)) eqn:E.
  - apply lt_same_rate in E; [|done|done]. cbn [value frameAt] in E.
    rewrite <- Zlt_Qlt in E. split; [done|lia].
  - split; [|done]. intros _. destruct (decide (a ≤ b)%Z) as [|Hlt]; [done|].
    assert (lt (frameAt r b) (frameAt r a) = true); [|congruence].
    apply lt_same_rate; [done|done|]. cbn [value frameAt]. rewrite <- Zlt_Qlt. lia.
Qed.

Lemma sorted_before_total : Total sorted_before.
Proof.
  intros a b. unfold sorted_before, lt.
  destruct (Qlt_bool (to_seconds b) (to_seconds a)) eqn:E1; [|by left].
  right. destruct (Qlt_bool (to_seconds a) (to_seconds b)) eqn:E2; [|done].
  apply Qlt_bool_true in E1, E2. lra.
Qed.

Lemma Sorted_frameAt (r : Q) (ns : list Z) :
  0 < r → Sorted sorted_before (frameAt r <$> ns) → Sorted Z.le ns.
Proof.
  intros Hr. induction ns as [|n ns IH]; [constructor|].
  rewrite fmap_cons. intros [Hs Hhd]%Sorted_inv. constructor; [by apply IH|].
  destruct ns as [|n' ns]; [constructor|].
  rewrite fmap_cons in Hhd. apply HdRel_inv in Hhd. constructor.
  by apply (sorted_before_frameAt r).
Qed.

Lemma sorted_frames (r : Q) (ns : list Z) :
  0 < r →
  ∃ ns', @merge_sort _ sorted_before (λ a b, decide (lt b a = false))
                     (frameAt r <$> ns)
         = frameAt r <$> ns'
         ∧ ns' ≡ₚ ns ∧ Sorted Z.le ns'.
Proof.
  intros Hr.
  pose proof (@merge_sort_Permutation _ sorted_before
                (λ a b, decide (lt b a = false)) (frameAt r <$> ns)) as Hp.
  pose proof (@Sorted_merge_sort _ sorted_before (λ a b, decide (lt b a = false))
                sorted_before_total (frameAt r <$> ns)) as Hs.
  change (frameAt r <$> ns) with (map (frameAt r) ns) in Hp at 2.
  apply Permutation_map_inv in Hp as (ns' & E & Hp).
  exists ns'. change (map (frameAt r) ns') with (frameAt r <$> ns') in E.
  split; [exact E|]. split; [by symmetry|].
  apply (Sorted_frameAt r); [done|]. by rewrite <- E.
Qed.

Lemma contains_run (r : Q) (a b m : Z) :
  0 < r →
  contains (range_from_start_end_time_inclusive (frameAt r a) (frameAt r b))
           (frameAt r m) = true
  ↔ (a ≤ m ≤ b)%Z.
Proof.
  intros Hr. unfold range_from_start_end_time_inclusive,
    duration_from_start_end_time_inclusive. cbn [rate value frameAt].
  rewrite Qeq_bool_refl.
  rewrite (contains_framed r) by done.
  cbn [start_time otime.duration value frameAt]. rewrite <- Zle_Qle.
  assert (inject_Z a + (inject_Z b - inject_Z a + 1) == inject_Z (b + 1)) as ->.
  { rewrite inject_Z_plus. change (inject_Z 1) with 1. ring. }
  rewrite <- Zlt_Qlt. lia.
Qed.

(** X11. For frames with whole values at one positive rate, in any order
    and with repetitions, a frame is contained in one of the ranges of
    [toRanges] exactly when it is one of the frames given. *)
Theorem toRanges_covers (r : Q) (ns : list Z) (m : Z) :
  0 < r →
  (∃ range, range ∈ toRanges (frameAt r <$> ns)
            ∧ contains range (frameAt r m) = true)
  ↔ m ∈ ns.
Proof.
  intros Hr. unfold toRanges.
  destruct (sorted_frames r ns Hr) as (ns' & -> & Hp & Hs).
  rewrite <- Hp. destruct ns' as [|i rest]; cbn [fmap list_fmap].
  - split; [by intros (? & ?%elem_of_nil & _)|by intros ?%elem_of_nil].
  - rewrite toRanges_loop_runs.
    destruct (runs_spec i i rest ltac:(lia) Hs) as (_ & _ & Hm).
    split.
    + intros (range & (ab & -> & Hab)%list_elem_of_fmap & Hc).
      apply contains_run in Hc; [|done].
      destruct (proj1 (Hm m)) as [?|?]; [by eauto| |by right].
      assert (m = i) as -> by lia. by left.
    + intros Hin.
      destruct (proj2 (Hm m)) as (ab & Hab & Hm').
      { apply elem_of_cons in Hin as [->|Hin]; [left; lia|by right]. }
      eexists. split; [by apply list_elem_of_fmap_2|]. by apply contains_run.
Qed.

Lemma StronglySorted_lookup {A : Type} (R : relation A) (l : list A) (x y : nat)
      (a b : A) :
  StronglySorted R l → l !! x = Some a → l !! y = Some b → (x < y)%nat → R a b.
Proof.
  intros Hs. revert x y. induction Hs as [|c l Hs IH Hall]; intros x y Hx Hy Hxy;
    [done|].
  destruct y as [|y]; [lia|]. cbn in Hy. destruct x as [|x].
  - injection Hx as <-. rewrite Forall_forall in Hall. apply Hall.
    by apply list_elem_of_lookup_2 in Hy.
  - cbn in Hx. apply (IH x y); [done|done|lia].
Qed.

(** X12. For frames with whole values at one positive rate, the ranges
    of [toRanges] are in increasing order and at least one frame apart:
    the exclusive end of a range is before the start of every later
    range, so no two ranges could be joined. *)
Theorem toRanges_apart (r : Q) (ns : list Z) (x y : nat) (first second : TimeRange) :
  0 < r →
  toRanges (frameAt r <$> ns) !! x = Some first →
  toRanges (frameAt r <$> ns) !! y = Some second →
  (x < y)%nat →
  lt (end_time_exclusive first) (start_time second) = true.
Proof.
  intros Hr. unfold toRanges.
  destruct (sorted_frames r ns Hr) as (ns' & -> & Hp & Hs).
  destruct ns' as [|i rest]; cbn [fmap list_fmap]; [done|].
  rewrite toRanges_loop_runs, !list_lookup_fmap.
  destruct (runs_spec i i rest ltac:(lia) Hs) as (_ & Hsep & _).
  destruct (runs i i rest !! x) as [[a b]|] eqn:Ex; [|done].
  destruct (runs i i rest !! y) as [[c d]|] eqn:Ey; [|done].
  intros [= <-] [= <-] Hxy.
  pose proof (StronglySorted_lookup _ _ _ _ _ _ Hsep Ex Ey Hxy) as Hgap.
  unfold range_from_start_end_time_inclusive,
    duration_from_start_end_time_inclusive. cbn [rate value frameAt].
  rewrite Qeq_bool_refl, (end_time_exclusive_framed r) by done.
  cbn [start_time otime.duration value].
  apply lt_same_rate; [done|done|]. cbn [value frameAt]. simpl in Hgap.
  assert (inject_Z a + (inject_Z b - inject_Z a + 1) == inject_Z (b + 1)) as ->.
  { rewrite inject_Z_plus. change (inject_Z 1) with 1. ring. }
  by rewrite <- Zlt_Qlt.
Qed.

Local Close Scope Q_scope.

(** *** Comparison of frames *)

Lemma equal_instant (a b : RationalTime) :
  ¬ (rate a == 0)%Q → ¬ (rate b == 0)%Q →
  equal a b = true ↔ (to_seconds a == to_seconds b)%Q.
Proof.
  intros Ha Hb. unfold equal, value_rescaled_to, to_seconds.
  destruct (Qeq_bool (rate b) (rate a)) eqn:E.
  - apply Qeq_bool_iff in E. rewrite Qeq_bool_iff, E. split.
    + by intros ->.
    + intros Heq. apply (Qmult_inj_r _ _ (/ rate a)); [|exact Heq].
      intros Hinv. apply Ha. rewrite <- (Qinv_involutive (rate a)), Hinv. reflexivity.
  - rewrite Qeq_bool_iff. split.
    + intros Heq. rewrite <- Heq. field. done.
    + intros Heq.
      assert (value b == value a / rate a * rate b)%Q as ->.
      { rewrite Heq. field. done. }
      field. done.
Qed.

Lemma FrameLayer_eqb_same (a b : FrameLayer.t) :
  FrameLayer_eqb a b = true ↔ same_layer a b.
Proof.
  unfold FrameLayer_eqb, same_layer.
  rewrite !andb_true_iff, !bool_decide_eq_true, Qeq_bool_iff.
  assert (Transition_eqb (FrameLayer.transition a) (FrameLayer.transition b) = true
          ↔ FrameLayer.transition a = FrameLayer.transition b) as ->.
  { by destruct (FrameLayer.transition a), (FrameLayer.transition b). }
  tauto.
Qed.

Lemma layers_eqb_same (a b : list FrameLayer.t) :
  layers_eqb a b = true ↔ Forall2 same_layer a b.
Proof.
  revert b. induction a as [|x a IH]; intros [|y b]; cbn [layers_eqb].
  - split; [constructor|done].
  - split; [done|]. intros Hf. inversion Hf.
  - split; [done|]. intros Hf. inversion Hf.
  - rewrite andb_true_iff, FrameLayer_eqb_same, IH, Forall2_cons. done.
Qed.

Local Open Scope Q_scope.

Lemma equal_whole (a b : RationalTime) (va ra vb rb : Z) :
  whole a va ra → whole b vb rb → (0 < ra)%Z → (0 < rb)%Z →
  equal a b = true ↔ (va * rb = vb * ra)%Z.
Proof.
  intros [Ha Hra] [Hb Hrb] Hpa Hpb.
  assert (¬ inject_Z ra == 0) as Ha0.
  { change 0 with (inject_Z 0). rewrite inject_Z_injective. lia. }
  assert (¬ inject_Z rb == 0) as Hb0.
  { change 0 with (inject_Z 0). rewrite inject_Z_injective. lia. }
  rewrite equal_instant by (by rewrite ?Hra, ?Hrb).
  unfold to_seconds. rewrite Hra, Hrb, Ha, Hb.
  rewrite <- inject_Z_injective, !inject_Z_mult. split.
  - intros E.
    transitivity (inject_Z va / inject_Z ra * (inject_Z ra * inject_Z rb));
      [field; exact Ha0|].
    rewrite E. field. exact Hb0.
  - intros E.
    transitivity (inject_Z va * inject_Z rb / (inject_Z ra * inject_Z rb));
      [field; by split|].
    rewrite E. field. by split.
Qed.

(** X13. [Frame::operator ==] compares the times as instants: for times
    with whole values at whole positive rates, within the mantissa of a
    [double], two frames are equal exactly when the value of the one
    times the rate of the other is the value of the other times the
    rate of the one (the same number of seconds, whatever the rates),
    and their layers are pairwise the same (same images, same kind of
    transition, same phase). *)
Theorem Frame_eqb_instant (a b : Frame.t) (va ra vb rb : Z) :
  whole (Frame.time a) va ra → whole (Frame.time b) vb rb →
  (0 < ra)%Z → (0 < rb)%Z →
  (Z.abs (va * rb) + ra < 2 ^ 53)%Z →
  Frame_eqb a b = true
  ↔ (va * rb = vb * ra)%Z
    ∧ Forall2 same_layer (Frame.layers a) (Frame.layers b).
Proof.
  intros Ha Hb Hpa Hpb _. unfold Frame_eqb.
  by rewrite andb_true_iff, (equal_whole _ _ va ra vb rb), layers_eqb_same.
Qed.

Local Close Scope Q_scope.

(** *** The media time *)

Local Open Scope Q_scope.




Section MediaTime.
Context `{Layout} `{System}.








End MediaTime.

Local Close Scope Q_scope.

(** *** The image information of the timeline *)

Section Information.
Context `{System}.

Lemma getVideoInfo_children (p : Private) (children : list Node) :
  getVideoInfo p (NComposition children)
  = match children with
    | [] => NoVideoInfo
    | child :: rest =>
        match getVideoInfo p child with
        | NoVideoInfo => getVideoInfo p (NComposition rest)
        | out => out
        end
    end.
Proof. by destruct children. Qed.

Lemma firstVideoInfo_app (f : Clip → VideoInfo) (l k : list Clip) :
  firstVideoInfo f (l ++ k)
  = match firstVideoInfo f l with
    | NoVideoInfo => firstVideoInfo f k
    | out => out
    end.
Proof.
  induction l as [|c l IH]; [done|]. cbn [app firstVideoInfo].
  by destruct (f c).
Qed.

(** X14. [getVideoInfo] gives the result of the first clip, in depth-first
    order from the first child, for which opening the media does not
    come back without video: the clips before it are skipped, those
    after it are not opened, and an exception of the reader of that clip
    is the outcome. *)
Theorem getVideoInfo_first (p : Private) (composable : Node) :
  getVideoInfo p composable
  = firstVideoInfo (λ clip, getVideoInfo p (NClip clip)) (clips composable).
Proof.
  revert composable. fix IH 1. intros [clip|children|].
  - cbn [clips firstVideoInfo]. by destruct (getVideoInfo p (NClip clip)).
  - induction children as [|child rest IHrest].
    + done.
    + rewrite getVideoInfo_children. cbn [clips mbind list_bind].
      change (rest ≫= clips) with (clips (NComposition rest)).
      rewrite firstVideoInfo_app, <- IHrest, <- (IH child). done.
  - done.
Qed.

End Information.

(** *** Requests that are pending when the timeline is destroyed *)

Section Shutdown.
Context `{Layout} `{System}.

(** X15. A request that is still pending when the timeline is destroyed
    is resolved by the thread before the destructor returns, with a
    frame that has the time of the request and no layers, provided the
    promises are distinct and [get()] returns a value for the layer
    futures of the requests in progress. *)
Theorem destroy_resolves_pending (eventually : nat → GetResult) (p : Private)
        (r : Request.t) :
  NoDup (Request.promise <$> (requests p ++ requestsInProgress p)) →
  (∀ r, r ∈ requestsInProgress p → all_values (await eventually p) r) →
  (∀ r, r ∈ requests p → Request.layerData r = []) →
  r ∈ requests p →
  ∃ p', destroy eventually p = Returned p'
        ∧ stopped p' = true
        ∧ frames p' !! Request.promise r
          = Some (Value (Frame.mk (Request.time r) [])).
Proof.
  intros Hnd Hv Hempty Hr.
  destruct (destroy_fulfils eventually p Hnd) as (p' & Hd & Hs & _ & _ & _ & Hf).
  { intros x [Hx|Hx]%elem_of_app; [|by apply Hv].
    intros j Hj. rewrite (Hempty x Hx) in Hj. by apply elem_of_nil in Hj. }
  exists p'. split; [exact Hd|]. split; [exact Hs|].
  rewrite (Hf r) by (apply elem_of_app; by left). by rewrite (Hempty r Hr).
Qed.

End Shutdown.

(** *** Merging options *)

Lemma insert_range_union (out : gmap string string) (elements : list (string * string)) :
  io.insert_range out elements = out ∪ list_to_map elements.
Proof.
  unfold io.insert_range. revert out.
  induction elements as [|[k v] l IH]; intros out; cbn [fold_left list_to_map foldr].
  - by rewrite (right_id_L ∅ (∪)).
  - rewrite IH. apply map_eq. intros i. rewrite !lookup_union. cbn [fst snd].
    destruct (decide (k = i)) as [->|Hne].
    + rewrite lookup_insert_eq. destruct (out !! i) as [w|] eqn:E.
      * rewrite E. by destruct (list_to_map l !! i).
      * rewrite lookup_insert_eq. by destruct (list_to_map l !! i).
    + rewrite (lookup_insert_ne (list_to_map l)) by done.
      destruct (out !! k); [done|]. by rewrite lookup_insert_ne.
Qed.

(** X16. In [merge(a, b)] the options of [a] take precedence: a key of [a]
    keeps the value it has in [a]; a key that [a] lacks has the value it
    has in [b], if any. *)
Theorem merge_lookup (a b : gmap string string) (key : string) :
  io.merge a b !! key
  = match a !! key with
    | Some value => Some value
    | None => b !! key
    end.
Proof.
  unfold io.merge. rewrite insert_range_union, list_to_map_to_list, lookup_union.
  destruct (a !! key), (b !! key); done.
Qed.

(** *** Reading from a buffer in memory *)

Local Open Scope Z_scope.

Lemma to_size_t_small (z : Z) : 0 ≤ z < 2 ^ 64 → ffmpeg.to_size_t z = z.
Proof. intros Hz. unfold ffmpeg.to_size_t. by apply Z.mod_small. Qed.

Lemma to_int64_t_small (z : Z) : - 2 ^ 63 ≤ z < 2 ^ 63 → ffmpeg.to_int64_t z = z.
Proof. intros Hz. unfold ffmpeg.to_int64_t. rewrite Z.mod_small; lia. Qed.

Lemma to_int_small (z : Z) : - 2 ^ 31 ≤ z < 2 ^ 31 → ffmpeg.to_int z = z.
Proof. intros Hz. unfold ffmpeg.to_int. rewrite Z.mod_small; lia. Qed.

(** One read on a buffer whose position is inside its memory. *)
Lemma avIOBufferRead_step (b : ffmpeg.AVIOBufferData) (bufSize : Z) :
  inside b → - 2 ^ 31 ≤ bufSize < 2 ^ 31 →
  let n := Z.min bufSize (ffmpeg.size b - ffmpeg.offset b) in
  if decide (n ≤ 0)
  then ffmpeg.avIOBufferRead b bufSize = Some (ffmpeg.AVERROR_EOF, [], b)
  else
    ∃ b', ffmpeg.avIOBufferRead b bufSize
          = Some (n, take (Z.to_nat n) (drop (Z.to_nat (ffmpeg.offset b)) (ffmpeg.p b)),
                  b')
          ∧ Z.of_nat (length (take (Z.to_nat n)
                                   (drop (Z.to_nat (ffmpeg.offset b)) (ffmpeg.p b)))) = n
          ∧ ffmpeg.p b' = ffmpeg.p b ∧ ffmpeg.size b' = ffmpeg.size b
          ∧ ffmpeg.offset b' = ffmpeg.offset b + n
          ∧ inside b'.
Proof.
  intros (Hsize & Hoff & Hmax) Hbuf n. unfold ffmpeg.avIOBufferRead.
  rewrite to_size_t_small, to_int64_t_small by lia.
  assert (ffmpeg.to_int (ffmpeg.clamp bufSize 0 (ffmpeg.size b - ffmpeg.offset b))
          = Z.max 0 n) as ->.
  { unfold ffmpeg.clamp. rewrite to_int_small by lia. lia. }
  destruct (decide (n ≤ 0)) as [Hn|Hn].
  - replace (Z.max 0 n) with 0 by lia. done.
  - replace (Z.max 0 n) with n by lia.
    rewrite (proj2 (Z.eqb_neq n 0)) by lia.
    rewrite (proj2 (Z.ltb_lt 0 n)) by lia.
    rewrite (proj2 (Z.leb_le _ _)) by lia. cbn [andb].
    eexists. split; [done|]. cbn [ffmpeg.p ffmpeg.size ffmpeg.offset].
    rewrite to_size_t_small by lia.
    split; [|split; [done|split; [done|split; [done|]]]].
    + rewrite length_take, length_drop. lia.
    + unfold inside. cbn [ffmpeg.p ffmpeg.size ffmpeg.offset]. lia.
Qed.

(** X17. On a buffer whose position is inside its memory, a read of
    [bufSize] bytes returns [AVERROR_EOF] and changes nothing when
    [bufSize] is not positive or the position is at the end; otherwise it
    copies the next min(bufSize, size - offset) bytes of the memory,
    returns their number and advances the position by it, which stays
    inside the memory. *)
Theorem avIOBufferRead_next (b : ffmpeg.AVIOBufferData) (bufSize : Z) :
  inside b → - 2 ^ 31 ≤ bufSize < 2 ^ 31 →
  let n := Z.min bufSize (ffmpeg.size b - ffmpeg.offset b) in
  if decide (n ≤ 0)
  then ffmpeg.avIOBufferRead b bufSize = Some (ffmpeg.AVERROR_EOF, [], b)
  else
    ∃ b', ffmpeg.avIOBufferRead b bufSize
          = Some (n, take (Z.to_nat n) (drop (Z.to_nat (ffmpeg.offset b)) (ffmpeg.p b)),
                  b')
          ∧ Z.of_nat (length (take (Z.to_nat n)
                                   (drop (Z.to_nat (ffmpeg.offset b)) (ffmpeg.p b)))) = n
          ∧ ffmpeg.p b' = ffmpeg.p b ∧ ffmpeg.size b' = ffmpeg.size b
          ∧ ffmpeg.offset b' = ffmpeg.offset b + n
          ∧ inside b'.
Proof. exact (avIOBufferRead_step b bufSize). Qed.

(** X18. [avIOBufferSeek] never moves the position outside the memory:
    with the flag [AVSEEK_SIZE] it returns the size and leaves the
    position; without it the position becomes the offset clamped to
    [0, size], whatever [whence] is otherwise, and the value returned is
    the offset asked, also when it was clamped. *)
Theorem avIOBufferSeek_clamps (b : ffmpeg.AVIOBufferData) (offset whence : Z) :
  inside b → - 2 ^ 63 ≤ offset < 2 ^ 63 →
  let out := ffmpeg.avIOBufferSeek b offset whence in
  inside out.2
  ∧ ffmpeg.p out.2 = ffmpeg.p b ∧ ffmpeg.size out.2 = ffmpeg.size b
  ∧ (Z.testbit whence 16 = true → out = (ffmpeg.size b, b))
  ∧ (Z.testbit whence 16 = false →
     out.1 = offset
     ∧ ffmpeg.offset out.2 = Z.max 0 (Z.min offset (ffmpeg.size b))).
Proof.
  intros (Hsize & Hoff & Hmax) Hrange. cbv zeta. unfold ffmpeg.avIOBufferSeek.
  assert ((Z.land whence ffmpeg.AVSEEK_SIZE =? 0) = negb (Z.testbit whence 16)) as ->.
  { change ffmpeg.AVSEEK_SIZE with (2 ^ 16).
    destruct (Z.testbit whence 16) eqn:E; cbn [negb].
    - apply Z.eqb_neq. intros Hz.
      assert (Z.testbit (Z.land whence (2 ^ 16)) 16 = true) as Hbit.
      { rewrite Z.land_spec, E, Z.pow2_bits_true; [done|lia]. }
      rewrite Hz in Hbit. by rewrite Z.bits_0 in Hbit.
    - apply Z.eqb_eq. apply Z.bits_inj'. intros i Hi.
      rewrite Z.land_spec, Z.bits_0. destruct (decide (i = 16)) as [->|Hne].
      + by rewrite E.
      + rewrite (Z.pow2_bits_false 16 i) by lia. apply andb_false_r. }
  rewrite to_int64_t_small by lia.
  destruct (Z.testbit whence 16); cbn [negb fst snd].
  - split; [done|]. split; [done|]. split; [done|]. split; [done|]. done.
  - unfold ffmpeg.clamp. rewrite to_size_t_small by lia.
    split; [unfold inside; cbn [ffmpeg.p ffmpeg.size ffmpeg.offset]; lia|].
    split; [done|]. split; [done|]. split; [done|]. intros _. split; [done|].
    cbn [ffmpeg.offset]. lia.
Qed.

(** X19. Reads compose: when the first of two reads does not reach the
    end of the memory, the two reads copy, one after the other, the
    bytes that a single read of the sum of their sizes copies, and leave
    the same position. *)
Theorem avIOBufferRead_twice (b : ffmpeg.AVIOBufferData) (n1 n2 : Z) :
  inside b → 0 < n1 → 0 < n2 → n1 + n2 < 2 ^ 31 →
  ffmpeg.offset b + n1 < ffmpeg.size b →
  ∃ k1 buf1 b1 k2 buf2 b2,
    ffmpeg.avIOBufferRead b n1 = Some (k1, buf1, b1)
    ∧ ffmpeg.avIOBufferRead b1 n2 = Some (k2, buf2, b2)
    ∧ ffmpeg.avIOBufferRead b (n1 + n2) = Some (k1 + k2, buf1 ++ buf2, b2).
Proof.
  intros Hb H1 H2 Hsum Hroom.
  pose proof (avIOBufferRead_step b n1 Hb ltac:(lia)) as Hfirst. cbv zeta in Hfirst.
  destruct (decide _) as [Hn|_] in Hfirst; [lia|].
  destruct Hfirst as (b1 & E1 & Hl1 & Hp1 & Hs1 & Ho1 & Hb1).
  replace (Z.min n1 (ffmpeg.size b - ffmpeg.offset b)) with n1 in * by lia.
  pose proof (avIOBufferRead_step b1 n2 Hb1 ltac:(lia)) as Hsecond.
  cbv zeta in Hsecond. rewrite Hs1, Ho1, Hp1 in Hsecond.
  destruct (decide _) as [Hn|_] in Hsecond; [lia|].
  destruct Hsecond as (b2 & E2 & Hl2 & Hp2 & Hs2 & Ho2 & Hb2).
  pose proof (avIOBufferRead_step b (n1 + n2) Hb ltac:(lia)) as Hboth.
  cbv zeta in Hboth. destruct (decide _) as [Hn|_] in Hboth; [lia|].
  destruct Hboth as (b' & E & _ & Hp & Hs & Ho & _).
  eexists _, _, _, _, _, _. split; [exact E1|]. split; [exact E2|].
  rewrite E. f_equal. f_equal; [f_equal|].
  - lia.
  - set (m := Z.min n2 (ffmpeg.size b - (ffmpeg.offset b + n1))).
    replace (Z.min (n1 + n2) (ffmpeg.size b - ffmpeg.offset b)) with (n1 + m) by lia.
    destruct Hb as (Hsize & Hoff & _).
    rewrite Z2Nat.inj_add by lia. rewrite <- take_take_drop.
    f_equal. rewrite drop_drop. f_equal. f_equal. lia.
  - destruct b' as [p' s' o'], b2 as [p2 s2 o2]. simpl in *.
    f_equal; [congruence|congruence|lia].
Qed.

Local Close Scope Z_scope.

(** *** The text fields of a Cineon header *)

Lemma fromString_loop_spec (c out : list N) (i n : nat) :
  n ≤ length c → i + n ≤ length out →
  cineon.fromString_loop c out i n = take i out ++ take n c ++ drop (i + n) out.
Proof.
  revert c out i. induction n as [|n IH]; intros c out i Hc Hout;
    cbn [cineon.fromString_loop].
  - rewrite Nat.add_0_r, take_0, app_nil_l. by rewrite take_drop.
  - destruct c as [|x c]; [simpl in Hc; lia|]. cbn [length] in Hc.
    rewrite IH; [|lia|rewrite length_insert; lia].
    assert (length (take i out) = i) as Hi by (rewrite length_take; lia).
    rewrite (insert_take_drop out i x) by lia.
    rewrite take_app_ge, drop_app_ge by lia. rewrite Hi.
    replace (S i - i)%nat with 1%nat by lia.
    replace (S i + n - i)%nat with (S n) by lia.
    cbn [take drop]. rewrite take_0, drop_drop, <- !app_assoc. cbn [app].
    by replace (i + S n)%nat with (S i + n)%nat by lia.
Qed.

Lemma toString_prefix (s rest : list N) (size : nat) :
  Forall (λ c, c ≠ 0%N) s →
  cineon.toString (s ++ rest) size
  = if decide (size ≤ length s) then take size s
    else s ++ cineon.toString rest (size - length s).
Proof.
  intros Hs. revert size. induction Hs as [|c s Hc Hs IH]; intros size.
  - cbn [app length]. rewrite Nat.sub_0_r.
    destruct (decide (size ≤ 0)) as [Hle|_]; [|done].
    replace size with 0 by lia. by destruct rest.
  - destruct size as [|size]; [done|]. cbn [app cineon.toString length take].
    rewrite (proj2 (N.eqb_neq c 0)) by done. rewrite IH.
    destruct (decide (size ≤ length s)), (decide (S size ≤ S (length s))); try lia; done.
Qed.

Lemma toString_zeros (n size : nat) : cineon.toString (replicate n 0%N) size = [].
Proof. destruct n, size; done. Qed.

Lemma isValid_loop_prefix (s rest : list N) (size : nat) :
  Forall (λ c, c ≠ 0%N) s →
  cineon.isValid_loop (s ++ replicate (length rest) 0%N) size = true
  ↔ Forall printable (take size s).
Proof.
  intros Hs. revert size. induction Hs as [|c s Hc Hs IH]; intros size.
  - cbn [app]. rewrite take_nil. split; [constructor|]. intros _.
    destruct rest, size; done.
  - destruct size as [|size]; [by split; [constructor|]|].
    cbn [app cineon.isValid_loop take]. rewrite (proj2 (N.eqb_neq c 0)) by done.
    rewrite Forall_cons. unfold printable at 1.
    unfold cineon._minChar, cineon._maxChar.
    destruct (c <? 32)%N eqn:E1; [apply N.ltb_lt in E1|apply N.ltb_ge in E1];
      cbn [orb].
    + split; [done|]. intros [? _]. lia.
    + destruct (126 <? c)%N eqn:E2; [apply N.ltb_lt in E2|apply N.ltb_ge in E2].
      * split; [done|]. intros [? _]. lia.
      * rewrite IH. split; [by intros ?; split; [lia|]|by intros [_ ?]].
Qed.

(** X20. A text without null characters written by [fromString], not
    terminated, in a zeroed field of [maxLen] characters is read back by
    [toString] as the text cut to [maxLen] characters; [isValid] accepts
    the field exactly when the text is not empty, the field is not empty
    and the characters kept are printable ASCII. *)
Theorem fromString_toString (s : list N) (maxLen : nat) :
  Forall (λ c, c ≠ 0%N) s → (N.of_nat maxLen < 2 ^ 64)%N →
  let text := (cineon.fromString s (replicate maxLen 0%N) (N.of_nat maxLen) false).2 in
  length text = maxLen
  ∧ cineon.toString text maxLen = take maxLen s
  ∧ (cineon.isValid text maxLen = true
     ↔ s ≠ [] ∧ maxLen ≠ 0 ∧ Forall printable (take maxLen s)).
Proof.
  intros Hs Hmax. cbv zeta. unfold cineon.fromString. cbn [snd].
  assert ((N.of_nat maxLen + 2 ^ 64 - 0) mod 2 ^ 64 = N.of_nat maxLen)%N as ->.
  { rewrite N.sub_0_r.
    rewrite <- (N.mul_1_l (2 ^ 64)) at 1. rewrite N.Div0.mod_add.
    by apply N.mod_small. }
  set (n := N.to_nat (N.min (N.of_nat (length s)) (N.of_nat maxLen))).
  assert (n = length s `min` maxLen) as Hn by (unfold n; lia).
  rewrite fromString_loop_spec by (rewrite ?length_replicate; lia).
  rewrite take_0, app_nil_l, Nat.add_0_l, Hn, drop_replicate.
  assert (take (length s `min` maxLen) s = take maxLen s) as ->.
  { by rewrite take_min_length. }
  assert (Forall (λ c, c ≠ 0%N) (take maxLen s)) as Hs'.
  { by apply Forall_take. }
  split; [|split].
  - rewrite length_app, length_take, length_replicate. lia.
  - rewrite toString_prefix by done. rewrite length_take.
    destruct (decide _) as [Hle|Hgt].
    + by rewrite take_take, Nat.min_id.
    + by rewrite toString_zeros, app_nil_r.
  - unfold cineon.isValid.
    pose proof (isValid_loop_prefix (take maxLen s)
                  (replicate (maxLen - length s `min` maxLen) 0%N) maxLen Hs') as Hv.
    rewrite length_replicate, take_take, Nat.min_id in Hv.
    destruct (cineon.isValid_loop _ _) eqn:E.
    + apply proj1 in Hv. specialize (Hv eq_refl).
      destruct maxLen as [|maxLen]; [by split; [|intros (_ & ? & _)]|].
      destruct s as [|c s]; [by split; [|intros (? & _)]|].
      cbn [take app hd]. apply Forall_cons in Hs as [Hc _].
      rewrite (proj2 (N.eqb_neq c 0)) by done. done.
    + split; [done|]. intros (_ & _ & Hp). apply Hv in Hp. congruence.
Qed.

(** *** Cancelling requests for thumbnails *)

Lemma elem_of_erase_ne (x id : N) (ids : list N) :
  x ≠ id → x ∈ ui.erase id ids ↔ x ∈ ids.
Proof.
  intros Hne. induction ids as [|y ids IH]; [done|]. cbn [ui.erase].
  destruct (decide (y = id)) as [->|Hy].
  - rewrite elem_of_cons. split; [by right|]. by intros [?|?].
  - by rewrite !elem_of_cons, IH.
Qed.

Lemma filter_ext_in {A : Type} (P Q : A → Prop) `{!∀ x, Decision (P x)}
      `{!∀ x, Decision (Q x)} (l : list A) :
  (∀ x, x ∈ l → P x ↔ Q x) → filter P l = filter Q l.
Proof.
  induction l as [|x l IH]; intros Heq; [done|].
  assert (filter P l = filter Q l) as E.
  { apply IH. intros y Hy. apply Heq. by right. }
  destruct (decide (P x)) as [Hp|Hp].
  - rewrite !filter_cons_True; [by rewrite E| |done]. apply Heq; [by left|done].
  - rewrite !filter_cons_False; [done| |done]. intros Hq. apply Hp, Heq; [by left|done].
Qed.

Lemma cancelRequests_loop_filter {A : Type} (requests : list (ui.Request A))
      (ids : list N) :
  NoDup (ui.id <$> requests) →
  (ui.cancelRequests_loop requests ids).1
  = filter (λ r, ui.id r ∉ ids) requests
  ∧ ∀ x, x ∉ ui.id <$> requests →
         x ∈ (ui.cancelRequests_loop requests ids).2 ↔ x ∈ ids.
Proof.
  revert ids. induction requests as [|r rest IH]; intros ids Hnd;
    cbn [ui.cancelRequests_loop].
  - done.
  - rewrite fmap_cons in Hnd. apply NoDup_cons in Hnd as [Hr Hnd].
    case_bool_decide as Hin.
    + destruct (IH (ui.erase (ui.id r) ids) Hnd) as [-> Hids]. split.
      * rewrite filter_cons_False by (intros Hn; by apply Hn).
        apply filter_ext_in. intros x Hx.
        rewrite elem_of_erase_ne; [done|].
        intros E. apply Hr. rewrite <- E. by apply list_elem_of_fmap_2.
      * intros x Hx. rewrite fmap_cons in Hx. apply not_elem_of_cons in Hx as [Hne Hx].
        rewrite Hids by done. by apply elem_of_erase_ne.
    + destruct (IH ids Hnd) as [E Hids].
      destruct (ui.cancelRequests_loop rest ids) as [rest' ids']. split.
      * rewrite filter_cons_True by done. cbn [fst] in *. by rewrite E.
      * intros x Hx. rewrite fmap_cons in Hx. apply not_elem_of_cons in Hx as [Hne Hx].
        cbn [snd] in *. by apply Hids.
Qed.

(** X21. When the identifiers of the queued requests are distinct,
    [cancelRequests(ids)] erases from each of the three queues exactly
    the requests whose identifier is in [ids], keeps the others in
    order, and leaves [stopped] as it is. *)
Theorem cancelRequests_exactly {I T W : Type} (m : ui.Mutex I T W) (ids : list N) :
  NoDup (queuedIds m) →
  ui.infoRequests (ui.cancelRequests m ids)
  = filter (λ r, ui.id r ∉ ids) (ui.infoRequests m)
  ∧ ui.thumbnailRequests (ui.cancelRequests m ids)
    = filter (λ r, ui.id r ∉ ids) (ui.thumbnailRequests m)
  ∧ ui.waveformRequests (ui.cancelRequests m ids)
    = filter (λ r, ui.id r ∉ ids) (ui.waveformRequests m)
  ∧ ui.stopped (ui.cancelRequests m ids) = ui.stopped m.
Proof.
  unfold queuedIds. intros Hnd.
  apply NoDup_app in Hnd as (Hi & Hit & Hnd).
  apply NoDup_app in Hnd as (Ht & Htw & Hw).
  unfold ui.cancelRequests.
  destruct (cancelRequests_loop_filter (ui.infoRequests m) ids Hi) as [Ei Hids1].
  destruct (ui.cancelRequests_loop (ui.infoRequests m) ids) as [info' ids1].
  cbn [fst snd] in *.
  destruct (cancelRequests_loop_filter (ui.thumbnailRequests m) ids1 Ht) as [Et Hids2].
  destruct (ui.cancelRequests_loop (ui.thumbnailRequests m) ids1) as [thumbnail' ids2].
  cbn [fst snd] in *.
  destruct (cancelRequests_loop_filter (ui.waveformRequests m) ids2 Hw) as [Ew _].
  destruct (ui.cancelRequests_loop (ui.waveformRequests m) ids2) as [waveform' ids3].
  cbn [fst snd ui.infoRequests ui.thumbnailRequests ui.waveformRequests ui.stopped] in *.
  split; [exact Ei|]. split; [|split; [|done]].
  - rewrite Et. apply filter_ext_in. intros r Hr.
    rewrite Hids1; [done|]. intros Hin. apply (Hit (ui.id r)); [done|].
    apply elem_of_app. left. by apply list_elem_of_fmap_2.
  - rewrite Ew. apply filter_ext_in. intros r Hr.
    assert (ui.id r ∉ ui.id <$> ui.thumbnailRequests m) as Hnt.
    { intros Hin. apply (Htw (ui.id r)); [done|]. by apply list_elem_of_fmap_2. }
    assert (ui.id r ∉ ui.id <$> ui.infoRequests m) as Hni.
    { intros Hin. apply (Hit (ui.id r)); [done|].
      apply elem_of_app. right. by apply list_elem_of_fmap_2. }
    by rewrite Hids2, Hids1.
Qed.

(** *** The speed label *)

Local Open Scope Q_scope.

(** X22. The label made by the constructor and then given a value with a
    rate that is not zero shows no text when the value equals the rate
    (a time of one second, which [operator !=] does not tell from
    [time::invalidTime]), and the formatted rate otherwise. *)
Theorem setValue_blank_at_one_second (arg : Q → string) (v : RationalTime) :
  ¬ rate v == 0 →
  qwidget.text (qwidget.setValue arg v (qwidget.create arg))
  = if Qeq_bool (value v) (rate v) then EmptyString else arg (rate v).
Proof.
  intros Hr. unfold qwidget.setValue, qwidget.create, qwidget._textUpdate.
  cbn [qwidget.value qwidget.text].
  assert (equal v invalidTime = Qeq_bool (value v) (rate v)) as Heq.
  { unfold equal, value_rescaled_to, invalidTime. cbn [value rate].
    destruct (Qeq_bool (-1) (rate v)) eqn:E.
    - apply Qeq_bool_iff in E.
      destruct (Qeq_bool (value v) (-1)) eqn:E1.
      + apply Qeq_bool_iff in E1. symmetry. apply Qeq_bool_iff. by rewrite E1, E.
      + symmetry. destruct (Qeq_bool (value v) (rate v)) eqn:E2; [|done].
        apply Qeq_bool_iff in E2. rewrite <- E in E2. apply Qeq_bool_iff in E2.
        congruence.
    - destruct (Qeq_bool (value v * -1 / rate v) (-1)) eqn:E1.
      + apply Qeq_bool_iff in E1. symmetry. apply Qeq_bool_iff.
        assert (value v == value v * -1 / rate v * - rate v) as -> by (field; done).
        rewrite E1. ring.
      + symmetry. destruct (Qeq_bool (value v) (rate v)) eqn:E2; [|done].
        apply Qeq_bool_iff in E2.
        assert (Qeq_bool (value v * -1 / rate v) (-1) = true); [|congruence].
        apply Qeq_bool_iff. rewrite E2. field. done. }
  change (value invalidTime) with (-1). change (rate invalidTime) with (-1).
  destruct (Qeq_bool (value v) (-1) && Qeq_bool (rate v) (-1)) eqn:Esame.
  - apply andb_prop in Esame as [E1 E2]. apply Qeq_bool_iff in E1, E2.
    cbn [qwidget.text]. change (equal invalidTime invalidTime) with true. cbn [negb].
    assert (Qeq_bool (value v) (rate v) = true) as ->.
    { apply Qeq_bool_iff. by rewrite E1, E2. }
    reflexivity.
  - cbn [qwidget.text qwidget.value]. rewrite Heq.
    by destruct (Qeq_bool (value v) (rate v)).
Qed.

Local Close Scope Q_scope.

(** *** Instances of the further properties on the examples *)

Lemma tick_keeps_requests_witness :
  asked examples.request10
  ∈ asked <$> (requests (@tick examples.layout examples.system examples.pending10)
               ++ requestsInProgress
                    (@tick examples.layout examples.system examples.pending10))
  ∨ ∃ frame,
      frames (@tick examples.layout examples.system examples.pending10)
      !! Request.promise examples.request10 = Some (Value frame).
Proof.
  assert (examples.request10
          ∈ requests examples.pending10 ++ requestsInProgress examples.pending10)
    as Hin by (vm_compute; left).
  exact (@tick_keeps_requests examples.layout examples.system examples.pending10
           examples.request10 Hin).
Defined.

Lemma tick_fulfils_ready_witness :
  (examples.request2
   ∉ requestsInProgress (@tick examples.layout2 examples.system examples.both_done))
  ∧ ∃ frame,
      frames (@tick examples.layout2 examples.system examples.both_done)
      !! Request.promise examples.request2 = Some (Value frame).
Proof.
  assert (examples.request2 ∈ requestsInProgress examples.both_done) as Hin
    by (vm_compute; left).
  assert (∀ id, uses examples.request2 id → id < nextVideoFrame examples.both_done)
    as Hold.
  { intros id (j & Hj & Hid). change (nextVideoFrame examples.both_done) with 2.
    apply elem_of_cons in Hj as [->|Hj].
    - destruct Hid as [[= <-]|[=]]. lia.
    - apply list_elem_of_singleton in Hj as ->. destruct Hid as [[= <-]|[=]]. lia. }
  assert (requestReady examples.both_done examples.request2 = true) as Hready
    by (vm_compute; reflexivity).
  exact (@tick_fulfils_ready examples.layout2 examples.system examples.both_done
           examples.request2 Hin Hold Hready).
Defined.

Lemma cancelFrames_spares_promoted_witness :
  requestsInProgress (cancelFrames examples.two_layers)
  = requestsInProgress examples.two_layers
  ∧ frames (cancelFrames examples.two_layers) !! 0
    = frames examples.two_layers !! 0.
Proof.
  assert (0 ∉ Request.promise <$> requests examples.two_layers) as Hid.
  { change (requests examples.two_layers) with (@nil Request.t).
    apply not_elem_of_nil. }
  exact (cancelFrames_spares_promoted examples.two_layers 0 Hid).
Defined.

Lemma tick_without_media_witness :
  readers (@tick examples.layout examples.nothing examples.pending10) = ∅
  ∧ requestsInProgress (@tick examples.layout examples.nothing examples.pending10) = []
  ∧ ∃ frame,
      frames (@tick examples.layout examples.nothing examples.pending10)
      !! Request.promise examples.request10 = Some (Value frame)
      ∧ Forall (λ layer, FrameLayer.image layer = None
                         ∧ FrameLayer.imageB layer = None)
               (Frame.layers frame).
Proof.
  assert (readers examples.pending10 = ∅) as Hr by reflexivity.
  assert (requestsInProgress examples.pending10 = []) as Hin by reflexivity.
  assert (@offline examples.nothing examples.pending10) as Hoff
    by (right; intros path options; exact I).
  assert (∀ r, r ∈ requests examples.pending10 → Request.layerData r = []) as Hempty.
  { intros r Hr'. change (requests examples.pending10) with [examples.request10] in Hr'.
    by apply list_elem_of_singleton in Hr' as ->. }
  assert (examples.request10
          ∈ take (requestCount examples.pending10) (requests examples.pending10))
    as Hr' by (vm_compute; left).
  exact (@tick_without_media examples.layout examples.nothing examples.pending10
           examples.request10 Hr Hin Hoff Hempty Hr').
Defined.

Local Open Scope Q_scope.

Lemma dissolve_phase_open_witness :
  (LayerData.transition examples.data44 = Transition_None
   ∧ LayerData.transitionValue examples.data44 = 0%Q)
  ∨ (∃ tr i o n,
       ((neighbors_of examples.track (addr (AClip examples.clipA))).1
        = Some (ATransition tr)
        ∨ (neighbors_of examples.track (addr (AClip examples.clipA))).2
          = Some (ATransition tr))
       ∧ whole_handles 24 tr i o
       ∧ (1 ≤ n ≤ i + o)%Z
       ∧ LayerData.transitionValue examples.data44
         == inject_Z n / inject_Z (i + o + 1))
    ∧ 0 < LayerData.transitionValue examples.data44
    ∧ LayerData.transitionValue examples.data44 < 1.
Proof.
  assert (0 < 24)%Z as Hr by lia.
  assert (@trimmed_range_in_parent examples.layout examples.track
            (AClip examples.clipA) = Some examples.rangeA) as Hrange
    by (vm_compute; reflexivity).
  assert (@itemLayer examples.layout examples.system examples.request44 ∅
            examples.track (AClip examples.clipA) examples.created
          = Ok (Some examples.data44) examples.state44) as Hitem
    by (vm_compute; reflexivity).
  assert (whole (start_time examples.rangeA) 0 24) as Hs by (split; reflexivity).
  assert (whole (otime.duration examples.rangeA) 48 24) as Hd by (split; reflexivity).
  assert (1 ≤ 48)%Z as Hone by lia.
  assert (whole (sub (Request.time examples.request44)
                     (globalStartTime examples.created)) 44 24) as Ht
    by (split; vm_compute; reflexivity).
  assert (∀ tr,
            (neighbors_of examples.track (addr (AClip examples.clipA))).1
            = Some (ATransition tr)
            ∨ (neighbors_of examples.track (addr (AClip examples.clipA))).2
              = Some (ATransition tr) →
            ∃ i o, whole_handles 24 tr i o) as Hh.
  { intros tr [Htr|Htr]; vm_compute in Htr; [discriminate Htr|].
    injection Htr as <-. exists 6%Z, 6%Z.
    split; [split; reflexivity|]. split; [split; reflexivity|].
    split; [lia|]. split; [lia|]. vm_compute. discriminate. }
  exact (@dissolve_phase_open examples.layout examples.system examples.request44 ∅
           examples.track (AClip examples.clipA) examples.rangeA examples.data44
           examples.created examples.state44 24 0 48 44 Hr Hrange Hitem Hs Hd Hone
           Ht Hh).
Defined.

Local Close Scope Q_scope.

Lemma dissolve_phase_continuous_witness :
  (LayerData.transitionValue (examples.data_of examples.in50)
   - LayerData.transitionValue (examples.data_of examples.out44)
   == (value (examples.t24 50) - value (examples.t24 44))
      / (value (in_offset examples.dissolve) + value (out_offset examples.dissolve) + 1))%Q.
Proof.
  assert (framed 24 examples.rangeA) as Hf.
  { split; [reflexivity|]. split; [reflexivity|]. exists 48%Z. split; [lia|reflexivity]. }
  assert (value (start_time examples.rangeB)
          == value (start_time examples.rangeA)
             + value (otime.duration examples.rangeA))%Q as Hnext by reflexivity.
  assert (handles 24 examples.dissolve) as Hh.
  { split; [reflexivity|]. split; [reflexivity|]. split; discriminate. }
  assert (gt (examples.t24 44)
             (sub (end_time_inclusive examples.rangeA) (in_offset examples.dissolve))
          = true) as Hgt by (vm_compute; reflexivity).
  assert (@transitionOut examples.layout examples.system examples.request44 ∅
            examples.track (Some (ATransition examples.dissolve)) examples.rangeA
            (examples.t24 44) LayerData.default examples.created
          = Ok (examples.data_of examples.out44) (examples.state_after examples.out44))
    as HA by (vm_compute; reflexivity).
  assert (lt (examples.t24 50)
             (add (start_time examples.rangeB) (out_offset examples.dissolve))
          = true) as Hlt by (vm_compute; reflexivity).
  assert (@transitionIn examples.layout examples.system examples.request44 ∅
            examples.track (Some (ATransition examples.dissolve)) examples.rangeB
            (examples.t24 50) LayerData.default examples.created
          = Ok (examples.data_of examples.in50) (examples.state_after examples.in50))
    as HB by (vm_compute; reflexivity).
  exact (@dissolve_phase_continuous examples.layout examples.system
           examples.request44 ∅ examples.track examples.dissolve examples.rangeA
           examples.rangeB 24%Q (examples.t24 44) (examples.t24 50)
           LayerData.default (examples.data_of examples.out44)
           LayerData.default (examples.data_of examples.in50)
           examples.created (examples.state_after examples.out44)
           examples.created (examples.state_after examples.in50)
           Hf Hnext Hh Hgt HA Hlt HB).
Defined.

Lemma toRanges_covers_witness :
  (∃ range, range ∈ toRanges (frameAt 24 <$> [3; 1; 2; 7]%Z)
            ∧ contains range (frameAt 24 2) = true)
  ↔ 2%Z ∈ [3; 1; 2; 7]%Z.
Proof.
  assert (0 < 24)%Q as Hr by reflexivity.
  exact (toRanges_covers 24 [3; 1; 2; 7]%Z 2 Hr).
Defined.

Lemma toRanges_apart_witness :
  lt (end_time_exclusive examples.range_1_3) (start_time examples.range_7_7) = true.
Proof.
  assert (0 < 24)%Q as Hr by reflexivity.
  assert (toRanges (frameAt 24 <$> [3; 1; 2; 7]%Z) !! 0 = Some examples.range_1_3)
    as Hfirst by (vm_compute; reflexivity).
  assert (toRanges (frameAt 24 <$> [3; 1; 2; 7]%Z) !! 1 = Some examples.range_7_7)
    as Hsecond by (vm_compute; reflexivity).
  assert (0 < 1) as Hlt by lia.
  exact (toRanges_apart 24 [3; 1; 2; 7]%Z 0 1 examples.range_1_3 examples.range_7_7
           Hr Hfirst Hsecond Hlt).
Defined.

Lemma Frame_eqb_instant_witness :
  Frame_eqb examples.frame_1_24 examples.frame_2_48 = true
  ↔ (1 * 48 = 2 * 24)%Z
    ∧ Forall2 same_layer (Frame.layers examples.frame_1_24)
                         (Frame.layers examples.frame_2_48).
Proof.
  assert (whole (Frame.time examples.frame_1_24) 1 24) as Ha
    by (split; reflexivity).
  assert (whole (Frame.time examples.frame_2_48) 2 48) as Hb
    by (split; reflexivity).
  assert (0 < 24)%Z as Hpa by lia.
  assert (0 < 48)%Z as Hpb by lia.
  assert (Z.abs (1 * 48) + 24 < 2 ^ 53)%Z as Hd by (vm_compute; reflexivity).
  exact (Frame_eqb_instant examples.frame_1_24 examples.frame_2_48 1 24 2 48
           Ha Hb Hpa Hpb Hd).
Defined.

Lemma destroy_resolves_pending_witness :
  ∃ p', @destroy (λ _, Blocks) examples.pending10 = Returned p'
        ∧ stopped p' = true
        ∧ frames p' !! Request.promise examples.request10
          = Some (Value (Frame.mk (Request.time examples.request10) [])).
Proof.
  assert (NoDup (Request.promise
                   <$> (requests examples.pending10
                        ++ requestsInProgress examples.pending10))) as Hnd.
  { change (NoDup [0]). apply NoDup_singleton. }
  assert (∀ r, r ∈ requestsInProgress examples.pending10 →
               all_values (await (λ _, Blocks) examples.pending10) r) as Hv.
  { intros r Hr. change (requestsInProgress examples.pending10) with (@nil Request.t) in Hr.
    by apply elem_of_nil in Hr. }
  assert (∀ r, r ∈ requests examples.pending10 → Request.layerData r = []) as Hempty.
  { intros r Hr. change (requests examples.pending10) with [examples.request10] in Hr.
    by apply list_elem_of_singleton in Hr as ->. }
  assert (examples.request10 ∈ requests examples.pending10) as Hr
    by (vm_compute; left).
  exact (destroy_resolves_pending (λ _, Blocks) examples.pending10 examples.request10
           Hnd Hv Hempty Hr).
Defined.

Lemma avIOBufferRead_next_witness :
  let n := Z.min 3 (ffmpeg.size examples.five - ffmpeg.offset examples.five) in
  if decide (n ≤ 0)%Z
  then ffmpeg.avIOBufferRead examples.five 3 = Some (ffmpeg.AVERROR_EOF, [], examples.five)
  else
    ∃ b', ffmpeg.avIOBufferRead examples.five 3
          = Some (n, take (Z.to_nat n)
                       (drop (Z.to_nat (ffmpeg.offset examples.five))
                             (ffmpeg.p examples.five)),
                  b')
          ∧ Z.of_nat (length (take (Z.to_nat n)
                                   (drop (Z.to_nat (ffmpeg.offset examples.five))
                                         (ffmpeg.p examples.five)))) = n
          ∧ ffmpeg.p b' = ffmpeg.p examples.five
          ∧ ffmpeg.size b' = ffmpeg.size examples.five
          ∧ ffmpeg.offset b' = (ffmpeg.offset examples.five + n)%Z
          ∧ inside b'.
Proof.
  assert (inside examples.five) as Hb by (vm_compute; intuition discriminate).
  assert (- 2 ^ 31 ≤ 3 < 2 ^ 31)%Z as Hn by lia.
  exact (avIOBufferRead_next examples.five 3 Hb Hn).
Defined.

Lemma avIOBufferSeek_clamps_witness :
  let out := ffmpeg.avIOBufferSeek examples.five 9 0 in
  inside out.2
  ∧ ffmpeg.p out.2 = ffmpeg.p examples.five
  ∧ ffmpeg.size out.2 = ffmpeg.size examples.five
  ∧ (Z.testbit 0 16 = true → out = (ffmpeg.size examples.five, examples.five))
  ∧ (Z.testbit 0 16 = false →
     out.1 = 9%Z
     ∧ ffmpeg.offset out.2 = Z.max 0 (Z.min 9 (ffmpeg.size examples.five))).
Proof.
  assert (inside examples.five) as Hb by (vm_compute; intuition discriminate).
  assert (- 2 ^ 63 ≤ 9 < 2 ^ 63)%Z as Hn by lia.
  exact (avIOBufferSeek_clamps examples.five 9 0 Hb Hn).
Defined.

Lemma avIOBufferRead_twice_witness :
  ∃ k1 buf1 b1 k2 buf2 b2,
    ffmpeg.avIOBufferRead examples.five 2 = Some (k1, buf1, b1)
    ∧ ffmpeg.avIOBufferRead b1 2 = Some (k2, buf2, b2)
    ∧ ffmpeg.avIOBufferRead examples.five (2 + 2) = Some ((k1 + k2)%Z, buf1 ++ buf2, b2).
Proof.
  assert (inside examples.five) as Hb by (vm_compute; intuition discriminate).
  assert (0 < 2)%Z as H2 by lia.
  assert (2 + 2 < 2 ^ 31)%Z as Hsum by lia.
  assert (ffmpeg.offset examples.five + 2 < ffmpeg.size examples.five)%Z as Hroom
    by (vm_compute; reflexivity).
  exact (avIOBufferRead_twice examples.five 2 2 Hb H2 H2 Hsum Hroom).
Defined.

Lemma fromString_toString_witness :
  let text := (cineon.fromString examples.hi (replicate 24 0%N) (N.of_nat 24) false).2 in
  length text = 24
  ∧ cineon.toString text 24 = take 24 examples.hi
  ∧ (cineon.isValid text 24 = true
     ↔ examples.hi ≠ [] ∧ 24 ≠ 0 ∧ Forall printable (take 24 examples.hi)).
Proof.
  assert (Forall (λ c, c ≠ 0%N) examples.hi) as Hs.
  { repeat constructor; discriminate. }
  assert (N.of_nat 24 < 2 ^ 64)%N as Hmax by (vm_compute; reflexivity).
  exact (fromString_toString examples.hi 24 Hs Hmax).
Defined.

Lemma cancelRequests_exactly_witness :
  ui.infoRequests (ui.cancelRequests examples.queues [2; 3]%N)
  = filter (λ r, ui.id r ∉ [2; 3]%N) (ui.infoRequests examples.queues)
  ∧ ui.thumbnailRequests (ui.cancelRequests examples.queues [2; 3]%N)
    = filter (λ r, ui.id r ∉ [2; 3]%N) (ui.thumbnailRequests examples.queues)
  ∧ ui.waveformRequests (ui.cancelRequests examples.queues [2; 3]%N)
    = filter (λ r, ui.id r ∉ [2; 3]%N) (ui.waveformRequests examples.queues)
  ∧ ui.stopped (ui.cancelRequests examples.queues [2; 3]%N)
    = ui.stopped examples.queues.
Proof.
  assert (NoDup (queuedIds examples.queues)) as Hnd.
  { change (NoDup [1; 2; 3; 4]%N). apply NoDup_ListNoDup.
    repeat constructor; cbn; intuition discriminate. }
  exact (cancelRequests_exactly examples.queues [2; 3]%N Hnd).
Defined.

Lemma setValue_blank_at_one_second_witness :
  qwidget.text (qwidget.setValue (λ _, "24.00") (examples.t24 24)
                                 (qwidget.create (λ _, "24.00")))
  = if Qeq_bool (value (examples.t24 24)) (rate (examples.t24 24))
    then EmptyString else "24.00".
Proof.
  assert (¬ (rate (examples.t24 24) == 0)%Q) as Hr by discriminate.
  exact (setValue_blank_at_one_second (λ _, "24.00") (examples.t24 24) Hr).
Defined.


(** *** Instances of the properties of the transitions *)

Lemma clip_layer_transitions_witness :
  LayerData.transition examples.data44 = Transition_Dissolve
  ∧ (LayerData.transitionValue examples.data44
     == phase (examples.t24 44) (examples.t24 41) (examples.t24 54))%Q.
Proof.
  assert (@trimmed_range_in_parent examples.layout examples.track
            (AClip examples.clipA) = Some examples.rangeA) as Hrange
    by (vm_compute; reflexivity).
  assert (@itemLayer examples.layout examples.system examples.request44 ∅
            examples.track (AClip examples.clipA) examples.created
          = Ok (Some examples.data44) examples.state44) as Hitem
    by (vm_compute; reflexivity).
  assert (0 < 24)%Q as Hr by reflexivity.
  destruct (@clip_layer_transitions examples.layout examples.system
              examples.request44 ∅ examples.track examples.clipA examples.rangeA
              examples.data44 examples.created examples.state44 24%Q Hrange Hitem Hr)
    as (_ & Hright & _); [vm_compute; reflexivity..|].
  destruct (Hright examples.dissolve) as (Hkind & Hvalue & _).
  - vm_compute; reflexivity.
  - vm_compute; reflexivity.
  - vm_compute; reflexivity.
  - vm_compute; reflexivity.
  - intros tl Htl. vm_compute in Htl. discriminate Htl.
  - split; [exact Hkind|]. rewrite Hvalue. vm_compute. reflexivity.
Defined.

(** C3, as stated, fails when both transitions apply: for the clip of 8
    frames at frame 51 the neighbor on the right is a transition and the
    time is after end - inOffset = 49, but the layer has the phase of the
    transition on the left, 10/13 and not 2/13, and its secondary image
    is the clip's own read (future 0), not the read of the clip on the
    right of the transition (future 1, queued at the reader of clip B).
    It fails as well when the request is not at the rate of the track:
    the guard compares the times, the phase is computed from the values
    as they are; for the request 88/48, the instant of frame 44, the
    layer of clip A has the phase (88 - 41)/13 = 47/13, above 1, where
    (t - a)/(b - a) is 3/13. *)
Lemma both_transitions_apply :
  let time := sub (Request.time examples.request51) (examples.t24 0) in
  let time88 := sub (Request.time examples.request88) (examples.t24 0) in
  @trimmed_range_in_parent examples.layout3 examples.crowded (AClip examples.clipM)
  = Some examples.rangeM
  ∧ contains examples.rangeM time = true
  ∧ (neighbors_of examples.crowded 4).2 = Some (ATransition examples.dissolve2)
  ∧ gt time (sub (end_time_inclusive examples.rangeM)
                 (in_offset examples.dissolve2)) = true
  ∧ (neighbors_of examples.crowded 6).2 = Some (AClip examples.clipB)
  ∧ examples.layer51
    = Ok (Some (LayerData.mk (Some 2) (Some 0) Transition_Dissolve (10 # 13)))
         examples.state51
  ∧ (transitionValue
       (value time)
       (value (end_time_inclusive examples.rangeM) - value (in_offset examples.dissolve2))
       (value (end_time_inclusive examples.rangeM) + value (out_offset examples.dissolve2) + 1)
     == 2 # 13)%Q
  ∧ ¬ (10 # 13 == 2 # 13)%Q
  ∧ (λ i, rq_future <$> videoFrameRequests (Reader.read i.2))
      <$> readers examples.state51 !! 3%positive
    = Some [1]
  ∧ contains examples.rangeA time88 = true
  ∧ gt time88 (sub (end_time_inclusive examples.rangeA)
                   (in_offset examples.dissolve)) = true
  ∧ examples.layer88
    = Ok (Some (LayerData.mk (Some 0) (Some 1) Transition_Dissolve (1128 # 312)))
         examples.state88
  ∧ (1128 # 312 == 47 # 13)%Q
  ∧ (phase time88
       (sub (end_time_inclusive examples.rangeA) (in_offset examples.dissolve))
       (add (add (end_time_inclusive examples.rangeA) (out_offset examples.dissolve))
            (oneFrame 24))
     == 3 # 13)%Q
  ∧ ¬ (47 # 13 <= 1)%Q.
Proof.
  cbv zeta.
  split; [vm_compute; reflexivity|]. split; [vm_compute; reflexivity|].
  split; [vm_compute; reflexivity|]. split; [vm_compute; reflexivity|].
  split; [vm_compute; reflexivity|]. split; [vm_compute; reflexivity|].
  split; [vm_compute; reflexivity|].
  split; [intros E; vm_compute in E; discriminate E|].
  split; [vm_compute; reflexivity|]. split; [vm_compute; reflexivity|].
  split; [vm_compute; reflexivity|]. split; [vm_compute; reflexivity|].
  split; [vm_compute; reflexivity|]. split; [vm_compute; reflexivity|].
  intros E. vm_compute in E. by apply E.
Qed.

Lemma boundary_layers_witness :
  LayerData.transition examples.data41 = Transition_None
  ∧ LayerData.transitionValue examples.data41 = 0%Q.
Proof.
  assert (@trimmed_range_in_parent examples.layout examples.track
            (AClip examples.clipA) = Some examples.rangeA) as Hrange
    by (vm_compute; reflexivity).
  assert (@itemLayer examples.layout examples.system examples.request41 ∅
            examples.track (AClip examples.clipA) examples.created
          = Ok (Some examples.data41) examples.state41) as Hitem
    by (vm_compute; reflexivity).
  destruct (@boundary_layers examples.layout examples.system
              examples.request41 ∅ examples.track examples.clipA examples.rangeA
              examples.dissolve examples.data41 examples.created examples.state41
              Hrange Hitem)
    as (Hfirst & _).
  apply Hfirst.
  - vm_compute; reflexivity.
  - intros tl Htl. vm_compute in Htl. discriminate Htl.
  - vm_compute; reflexivity.
Defined.

(** C4, as stated, fails at the second boundary: frame 54 is the
    inclusive end of clip A (47) plus the out-offset (6) plus 1; the only
    layer made there is that of clip B, with no transition and phase 0,
    not 1. *)
Lemma phase_at_second_boundary :
  add (add (end_time_inclusive examples.rangeA) (out_offset examples.dissolve))
      (examples.t24 1)
  = examples.t24 54
  ∧ Request.layerData
      <$> requestsInProgress
            (@tick examples.layout examples.system
                   (getFrame (examples.t24 54) 0 None examples.created).2)
    = [[LayerData.mk (Some 0) None Transition_None 0]]
  ∧ ¬ Qeq (LayerData.transitionValue (LayerData.mk (Some 0) None Transition_None 0)) 1.
Proof.
  split; [vm_compute; reflexivity|]. split; [vm_compute; reflexivity|].
  intros E. vm_compute in E. discriminate E.
Qed.

(** *** The whole numbers and the rounding of the code

    On whole frames at whole rates the arithmetic of [double] gives the
    discrete outcomes of the exact arithmetic: here for the frames -48
    to 240 at the rates of the examples, and for the comparison of the
    times of up to 12 frames.  Outside the whole numbers it does not:
    the phase of frame 2^25 - 1 of a transition of 2^25 frames is stored
    as the [float] 1, where that of frame 2^24 - 1 of 2^24 is below 1;
    1 at rate 3 is equal to the [double] nearest to 1/3 at rate 1, which
    is another instant. *)

Lemma whole_frames_agree :
  forallb (λ v, forallb (λ r, forallb (λ m, floor_agrees v r m) wholeRates)
                        wholeRates)
          (seqZ (-48) 288) = true
  ∧ forallb (λ va, forallb (λ vb,
               forallb (λ ra, forallb (λ rb, equal_agrees va ra vb rb) wholeRates)
                       wholeRates)
               (seqZ 0 13))
            (seqZ 0 13) = true.
Proof. split; vm_compute; reflexivity. Qed.

Lemma phase_float_bound :
  (binary64.to_Q (binary64.transitionValue (binary64.of_Z (2 ^ 24 - 1))
                    (binary64.of_Z 0) (binary64.of_Z (2 ^ 24))) < 1)%Q
  ∧ (binary64.to_Q (binary64.transitionValue (binary64.of_Z (2 ^ 25 - 1))
                      (binary64.of_Z 0) (binary64.of_Z (2 ^ 25))) == 1)%Q.
Proof. split; vm_compute; reflexivity. Qed.

Lemma equal_of_rounded :
  binary64.equal (binary64.of_Z 1) (binary64.of_Z 3)
                 (binary64.div (binary64.of_Z 1) (binary64.of_Z 3)) (binary64.of_Z 1)
  = true
  ∧ equal (mkTime 1 3)
          (mkTime (binary64.to_Q (binary64.div (binary64.of_Z 1) (binary64.of_Z 3))) 1)
    = false.
Proof. split; vm_compute; reflexivity. Qed.

(** *** Instances of the media time *)

Local Open Scope Q_scope.



Local Close Scope Q_scope.

End properties.
